(** * Canvas Sync: group registry, derivation and operation propagation

    A shallow embedding of [CanvasSyncService] (canvasSyncService.ts) and of
    the data model of types.ts, with the properties of the design document
    stated over it.

    Definitions:
    - [Js]        the pieces of the JavaScript runtime the service calls
                  (string search and replace, the two regular expressions,
                  [parseInt], addition and printing of numbers, which are
                  IEEE 754 doubles);
    - types.ts;
    - the host: the Obsidian vault as the service sees it, and the monad in
                  which the methods of the service are written;
    - the methods of [CanvasSyncService];
    - [Engine]    the interleaving of callers and of the drain loop at the
                  [await] points of [processOperation];
    - the vocabulary of the properties, and the scenarios;
    - the registry as the settings tab of main.ts uses it, and the listener
                  of canvasListener.ts: the registration of the canvas views
                  and the three event handlers.

    Properties:
    - the handlers ([handleDeleteNode], [handleUpdateNodeText]);
    - the propagation of one operation and the drain loop run to its end;
    - facts about the runtime, and the derivation of a new view;
    - [EngineFacts] ordering and mutual exclusion in the engine;
    - the handlers as edits that are idempotent and commute; what a
                  propagation writes and what it leaves; the names of derived
                  views; the registry kept in order; the listener;
    - [EngineResult] the documents the engine comes to;
    - [EngineOrder] the operations run in the order of their submission,
                  and the moment [lastSync] is set;
    - the properties on the scenarios. *)

From Stdlib Require Import ZArith NArith Ascii String Decimal DecimalString Lia.
From Stdlib Require DecimalPos.
From stdpp Require Import base tactics option list gmap strings.

Local Open Scope string_scope.

(* ===================================================================== *)
(** * The JavaScript runtime *)
(* ===================================================================== *)

Module Js.

(** Strings are sequences of code units; a code unit is an [ascii], so the
    model covers the code units 0..255. *)

Definition is_digit (c : ascii) : bool :=
  let n := nat_of_ascii c in (48 <=? n)%nat && (n <=? 57)%nat.

(** Line terminators, which [.] does not match (LF and CR; U+2028 and
    U+2029 are not code units of this model). *)
Definition is_line_terminator (c : ascii) : bool :=
  let n := nat_of_ascii c in (n =? 10)%nat || (n =? 13)%nat.

(** ECMAScript [SyntaxCharacter]: the characters with a meaning of their own
    in a pattern. *)
Definition is_syntax_character (c : ascii) : bool :=
  bool_decide (c ∈ list_ascii_of_string "^$\.*+?()[]{}|").

Fixpoint forallb_string (f : ascii -> bool) (s : string) : bool :=
  match s with
  | EmptyString => true
  | String c r => f c && forallb_string f r
  end.

(** [rev s]: the code units of [s] in reverse order. *)
Fixpoint rev_append (s acc : string) : string :=
  match s with
  | EmptyString => acc
  | String c r => rev_append r (String c acc)
  end.

Definition rev (s : string) : string := rev_append s EmptyString.

(** [span f s = (a, b)]: [a] is the longest prefix of [s] whose code units
    satisfy [f], and [s = a ++ b]. *)
Fixpoint span (f : ascii -> bool) (s : string) : string * string :=
  match s with
  | EmptyString => (EmptyString, EmptyString)
  | String c r =>
      if f c then let '(a, b) := span f r in (String c a, b)
      else (EmptyString, s)
  end.

(** [s.startsWith(p)], returning the rest of [s]. *)
Fixpoint strip_prefix (p s : string) : option string :=
  match p, s with
  | EmptyString, _ => Some s
  | String a p', String b s' => if Ascii.eqb a b then strip_prefix p' s' else None
  | String _ _, EmptyString => None
  end.

(** [s.endsWith(p)], returning the part of [s] before [p]. *)
Definition strip_suffix (p s : string) : option string :=
  rev <$> strip_prefix (rev p) (rev s).

(** [s.indexOf(pat)]: the position of the first occurrence. *)
Fixpoint indexOf (pat s : string) : option nat :=
  match strip_prefix pat s with
  | Some _ => Some 0%nat
  | None =>
      match s with
      | EmptyString => None
      | String _ r => S <$> indexOf pat r
      end
  end.

Fixpoint take (n : nat) (s : string) : string :=
  match n, s with
  | O, _ => EmptyString
  | S n', String c r => String c (take n' r)
  | S _, EmptyString => EmptyString
  end.

Fixpoint drop (n : nat) (s : string) : string :=
  match n, s with
  | O, _ => s
  | S n', String _ r => drop n' r
  | S _, EmptyString => EmptyString
  end.

(** ECMAScript [GetSubstitution] for a replacement whose search value is a
    string (no captures): [$$] is a dollar sign, [$&] the matched text,
    [$`] the text before the match and [$'] the text after it; a dollar
    sign before any other code unit stands for itself. *)
Fixpoint getSubstitution (matched before after replacement : string) : string :=
  match replacement with
  | EmptyString => EmptyString
  | String c EmptyString => String c EmptyString
  | String c (String d r as tl) =>
      if Ascii.eqb c "$" then
        if Ascii.eqb d "$" then String "$" (getSubstitution matched before after r)
        else if Ascii.eqb d "&" then matched ++ getSubstitution matched before after r
        else if Ascii.eqb d "`" then before ++ getSubstitution matched before after r
        else if Ascii.eqb d "'" then after ++ getSubstitution matched before after r
        else String c (getSubstitution matched before after tl)
      else String c (getSubstitution matched before after tl)
  end.

(** [s.replace(pat, replacement)] with a string [pat]: only the first
    occurrence is replaced, and the replacement is expanded. *)
Definition replace (s pat replacement : string) : string :=
  match indexOf pat s with
  | None => s
  | Some i =>
      let before := take i s in
      let after := drop (i + String.length pat) s in
      before ++ getSubstitution pat before after replacement ++ after
  end.

(** [p.split('/').pop()] *)
Fixpoint split_pop (p : string) : string :=
  match p with
  | EmptyString => EmptyString
  | String c r =>
      match indexOf "/" r with
      | Some _ => split_pop r
      | None => if Ascii.eqb c "/" then r else p
      end
  end.

(** Numbers.  A Number is an IEEE 754 double.  The service computes with
    the doubles that are non-negative integers, with [+Infinity] and with
    the not-a-number value: [Num z] is the double whose value is the
    integer [z].  Every integer up to 2^53 is such a double; beyond, the
    doubles are the multiples of a power of two by a number of 53 bits. *)
Inductive number : Type :=
  | Num (z : Z)
  | Infinity
  | NaN.

#[global] Instance number_eq_dec : EqDecision number.
Proof. solve_decision. Defined.

(** [Number.MAX_SAFE_INTEGER], 2^53 - 1. *)
Definition MAX_SAFE_INTEGER : Z := 9007199254740991.

(** The Number for the integer [z >= 0]: the double nearest to [z], the one
    with the even significand when [z] is half way between two, and
    [+Infinity] from 2^1024 - 2^970 on. *)
Definition round_double (z : Z) : number :=
  if (z <=? MAX_SAFE_INTEGER)%Z then Num z
  else
    let e := (Z.log2 z - 52)%Z in
    let q := Z.shiftr z e in
    let r := (z - Z.shiftl q e)%Z in
    let half := Z.shiftl 1 (e - 1) in
    let q' := if (half <? r)%Z || ((half =? r)%Z && Z.odd q) then (q + 1)%Z else q in
    let v := Z.shiftl q' e in
    if (v <? 2 ^ 1024)%Z then Num v else Infinity.

(** [Math.max(a, b)] *)
Definition Math_max (a b : number) : number :=
  match a, b with
  | NaN, _ | _, NaN => NaN
  | Infinity, _ | _, Infinity => Infinity
  | Num x, Num y => Num (Z.max x y)
  end.

(** [a + 1]: the sum is rounded to a double, so that 2^53 + 1 is 2^53. *)
Definition succ (a : number) : number :=
  match a with
  | Num x => round_double (x + 1)
  | Infinity => Infinity
  | NaN => NaN
  end.

(** [parseInt(ds)] on a string of decimal digits, as captured by [(\d+)]:
    the integer the digits spell, as a Number.  (Past twenty significant
    digits the standard lets an engine approximate; V8 rounds the exact
    value, as here.) *)
Definition digit_value (c : ascii) : Z := Z.of_nat (nat_of_ascii c) - 48.

Fixpoint parseInt_acc (acc : Z) (ds : string) : Z :=
  match ds with
  | EmptyString => acc
  | String c r => parseInt_acc (10 * acc + digit_value c) r
  end.

Definition parseInt (ds : string) : number :=
  match ds with
  | EmptyString => NaN
  | _ => if forallb_string is_digit ds then round_double (parseInt_acc 0 ds) else NaN
  end.

(** The decimal numeral of the integer [z >= 0]. *)
Definition decimal (z : Z) : string := NilZero.string_of_int (Z.to_int z).

(** [Number::toString] prints the shortest decimal numeral that reads back
    as the same double, and of those the one nearest to the double.  For
    the double [z] with [d] decimal digits, [shortest fuel k d z] is that
    numeral, as an integer, looked for from [k] significant digits on:
    with [k] digits the candidates are [z] cut after [k] digits and the
    next numeral of [k] digits. *)
Fixpoint shortest (fuel : nat) (k d z : Z) : Z :=
  match fuel with
  | O => z
  | S fuel' =>
      let unit := (10 ^ (d - k))%Z in
      let c0 := (z / unit * unit)%Z in
      let c1 := (c0 + unit)%Z in
      let ok0 := bool_decide (round_double c0 = Num z) in
      let ok1 := bool_decide (round_double c1 = Num z) in
      if ok0 && ok1 then
        if (z - c0 <? c1 - z)%Z then c0
        else if (c1 - z <? z - c0)%Z then c1
        else if Z.even (z / unit) then c0 else c1
      else if ok0 then c0
      else if ok1 then c1
      else shortest fuel' (k + 1) d z
  end.

(** A numeral without the zeros at its end. *)
Definition strip_zeros (s : string) : string :=
  rev (span (Ascii.eqb "0") (rev s)).2.

(** The numeral [c], of more than 21 digits, in exponent form:
    [1e+21], [1.1805916207174113e+21]. *)
Definition exponent_form (c : Z) : string :=
  let digits := decimal c in
  let exponent := decimal (Z.of_nat (String.length digits) - 1) in
  match strip_zeros digits with
  | String first EmptyString => String first ("e+" ++ exponent)
  | String first rest => String first ("." ++ rest ++ "e+" ++ exponent)
  | EmptyString => digits
  end.

(** [`${n}`], that is [Number::toString(n)] in radix 10. *)
Definition toString (n : number) : string :=
  match n with
  | Num z =>
      if (z <=? MAX_SAFE_INTEGER)%Z then decimal z
      else
        let d := Z.of_nat (String.length (decimal z)) in
        let c := shortest (Z.to_nat d) 1 d z in
        if (c <? 10 ^ 21)%Z then decimal c else exponent_form c
  | Infinity => "Infinity"
  | NaN => "NaN"
  end.

(** [baseName.match(/(.+)C(\d+)$/)], returning the two captures.  The
    digits are the trailing run of digits of [baseName]; the code unit before
    them has to be [C]; the first capture is the longest run of code units
    other than line terminators that ends before that [C], and it is not
    empty.  (The pattern is not anchored on the left, so a line terminator
    further left only shortens the first capture.) *)
Definition match_versioned (baseName : string) : option (string * string) :=
  let '(ds, rest) := span is_digit (rev baseName) in
  match ds, rest with
  | String _ _, String c before =>
      if Ascii.eqb c "C" then
        match span (fun a => negb (is_line_terminator a)) before with
        | (String _ _ as p, _) => Some (rev p, rev ds)
        | (EmptyString, _) => None
        end
      else None
  | _, _ => None
  end.

(** [new RegExp(`^${p}C(\\d+)\\.canvas$`)] when [p] has no syntax character:
    the pattern then matches exactly the names [p ++ "C" ++ ds ++ ".canvas"]
    with [ds] a non-empty string of digits, and the first capture is [ds].
    The result is [parseInt(vMatch[1])] for a name that matches. *)
Definition regex_plain (p : string) : bool :=
  forallb_string (fun c => negb (is_syntax_character c)) p.

Definition versionPattern_literal (p fileName : string) : option number :=
  match strip_prefix (p ++ "C") fileName with
  | Some rest =>
      match strip_suffix ".canvas" rest with
      | Some ds =>
          match ds with
          | EmptyString => None
          | _ => if forallb_string is_digit ds then Some (parseInt ds) else None
          end
      | None => None
      end
  | None => None
  end.

(** The source text of the version pattern. *)
Definition versionPattern_source (p : string) : string :=
  "^" ++ p ++ "C(\d+)\.canvas$".

End Js.

Local Open Scope list_scope.

(* ===================================================================== *)
(** * types.ts *)
(* ===================================================================== *)

Inductive CanvasNodeType : Type :=
  | Text
  | File
  | Link
  | Group.

#[global] Instance CanvasNodeType_eq_dec : EqDecision CanvasNodeType.
Proof. solve_decision. Defined.

(** [CanvasNodeData]; an optional property that is absent is [None]. *)
Record CanvasNodeData : Type := mkNode {
  node_id : string;
  node_type : CanvasNodeType;
  node_text : option string;
  node_file : option string;
  node_url : option string;
  node_subtype : option string;
  node_width : option Z;
  node_height : option Z;
  node_x : Z;
  node_y : Z
}.

#[global] Instance CanvasNodeData_eq_dec : EqDecision CanvasNodeData.
Proof. solve_decision. Defined.

(** An element of [edges: any[]].  The service reads [fromNode] and
    [toNode]; the other properties of an edge are carried along. *)
Record CanvasEdge : Type := mkEdge {
  edge_id : string;
  fromNode : string;
  toNode : string;
  edge_label : option string
}.

#[global] Instance CanvasEdge_eq_dec : EqDecision CanvasEdge.
Proof. solve_decision. Defined.

Record CanvasData : Type := mkCanvas {
  nodes : gmap string CanvasNodeData;
  edges : list CanvasEdge
}.

#[global] Instance CanvasData_eq_dec : EqDecision CanvasData.
Proof. solve_decision. Defined.

(** [CanvasGroup] *)
Record CanvasGroup : Type := mkGroup {
  files : list string;
  lastSync : Z
}.

#[global] Instance CanvasGroup_eq_dec : EqDecision CanvasGroup.
Proof. solve_decision. Defined.

(** [Operation]: [type] and [data] together, as the listener builds them. *)
Inductive OperationData : Type :=
  | CreateNode (nodeData : CanvasNodeData)
  | DeleteNode (nodeId : string)
  | UpdateNodeText (nodeId : string) (newText : string).

Record Operation : Type := mkOperation {
  op_data : OperationData;
  sourceFile : string
}.

#[global] Instance OperationData_eq_dec : EqDecision OperationData.
Proof. solve_decision. Defined.

#[global] Instance Operation_eq_dec : EqDecision Operation.
Proof. solve_decision. Defined.

(* ===================================================================== *)
(** * The host: vault, clock and runtime, and the monad of the service *)
(* ===================================================================== *)

(** The text of a file, kept by what [JSON.parse] makes of it:
    - [Canvas d], a text that parses to the [CanvasData] value [d];
    - [NoNodes raw], a text that parses to a value in which [nodes] is
      [undefined] or [null]: [{}] and any object without [nodes] or with
      [nodes: null], an array, a string, a number, a boolean;
    - [Malformed raw], a text on which [JSON.parse] throws.
    (A text whose value is [null], on which [canvasData.nodes] throws as
    well, counts with [NoNodes].  A text whose value has some other [nodes]
    and is not a [CanvasData] is outside the declared type of [canvasData]
    and is not modelled: what the handlers make of it depends on the value
    and on the operation.) *)
Inductive Content : Type :=
  | Canvas (d : CanvasData)
  | NoNodes (raw : string)
  | Malformed (raw : string).

#[global] Instance Content_eq_dec : EqDecision Content.
Proof. solve_decision. Defined.

(** What [getAbstractFileByPath] can return. *)
Inductive TAbstractFile : Type :=
  | TFile (content : Content)
  | TFolder.

#[global] Instance TAbstractFile_eq_dec : EqDecision TAbstractFile.
Proof. solve_decision. Defined.

Inductive IoCall : Type :=
  | IoRead
  | IoCreate
  | IoModify.

(** What a [catch] clause can receive. *)
Inductive Error : Type :=
  | NotFound
  | AlreadyExists
  | ParseFailure
  | IOFailure
  | SyntaxError
  | TypeError.

(** The state the service runs in.
    - [vault]: the files and folders by path;
    - [io_fault c p]: the call [c] on path [p] is rejected by the storage
      layer (for a reason other than the path being absent or taken);
    - [js_RegExp src]: the ECMAScript engine on a pattern source the model
      does not interpret itself: [None] when [new RegExp(src)] throws, and
      otherwise, for each name, [None] when the name does not match and
      [Some v] when it does and [parseInt(vMatch[1])] is [v];
    - [clock]: what [Date.now()] returns;
    - [written]: the [create] and [modify] calls that completed, latest
      first;
    - the three fields of [CanvasSyncService]. *)
Record State : Type := mkState {
  vault : gmap string TAbstractFile;
  io_fault : IoCall -> string -> bool;
  js_RegExp : string -> option (string -> option Js.number);
  clock : Z;
  written : list (string * Content);
  canvasGroups : list CanvasGroup;
  processingOperations : bool;
  operationQueue : list Operation
}.

Definition set_vault (f : gmap string TAbstractFile -> gmap string TAbstractFile)
    (st : State) : State :=
  mkState (f (vault st)) (io_fault st) (js_RegExp st) (clock st) (written st)
          (canvasGroups st) (processingOperations st) (operationQueue st).

Definition set_written (f : list (string * Content) -> list (string * Content))
    (st : State) : State :=
  mkState (vault st) (io_fault st) (js_RegExp st) (clock st) (f (written st))
          (canvasGroups st) (processingOperations st) (operationQueue st).

Definition set_canvasGroups (f : list CanvasGroup -> list CanvasGroup)
    (st : State) : State :=
  mkState (vault st) (io_fault st) (js_RegExp st) (clock st) (written st)
          (f (canvasGroups st)) (processingOperations st) (operationQueue st).

Definition set_processingOperations (b : bool) (st : State) : State :=
  mkState (vault st) (io_fault st) (js_RegExp st) (clock st) (written st)
          (canvasGroups st) b (operationQueue st).

Definition set_operationQueue (f : list Operation -> list Operation)
    (st : State) : State :=
  mkState (vault st) (io_fault st) (js_RegExp st) (clock st) (written st)
          (canvasGroups st) (processingOperations st) (f (operationQueue st)).

Definition set_clock (t : Z) (st : State) : State :=
  mkState (vault st) (io_fault st) (js_RegExp st) t (written st)
          (canvasGroups st) (processingOperations st) (operationQueue st).

(** ** The monad: state, exceptions, and fuel for [while] *)

Inductive Result (A : Type) : Type :=
  | Ok (a : A)
  | Throw (e : Error)
  | OutOfFuel.

Arguments Ok {A} a.
Arguments Throw {A} e.
Arguments OutOfFuel {A}.

Definition M (A : Type) : Type := State -> Result A * State.

#[global] Instance M_ret : MRet M := fun A a st => (Ok a, st).

#[global] Instance M_bind : MBind M := fun A B k m st =>
  match m st with
  | (Ok a, st') => k a st'
  | (Throw e, st') => (Throw e, st')
  | (OutOfFuel, st') => (OutOfFuel, st')
  end.

Definition throw {A} (e : Error) : M A := fun st => (Throw e, st).

Definition get : M State := fun st => (Ok st, st).

Definition modify (f : State -> State) : M unit := fun st => (Ok tt, f st).

(** [try { body } catch (error) { handler }] *)
Definition try_catch {A} (body : M A) (handler : Error -> M A) : M A := fun st =>
  match body st with
  | (Throw e, st') => handler e st'
  | r => r
  end.

(** [try { body } finally { fin }] *)
Definition try_finally {A} (body : M A) (fin : M unit) : M A := fun st =>
  match body st with
  | (OutOfFuel, st') => (OutOfFuel, st')
  | (r, st') =>
      match fin st' with
      | (Ok _, st'') => (r, st'')
      | (Throw e, st'') => (Throw e, st'')
      | (OutOfFuel, st'') => (OutOfFuel, st'')
      end
  end.

(** [for (const x of l) { body }] *)
Fixpoint for_of {A} (l : list A) (body : A -> M unit) : M unit :=
  match l with
  | [] => mret tt
  | x :: l' => body x ≫= fun _ => for_of l' body
  end.

(** [while (cond) { body }]; [body] returns [false] to leave the enclosing
    function ([return] inside the loop). *)
Fixpoint while (fuel : nat) (cond : State -> bool) (body : M bool) : M unit :=
  fun st =>
    if cond st then
      match fuel with
      | O => (OutOfFuel, st)
      | S fuel' =>
          (body ≫= fun continue => if continue : bool then while fuel' cond body else mret tt) st
      end
    else (Ok tt, st).

(** ** The vault *)

(** [Date.now()] *)
Definition Date_now : M Z := fun st => (Ok (clock st), st).

(** [this.app.vault.getAbstractFileByPath(path)] *)
Definition getAbstractFileByPath (path : string) : M (option TAbstractFile) :=
  fun st => (Ok (vault st !! path), st).

(** [this.app.vault.read(file)], [file] being the [TFile] at [path]. *)
Definition vault_read (path : string) : M Content := fun st =>
  match vault st !! path with
  | Some (TFile content) =>
      if io_fault st IoRead path then (Throw IOFailure, st) else (Ok content, st)
  | _ => (Throw NotFound, st)
  end.

(** A completed write: the file at [path] now holds [data]. *)
Definition store (path : string) (data : Content) (st : State) : State :=
  set_written (cons (path, data)) (set_vault (insert path (TFile data)) st).

(** [this.app.vault.create(path, data)] *)
Definition vault_create (path : string) (data : Content) : M unit := fun st =>
  match vault st !! path with
  | Some _ => (Throw AlreadyExists, st)
  | None =>
      if io_fault st IoCreate path then (Throw IOFailure, st)
      else (Ok tt, store path data st)
  end.

(** [this.app.vault.modify(file, data)], [file] being the [TFile] at [path]. *)
Definition vault_modify (path : string) (data : Content) : M unit := fun st =>
  match vault st !! path with
  | Some (TFile _) =>
      if io_fault st IoModify path then (Throw IOFailure, st)
      else (Ok tt, store path data st)
  | _ => (Throw NotFound, st)
  end.

(** What [JSON.parse] returns: a [CanvasData], or a value in which [nodes]
    is [undefined] or [null]. *)
Inductive JsonValue : Type :=
  | Document (canvasData : CanvasData)
  | Bare (raw : string).

(** [JSON.parse(content)] *)
Definition JSON_parse (content : Content) : M JsonValue :=
  match content with
  | Canvas d => mret (Document d)
  | NoNodes raw => mret (Bare raw)
  | Malformed _ => throw ParseFailure
  end.

(** [JSON.stringify(canvasData, null, 2)] *)
Definition JSON_stringify (canvasData : CanvasData) : Content := Canvas canvasData.

(* ===================================================================== *)
(** * canvasSyncService.ts *)
(* ===================================================================== *)

(** [findGroupForFile]: the first group whose [files] include [filePath].
    The service gets a reference to the group object; here it is the
    position of the group in [canvasGroups] together with its value. *)
Definition findGroupForFile (filePath : string) : M (option (nat * CanvasGroup)) :=
  fun st => (Ok (list_find (fun group => filePath ∈ files group) (canvasGroups st)), st).

(** [updateCanvasGroup] *)
Definition updateCanvasGroup (sourceFilePath newFilePath : string) : M unit :=
  group ← findGroupForFile sourceFilePath;
  match group with
  | Some (i, g) =>
      if bool_decide (newFilePath ∈ files g) then mret tt
      else
        now ← Date_now;
        modify (set_canvasGroups (<[i := mkGroup (files g ++ [newFilePath]) now]>))
  | None =>
      now ← Date_now;
      modify (set_canvasGroups (fun groups =>
                groups ++ [mkGroup [sourceFilePath; newFilePath] now]))
  end.

(** [new RegExp(`^${baseNameWithoutNumber}C(\\d+)\\.canvas$`)].  The prefix
    is spliced into the pattern as it is.  Without a syntax character in it
    the pattern is [Js.versionPattern_literal]; with one, the pattern is
    whatever the engine makes of the source text. *)
Definition new_versionPattern (baseNameWithoutNumber : string)
    : M (string -> option Js.number) :=
  if Js.regex_plain baseNameWithoutNumber
  then mret (Js.versionPattern_literal baseNameWithoutNumber)
  else
    st ← get;
    match js_RegExp st (Js.versionPattern_source baseNameWithoutNumber) with
    | Some re => mret re
    | None => throw SyntaxError
    end.

(** The loop over [group.files] that raises [maxVersion]. *)
Definition scanVersions (versionPattern : string -> option Js.number)
    (groupFiles : list string) (version : Js.number) : Js.number :=
  fold_left (fun maxVersion filePath =>
               let fileName := Js.split_pop filePath in
               match versionPattern fileName with
               | Some fileVersion => Js.Math_max maxVersion fileVersion
               | None => maxVersion
               end)
            groupFiles version.

(** [createNewCanvasView]; [None] is [null].  [sourceFile.path] is
    [sourceFilePath] and [sourceFile.name] its last component.  The notices
    and the console output are not part of the state. *)
Definition createNewCanvasView (sourceFilePath : string) : M (option string) :=
  try_catch
    (sourceFile ← getAbstractFileByPath sourceFilePath;
     match sourceFile with
     | Some (TFile _) =>
         let sourceFile_name := Js.split_pop sourceFilePath in
         sourceContent ← vault_read sourceFilePath;
         _ ← JSON_parse sourceContent;
         let baseName := Js.replace sourceFile_name ".canvas" EmptyString in
         match Js.match_versioned baseName with
         | Some (baseNameWithoutNumber, digits) =>
             let version := Js.parseInt digits in
             group ← findGroupForFile sourceFilePath;
             version ← match group with
                        | Some (_, g) =>
                            versionPattern ← new_versionPattern baseNameWithoutNumber;
                            mret (Js.succ (scanVersions versionPattern (files g) version))
                        | None => mret (Js.succ version)
                        end;
             let newFileName :=
               baseNameWithoutNumber +:+ "C" +:+ Js.toString version +:+ ".canvas" in
             let newFilePath := Js.replace sourceFilePath sourceFile_name newFileName in
             vault_create newFilePath sourceContent;;
             updateCanvasGroup sourceFilePath newFilePath;;
             mret (Some newFilePath)
         | None =>
             let newFileName := baseName +:+ "C1.canvas" in
             let newFilePath := Js.replace sourceFilePath sourceFile_name newFileName in
             vault_create newFilePath sourceContent;;
             updateCanvasGroup sourceFilePath newFilePath;;
             mret (Some newFilePath)
         end
     | _ => mret None
     end)
    (fun error => mret None).

(** [handleCreateNode]: [canvasData.nodes[nodeData.id] = nodeData].  On a
    plain object the key [__proto__], when it is not an own property, is
    the accessor of [Object.prototype]: the assignment then sets the
    prototype and adds no property. *)
Definition handleCreateNode (canvasData : CanvasData) (nodeData : CanvasNodeData)
    : CanvasData :=
  if bool_decide (node_id nodeData = "__proto__" ∧ nodes canvasData !! node_id nodeData = None)
  then canvasData
  else mkCanvas (<[node_id nodeData := nodeData]> (nodes canvasData)) (edges canvasData).

(** [handleDeleteNode] *)
Definition handleDeleteNode (canvasData : CanvasData) (nodeId : string) : CanvasData :=
  mkCanvas (delete nodeId (nodes canvasData))
           (filter (fun edge => fromNode edge ≠ nodeId ∧ toNode edge ≠ nodeId)
                   (edges canvasData)).

(** [handleUpdateNodeText].  A node of the document is an object, hence
    truthy.  (For a [nodeId] that only names a property inherited from
    [Object.prototype] the assignment lands on that inherited object and
    the document keeps its own properties.) *)
Definition handleUpdateNodeText (canvasData : CanvasData) (nodeId newText : string)
    : CanvasData :=
  match nodes canvasData !! nodeId with
  | Some node =>
      mkCanvas (<[nodeId := mkNode (node_id node) (node_type node) (Some newText)
                              (node_file node) (node_url node) (node_subtype node)
                              (node_width node) (node_height node)
                              (node_x node) (node_y node)]> (nodes canvasData))
               (edges canvasData)
  | None => canvasData
  end.

(** The [switch (operation.type)] of [executeOperation], on a
    [CanvasData]. *)
Definition applyOperation (canvasData : CanvasData) (data : OperationData) : CanvasData :=
  match data with
  | CreateNode nodeData => handleCreateNode canvasData nodeData
  | DeleteNode nodeId => handleDeleteNode canvasData nodeId
  | UpdateNodeText nodeId newText => handleUpdateNodeText canvasData nodeId newText
  end.

(** The [switch (operation.type)] on what [JSON.parse] returned.  Each
    handler begins with an access to a property of [canvasData.nodes]
    ([canvasData.nodes[nodeData.id] = ...], [delete canvasData.nodes[nodeId]],
    [canvasData.nodes[nodeId]]), which throws a [TypeError] when
    [canvasData.nodes] is [undefined] or [null]. *)
Definition switch_operation (value : JsonValue) (data : OperationData) : M CanvasData :=
  match value with
  | Document canvasData => mret (applyOperation canvasData data)
  | Bare _ => throw TypeError
  end.

(** The body of the [for] loop of [executeOperation]. *)
Definition syncTarget (operation : Operation) (filePath : string) : M unit :=
  if bool_decide (filePath = sourceFile operation) then mret tt
  else
    targetFile ← getAbstractFileByPath filePath;
    match targetFile with
    | Some (TFile _) =>
        try_catch
          (content ← vault_read filePath;
           value ← JSON_parse content;
           canvasData ← switch_operation value (op_data operation);
           vault_modify filePath (JSON_stringify canvasData))
          (fun error => mret tt)
    | _ => mret tt
    end.

(** [executeOperation] *)
Definition executeOperation (operation : Operation) : M unit :=
  group ← findGroupForFile (sourceFile operation);
  match group with
  | None => mret tt
  | Some (i, g) =>
      now ← Date_now;
      modify (set_canvasGroups (<[i := mkGroup (files g) now]>));;
      for_of (files g) (syncTarget operation)
  end.

(** [processOperation]; [fuel] bounds the iterations of the [while]. *)
Definition processOperation (fuel : nat) (operation : Operation) : M unit :=
  modify (set_operationQueue (fun queue => queue ++ [operation]));;
  st ← get;
  if processingOperations st then mret tt
  else
    modify (set_processingOperations true);;
    try_finally
      (try_catch
         (while fuel (fun st => bool_decide (operationQueue st ≠ []))
            (st ← get;
             match operationQueue st with
             | [] => mret false
             | op :: rest =>
                 modify (set_operationQueue (fun _ => rest));;
                 executeOperation op;;
                 mret true
             end))
         (fun error => mret tt))
      (modify (set_processingOperations false)).

(* ===================================================================== *)
(** * The engine at its [await] points *)
(* ===================================================================== *)

(** [processOperation] is an [async] method: a call runs until it returns or
    reaches an [await], and other callers run in between.  A configuration
    holds the state of the service and the activations of the drain loop
    that are suspended.  The numbering of the submissions and the trace are
    ghost state: no step reads them to decide what to do.

    The steps are finer than the code in one place and coarser in another.
    A caller that finds the flag down only raises it and leaves the new
    activation at the head of the loop, where the code goes on to the first
    [await] at once: the model has every run of the code and more.  The body
    of the [for] loop is one step, where the code has an [await] on
    [vault.read] and one on [vault.modify]: a submission that arrives in
    between appends to the queue, which the body does not read
    ([EngineFacts.submit_commutes_with_target]).  The callers are the
    submissions; [createNewCanvasView] and the settings tab are not
    interleaved here, so the membership of the groups is fixed. *)
Module Engine.

(** Where an activation of the drain loop is suspended. *)
Inductive Pc : Type :=
  | AtHead
      (* about to test [this.operationQueue.length > 0] *)
  | InOperation (tag : nat) (operation : Operation) (remaining : list string).
      (* in the [for] loop of [executeOperation], [remaining] still to visit *)

Inductive Event : Type :=
  | EvBegin (tag : nat)                   (* taken off the queue *)
  | EvWrite (tag : nat) (path : string)   (* [vault.modify] completed *)
  | EvEnd (tag : nat).                    (* [executeOperation] returned *)

#[global] Instance Event_eq_dec : EqDecision Event.
Proof. solve_decision. Defined.

Record Config : Type := mkConfig {
  st : State;
  loops : list Pc;       (* the activations past the test of the flag *)
  tags : list nat;       (* submission numbers of the queued operations *)
  submitted : nat;       (* number of submissions so far *)
  trace : list Event     (* oldest first *)
}.

Inductive Action : Type :=
  | Submit (operation : Operation)   (* a caller enters [processOperation] *)
  | Resume (k : nat)                 (* the activation [k] runs to its next [await] *)
  | Tick (t : Z).                    (* the clock moves *)

(** The part of [executeOperation] before the [for] loop. *)
Definition beginOperation (operation : Operation) : M (option (list string)) :=
  group ← findGroupForFile (sourceFile operation);
  match group with
  | None => mret None
  | Some (i, g) =>
      now ← Date_now;
      modify (set_canvasGroups (<[i := mkGroup (files g) now]>));;
      mret (Some (files g))
  end.

(** The paths written between two states, oldest first. *)
Definition new_writes (before after : State) : list string :=
  reverse ((take (length (written after) - length (written before)) (written after)).*1).

(** An activation leaves [processOperation]: the [finally] clause. *)
Definition retire (k : nat) (c : Config) : Config :=
  mkConfig (set_processingOperations false (st c)) (delete k (loops c))
           (tags c) (submitted c) (trace c).

Definition step (c : Config) (a : Action) : option Config :=
  match a with
  | Submit operation =>
      let st1 := set_operationQueue (fun queue => queue ++ [operation]) (st c) in
      let tags1 := tags c ++ [submitted c] in
      if processingOperations st1
      then Some (mkConfig st1 (loops c) tags1 (S (submitted c)) (trace c))
      else Some (mkConfig (set_processingOperations true st1) (AtHead :: loops c)
                          tags1 (S (submitted c)) (trace c))
  | Resume k =>
      pc ← loops c !! k;
      match pc with
      | AtHead =>
          match operationQueue (st c) with
          | [] => Some (retire k c)
          | operation :: rest =>
              let tag := hd 0%nat (tags c) in
              let st1 := set_operationQueue (fun _ => rest) (st c) in
              match beginOperation operation st1 with
              | (Ok None, st2) =>
                  Some (mkConfig st2 (loops c) (tl (tags c)) (submitted c)
                                 (trace c ++ [EvBegin tag; EvEnd tag]))
              | (Ok (Some targets), st2) =>
                  Some (mkConfig st2 (<[k := InOperation tag operation targets]> (loops c))
                                 (tl (tags c)) (submitted c)
                                 (trace c ++ [EvBegin tag]))
              | (_, st2) =>
                  Some (retire k (mkConfig st2 (loops c) (tl (tags c)) (submitted c)
                                           (trace c ++ [EvBegin tag])))
              end
          end
      | InOperation tag operation [] =>
          Some (mkConfig (st c) (<[k := AtHead]> (loops c)) (tags c) (submitted c)
                         (trace c ++ [EvEnd tag]))
      | InOperation tag operation (filePath :: remaining) =>
          match syncTarget operation filePath (st c) with
          | (Ok _, st2) =>
              Some (mkConfig st2 (<[k := InOperation tag operation remaining]> (loops c))
                             (tags c) (submitted c)
                             (trace c ++ (EvWrite tag <$> new_writes (st c) st2)))
          | (_, st2) =>
              Some (retire k (mkConfig st2 (loops c) (tags c) (submitted c)
                                       (trace c ++ (EvWrite tag <$> new_writes (st c) st2))))
          end
      end
  | Tick t => Some (mkConfig (set_clock t (st c)) (loops c) (tags c) (submitted c) (trace c))
  end.

(** A service as the plugin constructs it, with nothing submitted yet. *)
Definition initial (c : Config) : Prop :=
  processingOperations (st c) = false ∧ operationQueue (st c) = [] ∧
  loops c = [] ∧ tags c = [] ∧ submitted c = 0%nat ∧ trace c = [].

Inductive reachable : Config -> Prop :=
  | reachable_initial c : initial c -> reachable c
  | reachable_step c a c' : reachable c -> step c a = Some c' -> reachable c'.

(** A schedule: the actions in the order they happen. *)
Fixpoint run (c : Config) (schedule : list Action) : option Config :=
  match schedule with
  | [] => Some c
  | a :: schedule' => step c a ≫= fun c' => run c' schedule'
  end.

(** Reading a trace: [(n, cur)] says that the operations before [n] have
    been taken off the queue and that [cur], if any, is the one in
    progress.  A trace is sequential when it is a succession of blocks
    [EvBegin i; EvWrite i ..; EvEnd i] for [i = 0, 1, 2, ...], the last of
    which may be unfinished. *)
Definition read_event (s : option (nat * option nat)) (e : Event)
    : option (nat * option nat) :=
  match s, e with
  | Some (n, None), EvBegin t => if bool_decide (t = n) then Some (S n, Some t) else None
  | Some (n, Some cur), EvWrite t _ => if bool_decide (t = cur) then s else None
  | Some (n, Some cur), EvEnd t => if bool_decide (t = cur) then Some (n, None) else None
  | _, _ => None
  end.

Definition read_trace (tr : list Event) : option (nat * option nat) :=
  fold_left read_event tr (Some (0%nat, None)).

Definition sequential (tr : list Event) : Prop := is_Some (read_trace tr).

(** A reading is well formed when the operation in progress, if any, is
    the last one taken off the queue. *)
Definition wf_reading (s : nat * option nat) : Prop :=
  match s.2 with
  | Some cur => s.1 = S cur
  | None => True
  end.

(** Every operation taken off the queue and no longer in progress has
    returned. *)
Definition ended_below (tr : list Event) (s : nat * option nat) : Prop :=
  ∀ i, (i < s.1)%nat -> s.2 ≠ Some i -> EvEnd i ∈ tr.

(** Once operation [cur] is in progress, no later write belongs to an
    earlier operation. *)
Definition floor (s : nat * option nat) : nat :=
  match s.2 with
  | Some cur => cur
  | None => s.1
  end.

(** The operations taken off the queue, in the order of the trace. *)
Definition begun (tr : list Event) : list nat :=
  omap (fun e => match e with EvBegin t => Some t | _ => None end) tr.

(** The trace reads as a succession of whole blocks; the queue holds the
    operations numbered from the next block on, in order; and either no
    activation exists, the flag is down and the queue is empty, or exactly
    one activation exists and the flag is up. *)
Definition inv (c : Config) : Prop :=
  ∃ s, read_trace (trace c) = Some s ∧
    tags c = seq s.1 (length (operationQueue (st c))) ∧
    submitted c = (s.1 + length (operationQueue (st c)))%nat ∧
    match loops c with
    | [] => processingOperations (st c) = false ∧ operationQueue (st c) = [] ∧ s.2 = None
    | [AtHead] => processingOperations (st c) = true ∧ s.2 = None
    | [InOperation tag _ _] => processingOperations (st c) = true ∧ s.2 = Some tag
    | _ => False
    end.

(** The number of resumptions an operation takes: one when its source is in
    no group; otherwise one to start, one for each file of the group, and
    one to return. *)
Definition cost (groups : list CanvasGroup) (operation : Operation) : nat :=
  match list_find (fun group => sourceFile operation ∈ files group) groups with
  | Some (_, g) => 2 + length (files g)
  | None => 1
  end.

Definition queue_cost (groups : list CanvasGroup) (queue : list Operation) : nat :=
  foldr (fun operation n => cost groups operation + n)%nat 0%nat queue.

(** The number of resumptions until the activation retires. *)
Definition measure (c : Config) : nat :=
  match loops c with
  | AtHead :: _ => 1 + queue_cost (canvasGroups (st c)) (operationQueue (st c))
  | InOperation _ _ remaining :: _ =>
      length remaining + 2 + queue_cost (canvasGroups (st c)) (operationQueue (st c))
  | [] => 0
  end.

(** [n] resumptions of the activation. *)
Fixpoint resume_n (n : nat) (c : Config) : option Config :=
  match n with
  | O => Some c
  | S n' => step c (Resume 0) ≫= resume_n n'
  end.

End Engine.

(* ===================================================================== *)
(** * The vocabulary of the properties *)
(* ===================================================================== *)

(** The edges that [handleDeleteNode] is to remove. *)
Definition references (nodeId : string) (edge : CanvasEdge) : Prop :=
  fromNode edge = nodeId ∨ toNode edge = nodeId.

#[global] Instance references_dec nodeId edge : Decision (references nodeId edge).
Proof. unfold references. apply _. Defined.

(** The document the loop body can load from a target, if any: the path
    resolves to a file, the read is not rejected and the text parses. *)
Definition loadable (st : State) (filePath : string) : option CanvasData :=
  match vault st !! filePath with
  | Some (TFile (Canvas d)) => if io_fault st IoRead filePath then None else Some d
  | _ => None
  end.

(** A target fails when it cannot be loaded or its write is rejected. *)
Definition target_fails (st : State) (filePath : string) : Prop :=
  loadable st filePath = None ∨ io_fault st IoModify filePath = true.

(** The state after the loop body. *)
Definition syncTarget_state (operation : Operation) (filePath : string) (st : State)
    : State :=
  if bool_decide (filePath = sourceFile operation) then st
  else match loadable st filePath with
       | Some d =>
           if io_fault st IoModify filePath then st
           else store filePath (Canvas (applyOperation d (op_data operation))) st
       | None => st
       end.

(** The [for] loop of [executeOperation]. *)
Definition syncTargets_state (operation : Operation) (targets : list string)
    (st : State) : State :=
  fold_left (fun s filePath => syncTarget_state operation filePath s) targets st.

(** [executeOperation] in one step. *)
Definition executeOperation_state (operation : Operation) (st : State) : State :=
  match list_find (fun group => sourceFile operation ∈ files group) (canvasGroups st) with
  | None => st
  | Some (i, g) =>
      syncTargets_state operation (files g)
        (set_canvasGroups (<[i := mkGroup (files g) (clock st)]>) st)
  end.

(** The engine's own fields play no part in the propagation. *)
Definition with_engine (b : bool) (queue : list Operation) (st : State) : State :=
  mkState (vault st) (io_fault st) (js_RegExp st) (clock st) (written st)
          (canvasGroups st) b queue.

(** The [while] loop of [processOperation]: the queued operations are
    executed one after the other, first in first out. *)
Fixpoint drain (queue : list Operation) (st : State) : State :=
  match queue with
  | [] => st
  | op :: rest =>
      drain rest (executeOperation_state op (set_operationQueue (fun _ => rest) st))
  end.

Definition queue_not_empty (st : State) : bool := bool_decide (operationQueue st ≠ []).

(** One iteration of the [while] loop. *)
Definition drain_body : M bool :=
  st ← get;
  match operationQueue st with
  | [] => mret false
  | op :: rest =>
      modify (set_operationQueue (fun _ => rest));;
      executeOperation op;;
      mret true
  end.

(** No dollar sign in a replacement text: nothing for [GetSubstitution] to
    expand. *)
Definition no_dollar (s : string) : bool :=
  Js.forallb_string (fun c => negb (Ascii.eqb c "$")) s.

(** A version number that is exact and leaves room for the next one: a
    natural number below [Number.MAX_SAFE_INTEGER]. *)
Definition safe_version (v : Js.number) : Prop :=
  ∃ z, v = Js.Num z ∧ (0 <= z < Js.MAX_SAFE_INTEGER)%Z.

(** The members of a group named [prefix C digits .canvas] bear safe
    version numbers. *)
Definition safe_versions (prefix : string) (groupFiles : list string) : Prop :=
  ∀ p v, p ∈ groupFiles ->
         Js.versionPattern_literal prefix (Js.split_pop p) = Some v -> safe_version v.

(** The content [createNewCanvasView] gets from its source: the path
    resolves to a file, the read is not rejected, and the text parses, to a
    canvas document or not. *)
Definition readable_source (st : State) (sourceFilePath : string) : option Content :=
  match vault st !! sourceFilePath with
  | Some (TFile (Malformed _)) => None
  | Some (TFile content) =>
      if io_fault st IoRead sourceFilePath then None else Some content
  | _ => None
  end.

(** The version number of the new view, for a source named
    [prefix C digits]; [None] when the version pattern is rejected. *)
Definition nextVersion (st : State) (sourceFilePath prefix digits : string)
    : option Js.number :=
  match list_find (fun group => sourceFilePath ∈ files group) (canvasGroups st) with
  | Some (_, g) =>
      if Js.regex_plain prefix
      then Some (Js.succ (scanVersions (Js.versionPattern_literal prefix) (files g)
                                       (Js.parseInt digits)))
      else match js_RegExp st (Js.versionPattern_source prefix) with
           | Some re => Some (Js.succ (scanVersions re (files g) (Js.parseInt digits)))
           | None => None
           end
  | None => Some (Js.succ (Js.parseInt digits))
  end.

(** The name and the path of the new view. *)
Definition newFileNameFor (st : State) (sourceFilePath : string) : option string :=
  let baseName := Js.replace (Js.split_pop sourceFilePath) ".canvas" EmptyString in
  match Js.match_versioned baseName with
  | Some (prefix, digits) =>
      version ← nextVersion st sourceFilePath prefix digits;
      Some (prefix +:+ "C" +:+ Js.toString version +:+ ".canvas")
  | None => Some (baseName +:+ "C1.canvas")
  end.

Definition newFilePathFor (st : State) (sourceFilePath : string) : option string :=
  Js.replace sourceFilePath (Js.split_pop sourceFilePath) <$> newFileNameFor st sourceFilePath.

(** The state after [updateCanvasGroup]. *)
Definition updateCanvasGroup_state (sourceFilePath newFilePath : string) (st : State)
    : State :=
  match list_find (fun group => sourceFilePath ∈ files group) (canvasGroups st) with
  | Some (i, g) =>
      if bool_decide (newFilePath ∈ files g) then st
      else set_canvasGroups (<[i := mkGroup (files g ++ [newFilePath]) (clock st)]>) st
  | None =>
      set_canvasGroups (fun groups =>
        groups ++ [mkGroup [sourceFilePath; newFilePath] (clock st)]) st
  end.

(* ===================================================================== *)
(** * Scenarios *)
(* ===================================================================== *)

Definition note (id text : string) : CanvasNodeData :=
  mkNode id Text (Some text) None None None (Some 250%Z) (Some 60%Z) 0%Z 0%Z.

(** A canvas with one text node and one edge. *)
Definition board : Content :=
  Canvas (mkCanvas {[ "n1" := note "n1" "old" ]} [mkEdge "e1" "n1" "n2" None]).

(** A canvas with three nodes and an edge between each two. *)
Definition canvas_triangle : CanvasData :=
  mkCanvas {[ "n1" := note "n1" "a"; "n2" := note "n2" "b"; "n3" := note "n3" "c" ]}
           [mkEdge "e1" "n1" "n2" None; mkEdge "e2" "n2" "n3" None;
            mkEdge "e3" "n3" "n1" None].

(** A storage layer that rejects nothing. *)
Definition quiet : IoCall -> string -> bool := fun _ _ => false.

(** An engine that is never asked: every pattern source is rejected. *)
Definition no_RegExp : string -> option (string -> option Js.number) := fun _ => None.

(** The group of the design document: [A.canvas], [AC1.canvas] and
    [AC3.canvas], all three in the vault. *)
Definition st_scenario : State :=
  mkState {[ "A.canvas" := TFile board; "AC1.canvas" := TFile board;
             "AC3.canvas" := TFile board ]}
          quiet no_RegExp 200 []
          [mkGroup ["A.canvas"; "AC1.canvas"; "AC3.canvas"] 100] false [].

(** The same group with a member that does not parse. *)
Definition st_malformed : State :=
  mkState {[ "A.canvas" := TFile board; "AC1.canvas" := TFile (Malformed "oops");
             "AC3.canvas" := TFile board ]}
          quiet no_RegExp 200 []
          [mkGroup ["A.canvas"; "AC1.canvas"; "AC3.canvas"] 100] false [].

(** A group whose only other member is not in the vault. *)
Definition st_lagging : State :=
  mkState {[ "A.canvas" := TFile board ]}
          quiet no_RegExp 200 []
          [mkGroup ["A.canvas"; "AC1.canvas"] 100] false [].

(** A document that is in no group. *)
Definition st_loose : State :=
  mkState {[ "A.canvas" := TFile board; "AC1.canvas" := TFile board;
             "Loose.canvas" := TFile board ]}
          quiet no_RegExp 200 []
          [mkGroup ["A.canvas"; "AC1.canvas"] 100] false [].

Definition op_hi : Operation := mkOperation (UpdateNodeText "n1" "hi") "A.canvas".

Definition op_loose : Operation := mkOperation (DeleteNode "n1") "Loose.canvas".

(** ECMAScript on the pattern [^Plan(v2)C(\d+)\.canvas$]: the parentheses
    around [v2] are a group, so the pattern matches the names
    [Planv2C<digits>.canvas], and the first capture is [v2], which
    [parseInt] turns into [NaN]. *)
Definition RegExp_Plan_v2 (source : string) : option (string -> option Js.number) :=
  if bool_decide (source = "^Plan(v2)C(\d+)\.canvas$")
  then Some (fun fileName =>
               match Js.versionPattern_literal "Planv2" fileName with
               | Some _ => Some Js.NaN
               | None => None
               end)
  else None.

(** A group of two versions of a document named [Plan(v2)]. *)
Definition st_plan : State :=
  mkState {[ "Plan(v2)C1.canvas" := TFile board; "Plan(v2)C5.canvas" := TFile board ]}
          quiet RegExp_Plan_v2 200 []
          [mkGroup ["Plan(v2)C1.canvas"; "Plan(v2)C5.canvas"] 100] false [].

(** A document in a folder that bears the name of the document; the folder
    [NotesC1.canvas] exists too. *)
Definition st_folder : State :=
  mkState {[ "Notes.canvas" := TFolder; "NotesC1.canvas" := TFolder;
             "Notes.canvas/Notes.canvas" := TFile board ]}
          quiet no_RegExp 200 [] [] false [].

(** A document with two dollar signs in its name. *)
Definition st_dollar : State :=
  mkState {[ "Budget$$.canvas" := TFile board ]} quiet no_RegExp 200 [] [] false [].

(** An engine with two submissions behind it and a third on the way. *)
Definition c_start : Engine.Config := Engine.mkConfig st_malformed [] [] 0 [].

Definition schedule_three : list Engine.Action :=
  [Engine.Submit op_hi; Engine.Submit op_loose; Engine.Resume 0; Engine.Tick 300;
   Engine.Resume 0; Engine.Resume 0; Engine.Submit op_hi; Engine.Resume 0].

Definition c_three : Engine.Config :=
  default c_start (Engine.run c_start schedule_three).

(** The claim of the data model about [lastSync], for one operation: a
    group's [lastSync] changes only if the propagation wrote a document. *)
Definition lastSync_only_on_success (operation : Operation) (st : State) : Prop :=
  ∀ i g g',
    canvasGroups st !! i = Some g ->
    canvasGroups (executeOperation_state operation st) !! i = Some g' ->
    lastSync g' ≠ lastSync g ->
    written (executeOperation_state operation st) ≠ written st.

(* ===================================================================== *)
(** * The vocabulary of the further properties *)
(* ===================================================================== *)

(** The node an operation is about. *)
Definition operation_nodeId (data : OperationData) : string :=
  match data with
  | CreateNode nodeData => node_id nodeData
  | DeleteNode nodeId => nodeId
  | UpdateNodeText nodeId _ => nodeId
  end.

(** Every edge of the document ends on nodes of the document. *)
Definition edges_closed (canvasData : CanvasData) : Prop :=
  ∀ e, e ∈ edges canvasData ->
       is_Some (nodes canvasData !! fromNode e) ∧ is_Some (nodes canvasData !! toNode e).

Definition with_text (newText : string) (node : CanvasNodeData) : CanvasNodeData :=
  mkNode (node_id node) (node_type node) (Some newText) (node_file node) (node_url node)
         (node_subtype node) (node_width node) (node_height node) (node_x node) (node_y node).

(** The node an operation is about, after the operation, as a function of
    what was there before. *)
Definition node_after (data : OperationData) (before : option CanvasNodeData)
    : option CanvasNodeData :=
  match data with
  | CreateNode nodeData =>
      if bool_decide (node_id nodeData = "__proto__" ∧ before = None) then None
      else Some nodeData
  | DeleteNode _ => None
  | UpdateNodeText _ newText => with_text newText <$> before
  end.

(** The edges after an operation: a deletion filters them, the other
    operations keep them. *)
Definition edges_after (data : OperationData) (l : list CanvasEdge) : list CanvasEdge :=
  match data with
  | DeleteNode nodeId => filter (fun e => ¬ references nodeId e) l
  | _ => l
  end.

(** What the loop body of [executeOperation] leaves at [filePath]. *)
Definition propagated (operation : Operation) (st : State) (filePath : string)
    : option TAbstractFile :=
  if bool_decide (filePath = sourceFile operation) then vault st !! filePath
  else match loadable st filePath with
       | Some d =>
           if io_fault st IoModify filePath then vault st !! filePath
           else Some (TFile (Canvas (applyOperation d (op_data operation))))
       | None => vault st !! filePath
       end.

(** The registry is in order: no group lists a path twice, no path is in
    two groups, and every path listed is in the vault. *)
Definition registry_ok (st : State) : Prop :=
  (∀ i g, canvasGroups st !! i = Some g ->
          NoDup (files g) ∧ ∀ p, p ∈ files g -> is_Some (vault st !! p)) ∧
  (∀ i j g h p, canvasGroups st !! i = Some g -> canvasGroups st !! j = Some h ->
                p ∈ files g -> p ∈ files h -> i = j).

(* ===================================================================== *)
(** * The registry as the settings tab uses it *)
(* ===================================================================== *)

(** [getCanvasGroups]: the array of the service itself, not a copy. *)
Definition getCanvasGroups : M (list CanvasGroup) := fun st => (Ok (canvasGroups st), st).

(** [setCanvasGroups] *)
Definition setCanvasGroups (groups : list CanvasGroup) : M unit :=
  modify (set_canvasGroups (fun _ => groups)).

(** main.ts, the button that deletes the group shown at [index]; [confirm]
    is the answer to the dialog.  [groups] is the array that [display] got
    from [getCanvasGroups], which is the array of the service, so
    [groups.splice(index, 1)] acts on the groups the service has at the
    time of the click.  Saving the settings is not part of the state. *)
Definition deleteGroup_onClick (confirm : bool) (index : nat) : M unit :=
  if confirm then
    groups ← getCanvasGroups;
    setCanvasGroups (delete index groups)
  else mret tt.

(** The position of a group once the group at [index] is gone. *)
Definition index_after_delete (index j : nat) : nat :=
  if decide (j < index)%nat then j else pred j.

(* ===================================================================== *)
(** * canvasListener.ts *)
(* ===================================================================== *)

(** A node of an open canvas, as the events of the canvas deliver it; a
    field that is [undefined] is [None].  The listener reads the node as
    [any]; here its [type] is one of the four of types.ts, and [text],
    [file] and [url] are strings when they are there. *)
Record RuntimeNode : Type := mkRuntimeNode {
  rn_id : string;
  rn_type : CanvasNodeType;
  rn_x : Z;
  rn_y : Z;
  rn_width : option Z;
  rn_height : option Z;
  rn_text : option string;
  rn_file : option string;
  rn_url : option string
}.

(** [value || ''] on a string or [undefined]. *)
Definition or_empty (value : option string) : string :=
  match value with
  | Some s => s
  | None => EmptyString
  end.

(** The [nodeData] that [handleNodeCreated] builds. *)
Definition nodeData_of (node : RuntimeNode) : CanvasNodeData :=
  let text := match rn_type node with Text => or_empty (rn_text node) | _ => EmptyString end in
  let file := match rn_type node with File => or_empty (rn_file node) | _ => EmptyString end in
  let url := match rn_type node with Link => or_empty (rn_url node) | _ => EmptyString end in
  mkNode (rn_id node) (rn_type node) (Some text) (Some file) (Some url) None
         (rn_width node) (rn_height node) (rn_x node) (rn_y node).

(** [handleNodeCreated], [handleNodeDeleted], [handleNodeTextChanged]: each
    hands an operation to [processOperation] and does not wait for it. *)
Definition handleNodeCreated (fuel : nat) (node : RuntimeNode) (filePath : string) : M unit :=
  processOperation fuel (mkOperation (CreateNode (nodeData_of node)) filePath).

Definition handleNodeDeleted (fuel : nat) (nodeId filePath : string) : M unit :=
  processOperation fuel (mkOperation (DeleteNode nodeId) filePath).

Definition handleNodeTextChanged (fuel : nat) (nodeId newText filePath : string) : M unit :=
  processOperation fuel (mkOperation (UpdateNodeText nodeId newText) filePath).

(** A canvas view: the path of [view.file] and the canvas object, each of
    which may be missing. *)
Record CanvasView : Type := mkView {
  view_file : option string;
  view_canvas : option nat
}.

(** A leaf of the workspace; [leaf.view] may be missing. *)
Record WorkspaceLeaf : Type := mkLeaf {
  leaf_view : option CanvasView
}.

(** The listener: the views it has registered, by path, and the canvases
    whose events it has subscribed to, each with the path it reports as the
    source of the operations ([registerCanvasEvents] wires the handlers of
    one canvas to one path; the observers of the text elements are not
    modelled). *)
Record Listener : Type := mkListener {
  registeredCanvasViews : gmap string CanvasView;
  subscriptions : list (nat * string)
}.

(** [registerCanvasView]; [registerCanvasEvents] adds the subscription. *)
Definition registerCanvasView (leaf : WorkspaceLeaf) (st : State) (l : Listener)
    : Listener :=
  match leaf_view leaf with
  | Some view =>
      match view_file view, view_canvas view with
      | Some filePath, Some canvas =>
          if bool_decide (is_Some (registeredCanvasViews l !! filePath)) then l
          else
            match findGroupForFile filePath st with
            | (Ok (Some _), _) =>
                mkListener (<[filePath := view]> (registeredCanvasViews l))
                           (subscriptions l ++ [(canvas, filePath)])
            | _ => l
            end
      | _, _ => l
      end
  | None => l
  end.

(** [checkForNewCanvasViews], [leaves] being the canvas leaves of the
    workspace. *)
Definition checkForNewCanvasViews (leaves : list WorkspaceLeaf) (st : State)
    (l : Listener) : Listener :=
  fold_left (fun l leaf => registerCanvasView leaf st l) leaves l.

(** A leaf that shows the document at [filePath] on a canvas. *)
Definition shows (leaf : WorkspaceLeaf) (filePath : string) : Prop :=
  ∃ view canvas, leaf_view leaf = Some view ∧ view_file view = Some filePath ∧
                 view_canvas view = Some canvas.

(** The subscriptions are those of the registered views, one for each. *)
Definition listener_ok (l : Listener) : Prop :=
  NoDup (subscriptions l).*2 ∧
  ∀ filePath, is_Some (registeredCanvasViews l !! filePath) <->
              filePath ∈ (subscriptions l).*2.

(* ===================================================================== *)
(** * What the engine comes to *)
(* ===================================================================== *)

(** The operations a schedule submits, in the order it submits them. *)
Definition submissions (schedule : list Engine.Action) : list Operation :=
  omap (fun a => match a with Engine.Submit operation => Some operation | _ => None end)
       schedule.

(** Two states with the same documents, the same faults and the same
    members in the same groups; the clock, the [lastSync] of the groups, the
    queue and the flag may differ. *)
Definition same_documents (s1 s2 : State) : Prop :=
  vault s1 = vault s2 ∧ io_fault s1 = io_fault s2 ∧
  files <$> canvasGroups s1 = files <$> canvasGroups s2.

(** The state the engine is heading for: the operation in progress is
    brought to its end and the queue is executed. *)
Definition outstanding (c : Engine.Config) : State :=
  fold_left (fun s op => executeOperation_state op s) (operationQueue (Engine.st c))
    match Engine.loops c with
    | Engine.InOperation _ operation remaining :: _ =>
        syncTargets_state operation remaining (Engine.st c)
    | _ => Engine.st c
    end.

(** The engine is in step with the operations [subs] submitted since the
    state [start]: as many have been submitted as [subs] holds; those not
    yet taken off the queue are the queue, in the order of [subs]; every
    write of the trace bears the number of the submission it was made for
    and went to a member, other than the source, of the group that
    submission's source has once the submissions before it are executed;
    and the documents are those that executing the submissions taken so far
    gives, as far as the [for] loop of the one in progress, which is the
    submission of that number, has come. *)
Definition in_step (start : State) (subs : list Operation) (c : Engine.Config) : Prop :=
  Engine.submitted c = length subs ∧
  operationQueue (Engine.st c) = drop (length (Engine.begun (Engine.trace c))) subs ∧
  (∀ j path, Engine.EvWrite j path ∈ Engine.trace c ->
     ∃ operation i g,
       subs !! j = Some operation ∧
       list_find (fun group => sourceFile operation ∈ files group)
         (canvasGroups (fold_left (fun s op => executeOperation_state op s)
                                  (take j subs) start)) = Some (i, g) ∧
       path ∈ files g ∧ path ≠ sourceFile operation) ∧
  match Engine.loops c with
  | Engine.InOperation tag operation remaining :: _ =>
      length (Engine.begun (Engine.trace c)) = S tag ∧
      subs !! tag = Some operation ∧
      ∃ i g visited,
        list_find (fun group => sourceFile operation ∈ files group)
          (canvasGroups (fold_left (fun s op => executeOperation_state op s)
                                   (take tag subs) start)) = Some (i, g) ∧
        files g = visited ++ remaining ∧
        same_documents (Engine.st c)
          (syncTargets_state operation visited
             (fold_left (fun s op => executeOperation_state op s) (take tag subs) start))
  | _ =>
      same_documents (Engine.st c)
        (fold_left (fun s op => executeOperation_state op s)
                   (take (length (Engine.begun (Engine.trace c))) subs) start)
  end.

(* ===================================================================== *)
(** * More scenarios *)
(* ===================================================================== *)

(** A document in a folder, in no group. *)
Definition st_nested : State :=
  mkState {[ "folder/Notes.canvas" := TFile board ]} quiet no_RegExp 200 [] [] false [].

(** Two groups of two documents. *)
Definition st_two_groups : State :=
  mkState {[ "A.canvas" := TFile board; "AC1.canvas" := TFile board;
             "B.canvas" := TFile board; "BC1.canvas" := TFile board ]}
          quiet no_RegExp 200 []
          [mkGroup ["A.canvas"; "AC1.canvas"] 100; mkGroup ["B.canvas"; "BC1.canvas"] 100]
          false [].

(** Two groups that both list [AC1.canvas]: what the registry comes to
    when [AC2.canvas] is derived from [AC1.canvas], the file [AC1.canvas]
    is removed in the vault, and a view is derived from [A.canvas]. *)
Definition st_overlap : State :=
  mkState {[ "A.canvas" := TFile board; "AC1.canvas" := TFile board;
             "AC2.canvas" := TFile board ]}
          quiet no_RegExp 200 []
          [mkGroup ["AC1.canvas"; "AC2.canvas"] 100; mkGroup ["A.canvas"; "AC1.canvas"] 100]
          false [].

(** A listener that has registered nothing. *)
Definition listener_start : Listener := mkListener ∅ [].

(** The leaves of a workspace: [A.canvas] in two panes, a document that is
    in no group, and a leaf whose view is not there yet. *)
Definition leaves_scenario : list WorkspaceLeaf :=
  [mkLeaf (Some (mkView (Some "A.canvas") (Some 1%nat)));
   mkLeaf (Some (mkView (Some "A.canvas") (Some 2%nat)));
   mkLeaf (Some (mkView (Some "Loose.canvas") (Some 3%nat)));
   mkLeaf None].

(** A text node as the canvas reports it. *)
Definition node_scenario : RuntimeNode :=
  mkRuntimeNode "n7" Text 10 20 (Some 250%Z) (Some 60%Z) (Some "new") None None.

(** An engine in the middle of an operation: [op_hi] has been taken off the
    queue and none of its targets has been visited. *)
Definition c_busy : Engine.Config :=
  default c_start (Engine.run c_start [Engine.Submit op_hi; Engine.Resume 0]).

(* ===================================================================== *)
(** * Properties of the handlers *)
(* ===================================================================== *)

Section Handlers.

Implicit Types (canvasData : CanvasData) (nodeId newText : string).

Lemma filter_split_length (P : CanvasEdge -> Prop) `{!∀ e, Decision (P e)}
    (l : list CanvasEdge) :
  length l = (length (filter (fun e => ¬ P e) l) + length (filter P l))%nat.
Proof.
  induction l as [|e l IH]; [done|].
  rewrite !filter_cons. destruct (decide (P e)) as [HP|HP].
  - rewrite decide_False by tauto. simpl. lia.
  - rewrite decide_True by tauto. simpl. lia.
Qed.

Lemma handleDeleteNode_edges canvasData nodeId :
  edges (handleDeleteNode canvasData nodeId) =
  filter (fun e => ¬ references nodeId e) (edges canvasData).
Proof.
  unfold handleDeleteNode, references. simpl.
  induction (edges canvasData) as [|e l IH]; [done|].
  rewrite !filter_cons, IH.
  destruct (decide (fromNode e ≠ nodeId ∧ toNode e ≠ nodeId)) as [H|H].
  - rewrite decide_True by tauto. done.
  - rewrite decide_False; [done|].
    intros Hn. apply H. split; intros ?; apply Hn; tauto.
Qed.

(** C5.  [handleDeleteNode] removes the node keyed by [nodeId], keeps every
    other node as it was, and removes exactly the edges whose [fromNode] or
    [toNode] is [nodeId]: the remaining edges are the edges that do not
    reference [nodeId], in their original order and number. *)
Theorem handleDeleteNode_cleans_edges canvasData nodeId :
  let canvasData' := applyOperation canvasData (DeleteNode nodeId) in
  nodes canvasData' !! nodeId = None ∧
  (∀ k, k ≠ nodeId -> nodes canvasData' !! k = nodes canvasData !! k) ∧
  (∀ e, e ∈ edges canvasData' <-> e ∈ edges canvasData ∧ ¬ references nodeId e) ∧
  edges canvasData' `sublist_of` edges canvasData ∧
  length (edges canvasData) =
    (length (edges canvasData') +
     length (filter (references nodeId) (edges canvasData)))%nat.
Proof.
  cbv zeta.
  change (applyOperation canvasData (DeleteNode nodeId))
    with (handleDeleteNode canvasData nodeId).
  rewrite handleDeleteNode_edges.
  split; [apply lookup_delete_eq|].
  split; [intros k Hk; simpl; by apply lookup_delete_ne|].
  split; [intros e; rewrite list_elem_of_filter; tauto|].
  split; [apply sublist_filter|].
  apply filter_split_length.
Qed.

(** C9.  [handleUpdateNodeText] on a node that exists replaces its text
    and nothing else; on a node that does not exist it returns the
    document as it was. *)
Theorem handleUpdateNodeText_spec canvasData nodeId newText :
  let canvasData' := applyOperation canvasData (UpdateNodeText nodeId newText) in
  match nodes canvasData !! nodeId with
  | Some node =>
      (∃ node', nodes canvasData' !! nodeId = Some node' ∧
         node_text node' = Some newText ∧
         node_id node' = node_id node ∧ node_type node' = node_type node ∧
         node_file node' = node_file node ∧ node_url node' = node_url node ∧
         node_subtype node' = node_subtype node ∧
         node_width node' = node_width node ∧ node_height node' = node_height node ∧
         node_x node' = node_x node ∧ node_y node' = node_y node) ∧
      (∀ k, k ≠ nodeId -> nodes canvasData' !! k = nodes canvasData !! k) ∧
      edges canvasData' = edges canvasData
  | None => canvasData' = canvasData
  end.
Proof.
  simpl. unfold handleUpdateNodeText.
  destruct (nodes canvasData !! nodeId) as [node|] eqn:Hn; [|done].
  simpl. split.
  - eexists. rewrite lookup_insert_eq. split; [done|]. simpl. tauto.
  - split; [|done]. intros k Hk. by rewrite lookup_insert_ne.
Qed.

End Handlers.

(* ===================================================================== *)
(** * Propagation of one operation *)
(* ===================================================================== *)

Section Propagation.

Implicit Types (st : State) (operation : Operation) (filePath : string).

Lemma syncTarget_run operation filePath st :
  syncTarget operation filePath st = (Ok tt, syncTarget_state operation filePath st).
Proof.
  unfold syncTarget, syncTarget_state, loadable.
  case_bool_decide; [done|].
  unfold mbind, M_bind, getAbstractFileByPath, try_catch, vault_read, vault_modify.
  destruct (vault st !! filePath) as [[[d|raw|raw]|]|] eqn:Hv;
    simpl; rewrite ?Hv; simpl; try done.
  - destruct (io_fault st IoRead filePath); simpl; [done|].
    rewrite Hv. by destruct (io_fault st IoModify filePath).
  - by destruct (io_fault st IoRead filePath).
  - by destruct (io_fault st IoRead filePath).
Qed.

Lemma syncTarget_state_fails operation filePath st :
  target_fails st filePath -> syncTarget_state operation filePath st = st.
Proof.
  unfold syncTarget_state. intros [H|H]; case_bool_decide; try done.
  - by rewrite H.
  - rewrite H. by destruct (loadable st filePath).
Qed.

(** The loop body touches the vault at its own path only, and nothing of
    the service. *)
Lemma syncTarget_state_frame operation filePath st :
  let st' := syncTarget_state operation filePath st in
  io_fault st' = io_fault st ∧ js_RegExp st' = js_RegExp st ∧ clock st' = clock st ∧
  canvasGroups st' = canvasGroups st ∧
  processingOperations st' = processingOperations st ∧
  operationQueue st' = operationQueue st ∧
  (∀ q, q ≠ filePath -> vault st' !! q = vault st !! q).
Proof.
  unfold syncTarget_state. case_bool_decide; [done|].
  destruct (loadable st filePath); [|done].
  destruct (io_fault st IoModify filePath); [done|].
  simpl. repeat split; try done. intros q Hq. by apply lookup_insert_ne.
Qed.

Lemma syncTarget_state_other operation filePath st q :
  q ≠ filePath ->
  loadable (syncTarget_state operation filePath st) q = loadable st q ∧
  io_fault (syncTarget_state operation filePath st) IoModify q = io_fault st IoModify q.
Proof.
  intros Hq.
  destruct (syncTarget_state_frame operation filePath st) as (Hio & _ & _ & _ & _ & _ & Hv).
  unfold loadable. rewrite Hio, (Hv q Hq). done.
Qed.

Lemma syncTarget_state_keeps_failing operation filePath st q :
  target_fails st q -> target_fails (syncTarget_state operation filePath st) q.
Proof.
  intros Hq. destruct (decide (q = filePath)) as [->|Hne].
  - by rewrite syncTarget_state_fails.
  - destruct (syncTarget_state_other operation filePath st q Hne) as [Hl Hm].
    unfold target_fails. by rewrite Hl, Hm.
Qed.

Lemma for_of_syncTarget operation targets st :
  for_of targets (syncTarget operation) st =
  (Ok tt, syncTargets_state operation targets st).
Proof.
  revert st. induction targets as [|p l IH]; intros st; [done|].
  simpl. unfold mbind, M_bind. rewrite syncTarget_run. apply IH.
Qed.

Lemma syncTargets_state_frame operation targets st :
  let st' := syncTargets_state operation targets st in
  io_fault st' = io_fault st ∧ js_RegExp st' = js_RegExp st ∧ clock st' = clock st ∧
  canvasGroups st' = canvasGroups st ∧
  processingOperations st' = processingOperations st ∧
  operationQueue st' = operationQueue st ∧
  (∀ q, q ∉ targets -> vault st' !! q = vault st !! q).
Proof.
  revert st. induction targets as [|p l IH]; intros st; simpl.
  { repeat split; done. }
  destruct (IH (syncTarget_state operation p st)) as (H1 & H2 & H3 & H4 & H5 & H6 & H7).
  destruct (syncTarget_state_frame operation p st) as (G1 & G2 & G3 & G4 & G5 & G6 & G7).
  cbv zeta in *.
  repeat split; try congruence.
  intros q Hq. rewrite not_elem_of_cons in Hq. destruct Hq as [Hqp Hql].
  rewrite (H7 q Hql). by apply G7.
Qed.

Lemma syncTargets_state_keeps_failing operation targets st q :
  target_fails st q -> target_fails (syncTargets_state operation targets st) q.
Proof.
  revert st. induction targets as [|p l IH]; intros st Hq; [done|].
  simpl. apply IH. by apply syncTarget_state_keeps_failing.
Qed.

(** A target that fails is skipped: the loop ends in the state it would
    end in were the target not in the list. *)
Lemma syncTargets_state_skip operation (before after : list string) filePath st :
  target_fails st filePath ->
  syncTargets_state operation (before ++ filePath :: after) st =
  syncTargets_state operation (before ++ after) st.
Proof.
  intros Hf. unfold syncTargets_state. rewrite !fold_left_app. simpl.
  rewrite syncTarget_state_fails; [done|].
  by apply (syncTargets_state_keeps_failing operation before st).
Qed.

(** A target that does not fail is written, whatever happens at the
    other targets. *)
Lemma syncTargets_state_writes operation (targets : list string) filePath st d :
  NoDup targets -> filePath ∈ targets -> filePath ≠ sourceFile operation ->
  loadable st filePath = Some d -> io_fault st IoModify filePath = false ->
  vault (syncTargets_state operation targets st) !! filePath =
    Some (TFile (Canvas (applyOperation d (op_data operation)))).
Proof.
  revert st. induction targets as [|p l IH]; intros st Hnd Hin Hsrc Hl Hm.
  { by apply elem_of_nil in Hin. }
  apply NoDup_cons in Hnd as [Hp Hnd]. simpl.
  apply elem_of_cons in Hin as [->|Hin].
  - destruct (syncTargets_state_frame operation l (syncTarget_state operation p st))
      as (_ & _ & _ & _ & _ & _ & Hv).
    cbv zeta in Hv. rewrite (Hv p Hp).
    unfold syncTarget_state. rewrite bool_decide_false by done.
    rewrite Hl, Hm. simpl. apply lookup_insert_eq.
  - assert (filePath ≠ p) as Hne by (intros ->; done).
    destruct (syncTarget_state_other operation p st filePath Hne) as [Hl' Hm'].
    apply IH; try done; congruence.
Qed.

Lemma executeOperation_run operation st :
  executeOperation operation st = (Ok tt, executeOperation_state operation st).
Proof.
  unfold executeOperation, executeOperation_state, findGroupForFile.
  unfold mbind at 1. unfold M_bind at 1.
  destruct (list_find _ (canvasGroups st)) as [[i g]|]; [|done].
  unfold mbind, M_bind, Date_now, modify. simpl.
  apply for_of_syncTarget.
Qed.

Lemma executeOperation_state_frame operation st :
  let st' := executeOperation_state operation st in
  io_fault st' = io_fault st ∧ js_RegExp st' = js_RegExp st ∧ clock st' = clock st ∧
  processingOperations st' = processingOperations st ∧
  operationQueue st' = operationQueue st.
Proof.
  unfold executeOperation_state.
  destruct (list_find _ (canvasGroups st)) as [[i g]|]; [|done].
  destruct (syncTargets_state_frame operation (files g)
              (set_canvasGroups (<[i := mkGroup (files g) (clock st)]>) st))
    as (H1 & H2 & H3 & H4 & H5 & H6 & H7).
  cbv zeta in *. simpl in *. repeat split; done.
Qed.

Lemma syncTarget_state_with_engine operation filePath b queue st :
  syncTarget_state operation filePath (with_engine b queue st) =
  with_engine b queue (syncTarget_state operation filePath st).
Proof.
  unfold syncTarget_state, loadable. simpl.
  case_bool_decide; [done|].
  destruct (vault st !! filePath) as [[[d|raw|raw]|]|]; try done.
  destruct (io_fault st IoRead filePath); [done|].
  by destruct (io_fault st IoModify filePath).
Qed.

Lemma syncTargets_state_with_engine operation targets b queue st :
  syncTargets_state operation targets (with_engine b queue st) =
  with_engine b queue (syncTargets_state operation targets st).
Proof.
  revert st. induction targets as [|p l IH]; intros st; [done|].
  simpl. rewrite syncTarget_state_with_engine. apply IH.
Qed.

Lemma executeOperation_state_with_engine operation b queue st :
  executeOperation_state operation (with_engine b queue st) =
  with_engine b queue (executeOperation_state operation st).
Proof.
  unfold executeOperation_state. simpl.
  destruct (list_find _ (canvasGroups st)) as [[i g]|]; [|done].
  by rewrite <- syncTargets_state_with_engine.
Qed.

Lemma drain_fold queue b queue0 st :
  drain queue (with_engine b queue0 st) =
  with_engine b (match queue with [] => queue0 | _ => [] end)
    (fold_left (fun s op => executeOperation_state op s) queue st).
Proof.
  revert queue0 st. induction queue as [|op rest IH]; intros queue0 st; [done|].
  simpl.
  change (set_operationQueue (fun _ => rest) (with_engine b queue0 st))
    with (with_engine b rest st).
  rewrite executeOperation_state_with_engine, IH.
  by destruct rest.
Qed.

Lemma drain_body_run st :
  drain_body st =
  match operationQueue st with
  | [] => (Ok false, st)
  | op :: rest =>
      (Ok true, executeOperation_state op (set_operationQueue (fun _ => rest) st))
  end.
Proof.
  unfold drain_body. unfold mbind at 1. unfold M_bind at 1. unfold get.
  destruct (operationQueue st) as [|op rest]; [done|].
  unfold mbind, M_bind, modify. by rewrite executeOperation_run.
Qed.

Lemma while_drain fuel st :
  length (operationQueue st) <= fuel ->
  while fuel queue_not_empty drain_body st = (Ok tt, drain (operationQueue st) st).
Proof.
  revert st. induction fuel as [|fuel IH]; intros st Hlen.
  - destruct (operationQueue st) eqn:Hq; [|simpl in Hlen; lia].
    simpl. unfold queue_not_empty. rewrite Hq. done.
  - destruct (operationQueue st) as [|op rest] eqn:Hq.
    + simpl. unfold queue_not_empty. rewrite Hq. done.
    + simpl. unfold queue_not_empty at 1. rewrite Hq.
      rewrite bool_decide_true by done.
      unfold mbind at 1. unfold M_bind at 1.
      rewrite drain_body_run, Hq.
      destruct (executeOperation_state_frame op
                  (set_operationQueue (fun _ => rest) st)) as (_ & _ & _ & _ & Hq').
      cbv zeta in Hq'. simpl in Hq'.
      rewrite IH; [by rewrite Hq'|].
      rewrite Hq'. simpl in Hlen. lia.
Qed.

(** [processOperation] on an engine that is draining: the operation is
    queued and the call returns. *)
Lemma processOperation_draining fuel operation st :
  processingOperations st = true ->
  processOperation fuel operation st =
  (Ok tt, set_operationQueue (fun queue => queue ++ [operation]) st).
Proof.
  intros Hp. unfold processOperation, mbind, M_bind, modify, get. simpl.
  by rewrite Hp.
Qed.

(** [processOperation] on an idle engine: the queued operations and then
    the new one are executed in order, and the engine is idle again with
    an empty queue. *)
Lemma processOperation_idle fuel operation st :
  processingOperations st = false ->
  length (operationQueue st) < fuel ->
  processOperation fuel operation st =
  (Ok tt, with_engine false []
            (fold_left (fun s op => executeOperation_state op s)
                       (operationQueue st ++ [operation]) st)).
Proof.
  intros Hp Hlen. unfold processOperation.
  unfold mbind at 1. unfold M_bind at 1. unfold modify at 1.
  unfold mbind at 1. unfold M_bind at 1. unfold get at 1.
  simpl. rewrite Hp.
  unfold mbind at 1. unfold M_bind at 1. unfold modify at 1.
  unfold try_finally, try_catch.
  pose proof (while_drain fuel
    (set_processingOperations true
       (set_operationQueue (fun queue => queue ++ [operation]) st))) as Hw.
  simpl in Hw. rewrite length_app in Hw. simpl in Hw.
  unfold queue_not_empty, drain_body in Hw.
  rewrite Hw by lia. clear Hw.
  unfold modify. f_equal.
  change (set_processingOperations true
            (set_operationQueue (fun queue => queue ++ [operation]) st))
    with (with_engine true (operationQueue st ++ [operation]) st).
  rewrite drain_fold.
  by destruct (operationQueue st).
Qed.

Lemma syncTargets_state_failing_untouched operation targets st q :
  target_fails st q ->
  vault (syncTargets_state operation targets st) !! q = vault st !! q.
Proof.
  revert st. induction targets as [|p l IH]; intros st Hq; [done|].
  simpl. rewrite IH by (by apply syncTarget_state_keeps_failing).
  destruct (decide (q = p)) as [->|Hne].
  - by rewrite syncTarget_state_fails.
  - by apply syncTarget_state_frame.
Qed.

(** [executeOperation] never throws. *)
Lemma executeOperation_never_throws operation st :
  ∃ st', executeOperation operation st = (Ok tt, st').
Proof. eexists. apply executeOperation_run. Qed.

(** C7.  An operation whose source is in group [g] is submitted to an idle
    engine, and one target of the group fails (it cannot be loaded or
    parsed, or its write is rejected).  Then [executeOperation] returns
    normally, in the state it would reach were the failing target not in
    the group: the failing target keeps its content and every target that
    does not fail is written.  [processOperation] executes every queued
    operation and the new one, and leaves the engine idle with an empty
    queue. *)
Theorem propagation_failure_is_local fuel operation st i g before filePath after :
  list_find (fun group => sourceFile operation ∈ files group) (canvasGroups st)
    = Some (i, g) ->
  files g = before ++ filePath :: after ->
  target_fails st filePath ->
  processingOperations st = false ->
  length (operationQueue st) < fuel ->
  let started := set_canvasGroups (<[i := mkGroup (files g) (clock st)]>) st in
  let st1 := executeOperation_state operation st in
  executeOperation operation st = (Ok tt, st1) ∧
  st1 = syncTargets_state operation (before ++ after) started ∧
  vault st1 !! filePath = vault st !! filePath ∧
  (NoDup (files g) ->
   ∀ q d, q ∈ files g -> q ≠ sourceFile operation ->
          loadable st q = Some d -> io_fault st IoModify q = false ->
          vault st1 !! q = Some (TFile (Canvas (applyOperation d (op_data operation))))) ∧
  ∃ st', processOperation fuel operation st = (Ok tt, st') ∧
         st' = with_engine false []
                 (fold_left (fun s op => executeOperation_state op s)
                            (operationQueue st ++ [operation]) st) ∧
         processingOperations st' = false ∧ operationQueue st' = [].
Proof.
  intros Hfind Hfiles Hfail Hidle Hfuel started st1.
  assert (st1 = syncTargets_state operation (files g) started) as Hst1.
  { unfold st1, executeOperation_state. by rewrite Hfind. }
  assert (target_fails started filePath) as Hfail' by exact Hfail.
  split; [apply executeOperation_run|].
  split; [rewrite Hst1, Hfiles; by apply syncTargets_state_skip|].
  split; [rewrite Hst1; by rewrite syncTargets_state_failing_untouched|].
  split.
  - intros Hnd q d Hq Hsrc Hl Hm. rewrite Hst1.
    by apply syncTargets_state_writes.
  - eexists. split; [by apply processOperation_idle|]. done.
Qed.

(** C10.  An operation whose source is in no group: [executeOperation]
    returns in the state it started in, so nothing is loaded, written or
    changed; submitted to an idle engine with an empty queue, the
    operation is taken off the queue and the state is as before. *)
Theorem ungrouped_source_writes_nothing fuel operation st :
  list_find (fun group => sourceFile operation ∈ files group) (canvasGroups st) = None ->
  executeOperation operation st = (Ok tt, st) ∧
  (processingOperations st = false -> operationQueue st = [] -> 0 < fuel ->
   processOperation fuel operation st = (Ok tt, st)).
Proof.
  intros Hfind.
  assert (executeOperation_state operation st = st) as Hst.
  { unfold executeOperation_state. by rewrite Hfind. }
  split; [by rewrite executeOperation_run, Hst|].
  intros Hidle Hq Hfuel.
  rewrite processOperation_idle by (rewrite ?Hq; simpl; done).
  rewrite Hq. simpl. rewrite Hst.
  destruct st; simpl in *; by subst.
Qed.

End Propagation.

(* ===================================================================== *)
(** * Facts about the runtime *)
(* ===================================================================== *)

Module JsFacts.
Import Js.

Lemma getSubstitution_no_dollar matched before after replacement :
  no_dollar replacement = true ->
  getSubstitution matched before after replacement = replacement.
Proof.
  induction replacement as [|c r IH]; [done|].
  intros H. unfold no_dollar in H. cbn [forallb_string] in H.
  apply andb_prop in H as [Hc Hr].
  cbn [getSubstitution]. destruct r as [|d r']; [done|].
  destruct (Ascii.eqb c "$"); [done|].
  f_equal. by apply IH.
Qed.

Lemma append_cons c (s t : string) : String c s +:+ t = String c (s +:+ t).
Proof. reflexivity. Qed.

Lemma append_nil_l (t : string) : EmptyString +:+ t = t.
Proof. reflexivity. Qed.

Lemma append_nil_r (s : string) : s +:+ EmptyString = s.
Proof. induction s as [|c s IH]; [done|]. by rewrite append_cons, IH. Qed.

Lemma take_app_length (s t : string) : take (String.length s) (s +:+ t) = s.
Proof.
  induction s as [|c s IH]; [by destruct t|].
  rewrite append_cons. simpl. by rewrite IH.
Qed.

Lemma drop_app_length (s t : string) (n : nat) :
  drop (String.length s + n) (s +:+ t) = drop n t.
Proof.
  induction s as [|c s IH]; [done|].
  rewrite append_cons. simpl. by rewrite IH.
Qed.

Lemma drop_length (t : string) : drop (String.length t) t = EmptyString.
Proof. induction t as [|c t IH]; simpl; [done|by rewrite IH]. Qed.

Lemma replace_last_component (dir name newName : string) :
  indexOf name (dir +:+ name) = Some (String.length dir) ->
  no_dollar newName = true ->
  replace (dir +:+ name) name newName = dir +:+ newName.
Proof.
  intros Hi Hd. unfold replace. rewrite Hi.
  rewrite take_app_length, drop_app_length, drop_length.
  rewrite append_nil_r.
  by rewrite getSubstitution_no_dollar.
Qed.

Lemma parseInt_digits ds :
  ds ≠ EmptyString -> forallb_string is_digit ds = true ->
  parseInt ds = round_double (parseInt_acc 0 ds).
Proof. intros Hne Hd. unfold parseInt. rewrite Hd. by destruct ds. Qed.

Lemma parseInt_acc_nonneg (ds : string) (acc : Z) :
  (0 <= acc)%Z -> forallb_string is_digit ds = true -> (0 <= parseInt_acc acc ds)%Z.
Proof.
  revert acc. induction ds as [|c ds IH]; intros acc Hacc Hd; [done|].
  cbn [forallb_string] in Hd. apply andb_prop in Hd as [Hc Hd].
  cbn [parseInt_acc]. apply IH; [|done].
  unfold is_digit in Hc. cbv zeta in Hc. apply andb_prop in Hc as [Hlo _].
  apply Nat.leb_le in Hlo. unfold digit_value. lia.
Qed.

(** An integer up to [Number.MAX_SAFE_INTEGER] is its own Number. *)
Lemma round_double_safe (z : Z) :
  (z <= MAX_SAFE_INTEGER)%Z -> round_double z = Num z.
Proof. intros Hz. unfold round_double. by rewrite (proj2 (Z.leb_le _ _) Hz). Qed.

(** The Number for an integer is not below the integer it rounds, up to
    [Number.MAX_SAFE_INTEGER]: a Number that is safe comes from itself. *)
Lemma round_double_Num_safe (z v : Z) :
  round_double z = Num v -> (v <= MAX_SAFE_INTEGER)%Z -> v = z.
Proof.
  unfold round_double. destruct (z <=? MAX_SAFE_INTEGER)%Z eqn:Hz.
  { by intros [= <-]. }
  apply Z.leb_gt in Hz. cbv zeta.
  set (e := (Z.log2 z - 52)%Z). set (q := Z.shiftr z e).
  set (q' := if _ : bool then (q + 1)%Z else q).
  destruct (Z.shiftl q' e <? 2 ^ 1024)%Z; [|done].
  intros [= <-] Hv. exfalso.
  assert (2 ^ 53 <= z)%Z as Hz' by (unfold MAX_SAFE_INTEGER in Hz; lia).
  assert (53 <= Z.log2 z)%Z as Hlog by (apply Z.log2_le_pow2; lia).
  assert (1 <= e)%Z as He by (unfold e; lia).
  assert (2 ^ 52 <= q)%Z as Hq.
  { unfold q. rewrite Z.shiftr_div_pow2 by lia.
    apply Z.div_le_lower_bound; [apply Z.pow_pos_nonneg; lia|].
    rewrite <- Z.pow_add_r by lia. replace (e + 52)%Z with (Z.log2 z) by (unfold e; lia).
    apply Z.log2_spec. lia. }
  assert (q <= q')%Z as Hq' by (unfold q'; destruct (_ : bool); lia).
  rewrite Z.shiftl_mul_pow2 in Hv by lia.
  assert (2 ^ 1 <= 2 ^ e)%Z as Hpow by (apply Z.pow_le_mono_r; lia).
  unfold MAX_SAFE_INTEGER in Hv. nia.
Qed.

Lemma append_assoc (a b c : string) : (a +:+ b) +:+ c = a +:+ (b +:+ c).
Proof. induction a as [|x a IH]; [done|]. by rewrite !append_cons, IH. Qed.

Lemma rev_append_spec (s acc : string) : rev_append s acc = rev s +:+ acc.
Proof.
  revert acc. induction s as [|c s IH]; intros acc; [done|].
  unfold rev. cbn [rev_append]. rewrite (IH (String c acc)), (IH (String c EmptyString)).
  by rewrite append_assoc.
Qed.

Lemma rev_cons c (s : string) : rev (String c s) = rev s +:+ String c EmptyString.
Proof. unfold rev at 1. cbn [rev_append]. apply rev_append_spec. Qed.

Lemma rev_app (a b : string) : rev (a +:+ b) = rev b +:+ rev a.
Proof.
  induction a as [|c a IH].
  - by rewrite append_nil_l, append_nil_r.
  - by rewrite append_cons, !rev_cons, IH, append_assoc.
Qed.

Lemma rev_involutive (s : string) : rev (rev s) = s.
Proof.
  induction s as [|c s IH]; [done|].
  by rewrite rev_cons, rev_app, IH.
Qed.

Lemma forallb_app f (a b : string) :
  forallb_string f (a +:+ b) = forallb_string f a && forallb_string f b.
Proof.
  induction a as [|c a IH]; [done|].
  rewrite append_cons. cbn [forallb_string]. by rewrite IH, andb_assoc.
Qed.

Lemma forallb_rev f (s : string) : forallb_string f (rev s) = forallb_string f s.
Proof.
  induction s as [|c s IH]; [done|].
  rewrite rev_cons, forallb_app, IH. cbn [forallb_string].
  by rewrite andb_true_r, andb_comm.
Qed.

Lemma span_spec f (s a b : string) :
  span f s = (a, b) -> s = a +:+ b ∧ forallb_string f a = true.
Proof.
  revert a b. induction s as [|c s IH]; intros a b H.
  - by injection H as <- <-.
  - cbn [span] in H. destruct (f c) eqn:Hc.
    + destruct (span f s) as [a' b'] eqn:Hs. injection H as <- <-.
      destruct (IH a' b' eq_refl) as [-> Ha].
      split; [done|]. cbn [forallb_string]. by rewrite Hc, Ha.
    + by injection H as <- <-.
Qed.

Lemma strip_prefix_spec (p s r : string) : strip_prefix p s = Some r <-> s = p +:+ r.
Proof.
  revert s. induction p as [|a p IH]; intros s.
  - cbn [strip_prefix]. rewrite append_nil_l. split; [by intros [= ->]|by intros ->].
  - destruct s as [|b s]; cbn [strip_prefix]; rewrite append_cons; [done|].
    destruct (Ascii.eqb_spec a b) as [->|Hne].
    + rewrite IH. split; [by intros ->|by intros [= ->]].
    + split; [done|]. intros [= ? ?]. by subst.
Qed.

Lemma strip_suffix_spec (p s r : string) : strip_suffix p s = Some r <-> s = r +:+ p.
Proof.
  unfold strip_suffix. split.
  - destruct (strip_prefix (rev p) (rev s)) as [x|] eqn:H; [|done].
    intros [= <-]. apply strip_prefix_spec in H.
    rewrite <- (rev_involutive s), H, rev_app. by rewrite rev_involutive.
  - intros ->. rewrite rev_app.
    assert (strip_prefix (rev p) (rev p +:+ rev r) = Some (rev r)) as ->
      by (by apply strip_prefix_spec).
    simpl. by rewrite rev_involutive.
Qed.

(** The version pattern of a prefix without syntax characters matches the
    names [p C digits .canvas], and yields the number the digits spell. *)
Lemma versionPattern_literal_spec (p fileName : string) (v : number) :
  versionPattern_literal p fileName = Some v <->
  ∃ ds, fileName = p +:+ "C" +:+ ds +:+ ".canvas" ∧ ds ≠ EmptyString ∧
        forallb_string is_digit ds = true ∧ v = round_double (parseInt_acc 0 ds).
Proof.
  unfold versionPattern_literal. split.
  - destruct (strip_prefix _ _) as [rest|] eqn:Hp; [|done].
    destruct (strip_suffix _ _) as [ds|] eqn:Hs; [|done].
    apply strip_prefix_spec in Hp. apply strip_suffix_spec in Hs. subst.
    destruct ds as [|c ds]; [done|].
    destruct (forallb_string is_digit (String c ds)) eqn:Hd; [|done].
    intros Heq. apply (inj Some) in Heq.
    rewrite parseInt_digits in Heq by done. subst v.
    exists (String c ds). by rewrite append_assoc.
  - intros (ds & -> & Hne & Hd & ->).
    assert (strip_prefix (p +:+ "C") (p +:+ "C" +:+ ds +:+ ".canvas")
            = Some (ds +:+ ".canvas")) as ->.
    { apply strip_prefix_spec. by rewrite append_assoc. }
    assert (strip_suffix ".canvas" (ds +:+ ".canvas") = Some ds) as ->
      by (by apply strip_suffix_spec).
    rewrite Hd. destruct ds; [done|]. by rewrite parseInt_digits.
Qed.

(** What [/(.+)C(\d+)$/] captures: a prefix that is not empty and digits
    that spell a number. *)
Lemma match_versioned_spec (baseName p ds : string) :
  match_versioned baseName = Some (p, ds) ->
  p ≠ EmptyString ∧ ds ≠ EmptyString ∧ forallb_string is_digit ds = true ∧
  ∃ before, baseName = before +:+ p +:+ "C" +:+ ds.
Proof.
  unfold match_versioned.
  destruct (span is_digit (rev baseName)) as [rds rest] eqn:Hspan.
  apply span_spec in Hspan as [Hrev Hd].
  destruct rds as [|d rds]; [done|].
  destruct rest as [|c before]; [done|].
  destruct (Ascii.eqb_spec c "C") as [->|]; [|done].
  destruct (span _ before) as [rp rbefore] eqn:Hspan2.
  apply span_spec in Hspan2 as [Hbefore _].
  destruct rp as [|x rp]; [done|].
  intros [= <- <-].
  split. { rewrite rev_cons. by destruct (rev rp). }
  split. { rewrite rev_cons. by destruct (rev rds). }
  split. { by rewrite forallb_rev. }
  exists (rev rbefore).
  rewrite <- (rev_involutive baseName), Hrev, Hbefore.
  rewrite rev_app. rewrite (rev_cons "C"), rev_app.
  by rewrite !append_assoc.
Qed.

End JsFacts.

(* ===================================================================== *)
(** * Derivation of a new view *)
(* ===================================================================== *)

Section Derivation.

Implicit Types (st : State) (sourceFilePath newFilePath : string).

Lemma updateCanvasGroup_run sourceFilePath newFilePath st :
  updateCanvasGroup sourceFilePath newFilePath st =
  (Ok tt, updateCanvasGroup_state sourceFilePath newFilePath st).
Proof.
  unfold updateCanvasGroup, updateCanvasGroup_state, findGroupForFile.
  unfold mbind at 1. unfold M_bind at 1.
  destruct (list_find _ (canvasGroups st)) as [[i g]|]; [|done].
  by case_bool_decide.
Qed.

(** The two branches of [createNewCanvasView] end alike. *)
Lemma create_and_register_run sourceFilePath newFilePath content st :
  (vault_create newFilePath content;;
   updateCanvasGroup sourceFilePath newFilePath;;
   mret (Some newFilePath)) st =
  match vault st !! newFilePath with
  | Some _ => (Throw AlreadyExists, st)
  | None =>
      if io_fault st IoCreate newFilePath then (Throw IOFailure, st)
      else (Ok (Some newFilePath),
            updateCanvasGroup_state sourceFilePath newFilePath
              (store newFilePath content st))
  end.
Proof.
  unfold mbind at 1. unfold M_bind at 1. unfold vault_create.
  destruct (vault st !! newFilePath); [done|].
  destruct (io_fault st IoCreate newFilePath); [done|].
  unfold mbind, M_bind. by rewrite updateCanvasGroup_run.
Qed.

Local Ltac finish_branch :=
  rewrite create_and_register_run; simpl;
  match goal with
  | |- context [vault ?st !! Js.replace ?a ?b ?c] =>
      destruct (vault st !! Js.replace a b c); [done|];
      by destruct (io_fault st IoCreate (Js.replace a b c))
  end.

(** The run of [createNewCanvasView] on a source that parses. *)
Local Ltac derive_branch Hv :=
  unfold mbind at 1; unfold M_bind at 1; unfold vault_read; rewrite Hv;
  destruct (io_fault _ IoRead _); [done|];
  unfold mbind at 1; unfold M_bind at 1; simpl JSON_parse;
  unfold mret at 1; unfold M_ret at 1;
  destruct (Js.match_versioned _) as [[? ?]|];
  [ unfold mbind at 1; unfold M_bind at 1; unfold findGroupForFile, nextVersion;
    destruct (list_find _ (canvasGroups _)) as [[? ?]|];
    [ unfold new_versionPattern;
      destruct (Js.regex_plain _);
      [ do 2 (unfold mbind at 1; unfold M_bind at 1);
        do 2 (unfold mret at 1; unfold M_ret at 1);
        finish_branch
      | do 3 (unfold mbind at 1; unfold M_bind at 1); unfold get;
        destruct (js_RegExp _ _); [|done];
        do 2 (unfold mret at 1; unfold M_ret at 1);
        finish_branch ]
    | unfold mbind at 1; unfold M_bind at 1;
      unfold mret at 1; unfold M_ret at 1;
      finish_branch ]
  | finish_branch ].

(** [createNewCanvasView] in one step: it fails, leaving the state as it
    was, unless the source is readable, the version pattern is accepted,
    the new path is free and the creation is not rejected. *)
Lemma createNewCanvasView_run sourceFilePath st :
  createNewCanvasView sourceFilePath st =
  match readable_source st sourceFilePath, newFilePathFor st sourceFilePath with
  | Some content, Some newFilePath =>
      match vault st !! newFilePath with
      | Some _ => (Ok None, st)
      | None =>
          if io_fault st IoCreate newFilePath then (Ok None, st)
          else (Ok (Some newFilePath),
                updateCanvasGroup_state sourceFilePath newFilePath
                  (store newFilePath content st))
      end
  | _, _ => (Ok None, st)
  end.
Proof.
  unfold createNewCanvasView, try_catch, readable_source, newFilePathFor, newFileNameFor.
  unfold mbind at 1. unfold M_bind at 1. unfold getAbstractFileByPath.
  destruct (vault st !! sourceFilePath) as [[[d|raw|raw]|]|] eqn:Hv; try done.
  - derive_branch Hv.
  - derive_branch Hv.
  - unfold mbind at 1. unfold M_bind at 1. unfold vault_read. rewrite Hv.
    destruct (io_fault st IoRead sourceFilePath); [done|].
    unfold mbind at 1. unfold M_bind at 1. done.
Qed.

Lemma store_frame newFilePath content st :
  canvasGroups (store newFilePath content st) = canvasGroups st ∧
  clock (store newFilePath content st) = clock st.
Proof. done. Qed.

(** What a successful derivation does. *)
Lemma createNewCanvasView_success sourceFilePath newFilePath st st' :
  createNewCanvasView sourceFilePath st = (Ok (Some newFilePath), st') ->
  ∃ content,
    readable_source st sourceFilePath = Some content ∧
    newFilePathFor st sourceFilePath = Some newFilePath ∧
    vault st !! newFilePath = None ∧
    io_fault st IoCreate newFilePath = false ∧
    st' = updateCanvasGroup_state sourceFilePath newFilePath
            (store newFilePath content st).
Proof.
  rewrite createNewCanvasView_run.
  destruct (readable_source st sourceFilePath) as [content|]; [|done].
  destruct (newFilePathFor st sourceFilePath) as [new|]; [|done].
  destruct (vault st !! new) eqn:Hnew; [done|].
  destruct (io_fault st IoCreate new) eqn:Hio; [done|].
  intros [= <- <-]. by exists content.
Qed.

(** C3.  After a derivation that succeeded: when the source is in a group
    (the one [findGroupForFile] returns, at position [i]), that group now
    lists the new path next to its former members (appended, with [lastSync]
    refreshed, unless it was listed already), and the registry has the same
    groups otherwise and the same number of groups; when the source is in no
    group, the registry has exactly one more group, whose files are the
    source path and the new path and whose [lastSync] is the clock. *)
Theorem derivation_group_closure sourceFilePath newFilePath st st' :
  createNewCanvasView sourceFilePath st = (Ok (Some newFilePath), st') ->
  match list_find (fun group => sourceFilePath ∈ files group) (canvasGroups st) with
  | Some (i, g) =>
      let g' := if bool_decide (newFilePath ∈ files g) then g
                else mkGroup (files g ++ [newFilePath]) (clock st) in
      canvasGroups st' = <[i := g']> (canvasGroups st) ∧
      canvasGroups st' !! i = Some g' ∧
      newFilePath ∈ files g' ∧
      (∀ p, p ∈ files g' <-> p ∈ files g ∨ p = newFilePath) ∧
      length (canvasGroups st') = length (canvasGroups st)
  | None =>
      canvasGroups st' =
        canvasGroups st ++ [mkGroup [sourceFilePath; newFilePath] (clock st)] ∧
      length (canvasGroups st') = S (length (canvasGroups st))
  end.
Proof.
  intros Hrun.
  destruct (createNewCanvasView_success _ _ _ _ Hrun) as (content & _ & _ & _ & _ & ->).
  unfold updateCanvasGroup_state.
  destruct (store_frame newFilePath content st) as [-> ->].
  destruct (list_find _ (canvasGroups st)) as [[i g]|] eqn:Hfind.
  - apply list_find_Some in Hfind as (Hi & Hsrc & _). cbv zeta.
    assert (i < length (canvasGroups st))%nat by (by eapply lookup_lt_Some).
    case_bool_decide as Hin.
    + rewrite list_insert_id by done.
      split; [done|]. split; [done|]. split; [done|]. split; [|done].
      intros p. split; [tauto|]. by intros [?| ->].
    + simpl. rewrite list_lookup_insert_eq by done. rewrite length_insert.
      split; [done|]. split; [done|].
      split; [apply elem_of_app; right; apply list_elem_of_here|]. split; [|done].
      intros p. rewrite elem_of_app, list_elem_of_singleton. done.
  - simpl. split; [done|]. rewrite length_app. simpl. lia.
Qed.

(** C4.  [createNewCanvasView] does not throw.  When it returns [null] the
    state is the one it started in: no document and no group has changed.
    It returns [null] when the source path does not resolve to a file, when
    the read is rejected, when the source does not parse, when the version
    pattern is rejected, when the computed path is taken, and when the
    creation is rejected.  In every case the documents that existed keep
    their content. *)
Theorem derivation_failure_is_atomic sourceFilePath st :
  ∃ r st',
    createNewCanvasView sourceFilePath st = (Ok r, st') ∧
    (r = None -> st' = st) ∧
    ((∀ content, vault st !! sourceFilePath ≠ Some (TFile content)) -> r = None) ∧
    (io_fault st IoRead sourceFilePath = true -> r = None) ∧
    ((∃ raw, vault st !! sourceFilePath = Some (TFile (Malformed raw))) -> r = None) ∧
    (newFilePathFor st sourceFilePath = None -> r = None) ∧
    (∀ newFilePath,
       newFilePathFor st sourceFilePath = Some newFilePath ->
       is_Some (vault st !! newFilePath) ∨ io_fault st IoCreate newFilePath = true ->
       r = None) ∧
    (∀ newFilePath, r = Some newFilePath ->
       newFilePathFor st sourceFilePath = Some newFilePath ∧
       vault st !! newFilePath = None) ∧
    (∀ p x, vault st !! p = Some x -> vault st' !! p = Some x).
Proof.
  destruct (createNewCanvasView sourceFilePath st) as [r st'] eqn:Hrun.
  pose proof Hrun as Hrun'. rewrite createNewCanvasView_run in Hrun'.
  assert (readable_source st sourceFilePath = None -> (r, st') = (Ok None, st)) as Hsrc.
  { intros Hr. by rewrite Hr in Hrun'. }
  destruct r as [[new|]|e|].
  - (* success *)
    destruct (createNewCanvasView_success _ _ _ _ Hrun)
      as (content & Hread & Hpath & Hfree & Hio & Hst').
    exists (Some new), st'. split; [done|].
    split; [done|].
    split.
    { intros Hno. unfold readable_source in Hread.
      destruct (vault st !! sourceFilePath) as [[c|]|]; try done.
      by destruct (Hno c). }
    split.
    { intros Hf. unfold readable_source in Hread. rewrite Hf in Hread.
      by destruct (vault st !! sourceFilePath) as [[[?|?|?]|]|]. }
    split.
    { intros [raw Hraw]. unfold readable_source in Hread. by rewrite Hraw in Hread. }
    split; [by rewrite Hpath|].
    split.
    { intros new' Hnew' [[x Hx]|Hc]; rewrite Hpath in Hnew';
        injection Hnew' as <-; congruence. }
    split; [by intros ? [= <-]|].
    intros p x Hp. subst st'. unfold updateCanvasGroup_state.
    assert (vault (store new content st) !! p = Some x) as Hstore.
    { simpl. rewrite lookup_insert_ne; [done|]. intros <-. congruence. }
    destruct (list_find _ _) as [[i g]|]; [case_bool_decide|]; done.
  - (* null *)
    assert (st' = st) as ->.
    { destruct (readable_source st sourceFilePath); [|by injection Hrun'].
      destruct (newFilePathFor st sourceFilePath) as [new|]; [|by injection Hrun'].
      destruct (vault st !! new); [by injection Hrun'|].
      destruct (io_fault st IoCreate new); by injection Hrun'. }
    exists None, st. repeat split; done.
  - (* no exception leaves the method *)
    exfalso.
    destruct (readable_source st sourceFilePath); [|done].
    destruct (newFilePathFor st sourceFilePath) as [new|]; [|done].
    destruct (vault st !! new); [done|].
    by destruct (io_fault st IoCreate new).
  - exfalso.
    destruct (readable_source st sourceFilePath); [|done].
    destruct (newFilePathFor st sourceFilePath) as [new|]; [|done].
    destruct (vault st !! new); [done|].
    by destruct (io_fault st IoCreate new).
Qed.

(** The scan of the version pattern over the group finds the largest
    version, when the versions are safe. *)
Lemma scanVersions_max (versionPattern : string -> option Js.number)
    (groupFiles : list string) (v0 : Z) :
  (0 <= v0 < Js.MAX_SAFE_INTEGER)%Z ->
  (∀ p v, p ∈ groupFiles -> versionPattern (Js.split_pop p) = Some v -> safe_version v) ->
  ∃ m, scanVersions versionPattern groupFiles (Js.Num v0) = Js.Num m ∧
       (m = v0 ∨ ∃ p, p ∈ groupFiles ∧ versionPattern (Js.split_pop p) = Some (Js.Num m)) ∧
       (v0 <= m < Js.MAX_SAFE_INTEGER)%Z ∧
       ∀ p z, p ∈ groupFiles -> versionPattern (Js.split_pop p) = Some (Js.Num z) -> (z <= m)%Z.
Proof.
  revert v0. induction groupFiles as [|p l IH]; intros v0 Hv0 Hsafe.
  - exists v0. split; [done|]. split; [by left|]. split; [lia|].
    intros p z Hp. by apply elem_of_nil in Hp.
  - assert (∀ q v, q ∈ l -> versionPattern (Js.split_pop q) = Some v -> safe_version v)
      as Hsafe'.
    { intros q v Hq. apply Hsafe. by apply list_elem_of_further. }
    unfold scanVersions. cbn [fold_left].
    destruct (versionPattern (Js.split_pop p)) as [v|] eqn:Hv.
    + destruct (Hsafe p v (list_elem_of_here _ _) Hv) as (z & -> & Hz).
      cbn [Js.Math_max].
      destruct (IH (Z.max v0 z)) as (m & Hm & Hatt & Hge & Hub); [lia|done|].
      exists m. split; [exact Hm|]. split; [|split; [lia|]].
      * destruct Hatt as [->|(q & Hq & Hqv)].
        -- destruct (Z.max_spec v0 z) as [[? ->]|[? ->]].
           ++ right. exists p. split; [apply list_elem_of_here|done].
           ++ by left.
        -- right. exists q. split; [by apply list_elem_of_further|done].
      * intros q zq Hq Hqv. apply elem_of_cons in Hq as [->|Hq].
        -- rewrite Hv in Hqv. injection Hqv as <-. lia.
        -- by apply (Hub q).
    + destruct (IH v0) as (m & Hm & Hatt & Hge & Hub); [done|done|].
      exists m. split; [exact Hm|]. split; [|split; [done|]].
      * destruct Hatt as [->|(q & Hq & Hqv)]; [by left|].
        right. exists q. split; [by apply list_elem_of_further|done].
      * intros q zq Hq Hqv. apply elem_of_cons in Hq as [->|Hq].
        -- by rewrite Hv in Hqv.
        -- by apply (Hub q).
Qed.

(** For a source with a versioned name whose prefix has no syntax
    character, in a group whose versions are safe: the new version is one
    more than the largest of the source's own number and the numbers of the
    members named [prefix C digits .canvas]. *)
Lemma derived_version_is_maximum_plus_one st sourceFilePath prefix digits i g :
  Js.match_versioned (Js.replace (Js.split_pop sourceFilePath) ".canvas" EmptyString)
    = Some (prefix, digits) ->
  Js.regex_plain prefix = true ->
  list_find (fun group => sourceFilePath ∈ files group) (canvasGroups st) = Some (i, g) ->
  (Js.parseInt_acc 0 digits < Js.MAX_SAFE_INTEGER)%Z ->
  safe_versions prefix (files g) ->
  ∃ m,
    newFileNameFor st sourceFilePath
      = Some (prefix +:+ "C" +:+ Js.toString (Js.Num (m + 1)) +:+ ".canvas") ∧
    (m = Js.parseInt_acc 0 digits ∨
     ∃ p, p ∈ files g ∧
          Js.versionPattern_literal prefix (Js.split_pop p) = Some (Js.Num m)) ∧
    (0 <= Js.parseInt_acc 0 digits <= m)%Z ∧ (m < Js.MAX_SAFE_INTEGER)%Z ∧
    ∀ p z, p ∈ files g ->
           Js.versionPattern_literal prefix (Js.split_pop p) = Some (Js.Num z) ->
           (z <= m)%Z.
Proof.
  intros Hmatch Hplain Hfind Hown Hsafe.
  destruct (JsFacts.match_versioned_spec _ _ _ Hmatch) as (_ & Hne & Hd & _).
  assert (0 <= Js.parseInt_acc 0 digits)%Z as Hpos
    by (by apply JsFacts.parseInt_acc_nonneg).
  destruct (scanVersions_max (Js.versionPattern_literal prefix) (files g)
              (Js.parseInt_acc 0 digits)) as (m & Hscan & Hatt & Hge & Hub);
    [lia|exact Hsafe|].
  exists m. split; [|split; [done|split; [lia|split; [lia|done]]]].
  unfold newFileNameFor. rewrite Hmatch. unfold nextVersion.
  rewrite Hfind, Hplain, (JsFacts.parseInt_digits digits Hne Hd).
  rewrite JsFacts.round_double_safe by lia. rewrite Hscan.
  cbn [Js.succ]. rewrite JsFacts.round_double_safe by lia. done.
Qed.

(** When the name of the source occurs in its path only as the last
    component, and the new name has no dollar sign, the new path is the path
    of the source with the new name in the place of the old. *)
Lemma derived_path_is_sibling st (dir name newName : string) :
  Js.split_pop (dir +:+ name) = name ->
  Js.indexOf name (dir +:+ name) = Some (String.length dir) ->
  newFileNameFor st (dir +:+ name) = Some newName ->
  no_dollar newName = true ->
  newFilePathFor st (dir +:+ name) = Some (dir +:+ newName).
Proof.
  intros Hname Hindex Hnew Hd. unfold newFilePathFor.
  rewrite Hnew, Hname. simpl. by rewrite JsFacts.replace_last_component.
Qed.

(** A source whose base name is not versioned gets the name
    [baseName C1 .canvas]. *)
Lemma unversioned_name_gets_C1 st sourceFilePath :
  Js.match_versioned (Js.replace (Js.split_pop sourceFilePath) ".canvas" EmptyString) = None ->
  newFileNameFor st sourceFilePath
    = Some (Js.replace (Js.split_pop sourceFilePath) ".canvas" EmptyString +:+ "C1.canvas").
Proof. intros H. unfold newFileNameFor. by rewrite H. Qed.

Example notes_gets_C1 :
  newFilePathFor st_scenario "folder/Notes.canvas" = Some "folder/NotesC1.canvas".
Proof. vm_compute. done. Qed.

End Derivation.

(* ===================================================================== *)
(** * Ordering and mutual exclusion in the engine *)
(* ===================================================================== *)

Module EngineFacts.
Import Engine.

Lemma beginOperation_run operation st :
  ∃ targets st1,
    beginOperation operation st = (Ok targets, st1) ∧
    processingOperations st1 = processingOperations st ∧
    operationQueue st1 = operationQueue st ∧
    vault st1 = vault st ∧ written st1 = written st.
Proof.
  unfold beginOperation, findGroupForFile.
  unfold mbind at 1. unfold M_bind at 1.
  destruct (list_find _ (canvasGroups st)) as [[i g]|].
  - eexists _, _. split; [reflexivity|]. done.
  - eexists _, _. split; [reflexivity|]. done.
Qed.

(** [executeOperation] is [beginOperation] followed by the [for] loop. *)
Lemma executeOperation_begin operation st :
  executeOperation operation st =
  (targets ← beginOperation operation;
   match targets with
   | Some targets => for_of targets (syncTarget operation)
   | None => mret tt
   end) st.
Proof.
  rewrite executeOperation_run.
  unfold executeOperation_state, beginOperation, findGroupForFile, mbind, M_bind.
  destruct (list_find _ (canvasGroups st)) as [[i g]|]; simpl; [|done].
  by rewrite for_of_syncTarget.
Qed.

(** ** Reading traces *)

Lemma read_from_None tr : fold_left read_event tr None = None.
Proof. by induction tr. Qed.

Lemma read_split t1 e t2 s0 s :
  fold_left read_event (t1 ++ e :: t2) s0 = Some s ->
  ∃ s1 s2, fold_left read_event t1 s0 = Some s1 ∧
           read_event (Some s1) e = Some s2 ∧
           fold_left read_event t2 (Some s2) = Some s.
Proof.
  rewrite fold_left_app. cbn [fold_left].
  destruct (fold_left read_event t1 s0) as [s1|] eqn:H1.
  - destruct (read_event (Some s1) e) as [s2|] eqn:H2.
    + intros H. by exists s1, s2.
    + by rewrite read_from_None.
  - simpl. by rewrite read_from_None.
Qed.

Lemma read_event_wf s e s' :
  wf_reading s -> read_event (Some s) e = Some s' -> wf_reading s'.
Proof.
  destruct s as [n [cur|]], e as [t|t p|t]; simpl; intros Hwf H; try done.
  - case_bool_decide; [|done]. by injection H as <-.
  - case_bool_decide; [|done]. by injection H as <-.
  - case_bool_decide; [|done]. injection H as <-. by subst.
Qed.

Lemma read_wf tr s s' :
  wf_reading s -> fold_left read_event tr (Some s) = Some s' -> wf_reading s'.
Proof.
  revert s. induction tr as [|e tr IH]; intros s Hwf H.
  - by injection H as <-.
  - cbn [fold_left] in H. destruct (read_event (Some s) e) as [s1|] eqn:He.
    + eapply IH; [|done]. by eapply read_event_wf.
    + by rewrite read_from_None in H.
Qed.

Lemma read_ended tr s :
  read_trace tr = Some s -> wf_reading s ∧ ended_below tr s.
Proof.
  revert s. induction tr as [|e tr IH] using rev_ind; intros s H.
  - injection H as <-. split; [done|]. intros i Hi. simpl in Hi. lia.
  - unfold read_trace in H. rewrite fold_left_app in H. simpl in H.
    destruct (fold_left read_event tr (Some (0%nat, None))) as [s1|] eqn:H1; [|done].
    destruct (IH s1 H1) as [Hwf Hend].
    split; [by eapply read_event_wf|].
    intros i Hi Hcur. apply elem_of_app.
    destruct s1 as [n [cur|]], e as [t|t p|t]; simpl in H; try done.
    + case_bool_decide; [|done]. injection H as <-. left. by apply Hend.
    + case_bool_decide; [|done]. injection H as <-. subst t.
      unfold wf_reading in Hwf. simpl in *.
      destruct (decide (i = cur)) as [->|Hne].
      * right. apply list_elem_of_here.
      * left. apply Hend; simpl; [done|congruence].
    + case_bool_decide; [|done]. injection H as <-. subst t. simpl in *.
      left. apply Hend; simpl; [|done].
      destruct (decide (i = n)) as [->|]; [done|lia].
Qed.

Lemma read_writes_above tr s s' i path :
  wf_reading s -> fold_left read_event tr (Some s) = Some s' ->
  EvWrite i path ∈ tr -> (floor s <= i)%nat.
Proof.
  revert s. induction tr as [|e tr IH]; intros s Hwf H Hin.
  { by apply elem_of_nil in Hin. }
  cbn [fold_left] in H. destruct (read_event (Some s) e) as [s1|] eqn:He;
    [|by rewrite read_from_None in H].
  assert (wf_reading s1) as Hwf1 by (by eapply read_event_wf).
  assert (floor s <= floor s1)%nat as Hmono.
  { destruct s as [n [cur|]], e as [t|t p|t]; simpl in He; try done;
      case_bool_decide; try done; injection He as <-;
      unfold floor, wf_reading in *; simpl in *; lia. }
  apply elem_of_cons in Hin as [<-|Hin].
  - destruct s as [n [cur|]]; simpl in He; [|done].
    case_bool_decide; [|done]. subst. unfold floor. simpl. lia.
  - specialize (IH s1 Hwf1 H Hin). lia.
Qed.

Lemma read_begun tr s : read_trace tr = Some s -> begun tr = seq 0 s.1.
Proof.
  revert s. induction tr as [|e tr IH] using rev_ind; intros s H.
  - by injection H as <-.
  - unfold read_trace in H. rewrite fold_left_app in H. simpl in H.
    destruct (fold_left read_event tr (Some (0%nat, None))) as [s1|] eqn:H1; [|done].
    unfold begun. rewrite omap_app. fold (begun tr). rewrite (IH s1 H1).
    destruct s1 as [n [cur|]], e as [t|t p|t]; simpl in H; try done;
      case_bool_decide; try done; injection H as <-; simpl.
    + by rewrite app_nil_r.
    + by rewrite app_nil_r.
    + subst t. change (0 :: seq 1 n)%nat with (seq 0 (S n)). by rewrite seq_S.
Qed.

Lemma read_own_writes tag (paths : list string) n :
  fold_left read_event (EvWrite tag <$> paths) (Some (n, Some tag)) = Some (n, Some tag).
Proof.
  induction paths as [|p l IH]; [done|].
  cbn [fmap list_fmap fold_left]. simpl read_event.
  rewrite bool_decide_true by done. apply IH.
Qed.

(** ** The invariant of the engine *)

Lemma inv_initial c : initial c -> inv c.
Proof.
  intros (Hp & Hq & Hl & Ht & Hs & Htr). exists (0%nat, None).
  rewrite Htr, Ht, Hs, Hl, Hq. done.
Qed.

Lemma inv_submit c operation c' :
  inv c -> step c (Submit operation) = Some c' -> inv c'.
Proof.
  intros ([n cur] & Hread & Htags & Hsub & Hloops) Hstep. simpl in *.
  destruct (processingOperations (st c)) eqn:Hp; injection Hstep as <-.
  - exists (n, cur). simpl. rewrite length_app, Htags, Hsub. simpl.
    split; [done|]. split; [by rewrite Nat.add_1_r, seq_S|]. split; [lia|].
    destruct (loops c) as [|[|tag op rest] [|? ?]]; try done; try tauto.
    destruct Hloops as (? & _); congruence.
  - exists (n, cur). simpl. rewrite length_app, Htags, Hsub. simpl.
    split; [done|]. split; [by rewrite Nat.add_1_r, seq_S|]. split; [lia|].
    destruct (loops c) as [|[|tag op rest] [|? ?]]; try done;
      destruct Hloops as (? & ?); try congruence.
    tauto.
Qed.

Lemma inv_tick c t c' : inv c -> step c (Tick t) = Some c' -> inv c'.
Proof.
  intros (s & Hread & Htags & Hsub & Hloops) [= <-]. by exists s.
Qed.

Lemma inv_resume c k c' : inv c -> step c (Resume k) = Some c' -> inv c'.
Proof.
  intros ([n cur] & Hread & Htags & Hsub & Hloops) Hstep. simpl in *.
  destruct (loops c) as [|pc [|? ?]] eqn:Hl;
    [by destruct k| |by destruct pc].
  destruct k as [|k]; [|done]. simpl in Hstep.
  destruct pc as [|tag operation remaining].
  - (* at the head of the loop *)
    destruct Hloops as [Hp ->].
    destruct (operationQueue (st c)) as [|operation rest] eqn:Hq.
    + injection Hstep as <-. exists (n, None). simpl. rewrite Hl, Hq. done.
    + destruct (beginOperation_run operation
                  (set_operationQueue (fun _ => rest) (st c)))
        as (targets & st2 & Hrun & Hp2 & Hq2 & _).
      rewrite Hrun in Hstep. simpl in Hp2, Hq2.
      simpl in Htags, Hsub. rewrite Htags in Hstep. simpl in Hstep.
      destruct targets as [targets|]; injection Hstep as <-.
      * exists (S n, Some n). simpl. rewrite Hq2, Hp2.
        split; [|split; [done|split; [lia|done]]].
        unfold read_trace in *. rewrite fold_left_app, Hread. simpl.
        by rewrite bool_decide_true.
      * exists (S n, None). simpl. rewrite Hq2, Hp2.
        split; [|split; [done|split; [lia|done]]].
        unfold read_trace in *. rewrite fold_left_app, Hread. simpl.
        rewrite bool_decide_true by done. simpl.
        by rewrite bool_decide_true.
  - (* inside [executeOperation] *)
    destruct Hloops as [Hp ->].
    destruct remaining as [|filePath remaining].
    + injection Hstep as <-. exists (n, None). simpl.
      split; [|done].
      unfold read_trace in *. rewrite fold_left_app, Hread. simpl.
      by rewrite bool_decide_true.
    + rewrite syncTarget_run in Hstep. injection Hstep as <-.
      destruct (syncTarget_state_frame operation filePath (st c))
        as (_ & _ & _ & _ & Hp2 & Hq2 & _).
      cbv zeta in Hp2, Hq2.
      exists (n, Some tag). simpl. rewrite Hq2, Hp2.
      split; [|done].
      unfold read_trace in *. rewrite fold_left_app, Hread.
      apply read_own_writes.
Qed.

Lemma inv_step c a c' : inv c -> step c a = Some c' -> inv c'.
Proof.
  destruct a; [apply inv_submit|apply inv_resume|apply inv_tick].
Qed.

Lemma reachable_inv c : reachable c -> inv c.
Proof.
  induction 1 as [c Hinit|c a c' _ IH Hstep].
  - by apply inv_initial.
  - by eapply inv_step.
Qed.

(** ** The drain loop runs to its end *)

Lemma list_find_files (P : list string -> Prop) `{!∀ fs, Decision (P fs)}
    (groups1 groups2 : list CanvasGroup) :
  files <$> groups1 = files <$> groups2 ->
  (prod_map id files <$> list_find (fun g => P (files g)) groups1) =
  (prod_map id files <$> list_find (fun g => P (files g)) groups2).
Proof.
  revert groups2. induction groups1 as [|g1 l1 IH]; intros [|g2 l2] Heq; try done.
  injection Heq as Hg Hl. cbn [list_find]. rewrite <- Hg.
  destruct (decide (P (files g1))); [simpl; by rewrite Hg|].
  specialize (IH l2 Hl).
  destruct (list_find _ l1) as [[i a]|], (list_find _ l2) as [[j b]|]; simpl in *;
    try done.
  by injection IH as -> ->.
Qed.

Lemma cost_files groups1 groups2 operation :
  files <$> groups1 = files <$> groups2 -> cost groups1 operation = cost groups2 operation.
Proof.
  intros Heq. unfold cost.
  pose proof (list_find_files (fun fs => sourceFile operation ∈ fs) _ _ Heq) as H.
  destruct (list_find _ groups1) as [[i a]|], (list_find _ groups2) as [[j b]|];
    simpl in H; try done.
  injection H as _ Hf. by rewrite Hf.
Qed.

Lemma queue_cost_files groups1 groups2 queue :
  files <$> groups1 = files <$> groups2 -> queue_cost groups1 queue = queue_cost groups2 queue.
Proof.
  intros Heq. induction queue as [|op l IH]; [done|].
  simpl. by rewrite IH, (cost_files _ _ _ Heq).
Qed.

Lemma beginOperation_cost operation st :
  ∃ targets st1,
    beginOperation operation st = (Ok targets, st1) ∧
    files <$> canvasGroups st1 = files <$> canvasGroups st ∧
    cost (canvasGroups st) operation =
      match targets with Some targets => 2 + length targets | None => 1 end%nat.
Proof.
  unfold beginOperation, findGroupForFile, cost.
  unfold mbind at 1. unfold M_bind at 1.
  destruct (list_find _ (canvasGroups st)) as [[i g]|] eqn:Hfind.
  - eexists _, _. split; [reflexivity|]. split; [|done]. simpl.
    apply list_find_Some in Hfind as (Hi & _).
    rewrite list_fmap_insert. simpl. apply list_insert_id.
    by rewrite list_lookup_fmap, Hi.
  - eexists _, _. split; [reflexivity|]. done.
Qed.

(** A resumption of the activation takes the measure down by one. *)
Lemma resume_measure c :
  inv c -> loops c ≠ [] ->
  ∃ c', step c (Resume 0) = Some c' ∧ S (measure c') = measure c ∧
        submitted c' = submitted c.
Proof.
  intros ([n cur] & Hread & Htags & Hsub & Hloops) Hne. simpl in *.
  unfold measure.
  destruct (loops c) as [|pc [|? ?]] eqn:Hl; [done| |by destruct pc].
  simpl. destruct pc as [|tag operation remaining].
  - destruct (operationQueue (st c)) as [|operation rest] eqn:Hq.
    + eexists. split; [reflexivity|]. simpl. by rewrite Hl.
    + destruct (beginOperation_cost operation
                  (set_operationQueue (fun _ => rest) (st c)))
        as (targets & st2 & Hrun & Hfiles & Hcost).
      destruct (beginOperation_run operation
                  (set_operationQueue (fun _ => rest) (st c)))
        as (targets' & st2' & Hrun' & _ & Hq2 & _).
      rewrite Hrun in Hrun'. injection Hrun' as <- <-.
      rewrite Hrun. simpl in Hfiles, Hcost, Hq2.
      change (queue_cost (canvasGroups (st c)) (operation :: rest))
        with (cost (canvasGroups (st c)) operation +
              queue_cost (canvasGroups (st c)) rest)%nat.
      rewrite Hcost, <- (queue_cost_files _ _ rest Hfiles).
      destruct targets as [targets|].
      * eexists. split; [reflexivity|]. simpl. rewrite Hq2. split; [lia|done].
      * eexists. split; [reflexivity|]. simpl. rewrite Hq2. done.
  - destruct remaining as [|filePath remaining].
    + eexists. split; [reflexivity|]. simpl. split; [lia|done].
    + rewrite syncTarget_run.
      destruct (syncTarget_state_frame operation filePath (st c))
        as (_ & _ & _ & Hg & _ & Hq2 & _).
      cbv zeta in Hg, Hq2.
      eexists. split; [reflexivity|]. simpl. rewrite Hg, Hq2. done.
Qed.

Lemma resume_n_reachable n c c' :
  reachable c -> resume_n n c = Some c' -> reachable c'.
Proof.
  revert c. induction n as [|n IH]; intros c Hc H.
  - by injection H as <-.
  - cbn [resume_n] in H. destruct (step c (Resume 0)) as [c1|] eqn:Hstep; [|done].
    eapply IH; [|done]. by eapply reachable_step.
Qed.

Lemma drain_terminates c :
  reachable c ->
  ∃ c', resume_n (measure c) c = Some c' ∧ loops c' = [] ∧
        submitted c' = submitted c.
Proof.
  intros Hc. remember (measure c) as m eqn:Hm. revert c Hc Hm.
  induction m as [|m IH]; intros c Hc Hm.
  - exists c. split; [done|]. split; [|done].
    unfold measure in Hm. destruct (loops c) as [|[|? ? ?] ?]; [done|lia|lia].
  - assert (loops c ≠ []) as Hne.
    { intros Hl. unfold measure in Hm. by rewrite Hl in Hm. }
    destruct (resume_measure c (reachable_inv c Hc) Hne) as (c1 & Hstep & Hmeas & Hsub).
    destruct (IH c1) as (c' & Hrun & Hl & Hsub').
    { by eapply reachable_step. }
    { lia. }
    exists c'. cbn [resume_n]. rewrite Hstep. simpl.
    split; [done|]. split; [done|]. congruence.
Qed.

Lemma resume_n_add a b c :
  resume_n (a + b) c = resume_n a c ≫= resume_n b.
Proof.
  revert c. induction a as [|a IH]; intros c; [done|].
  cbn [Nat.add resume_n]. destruct (step c (Resume 0)) as [c1|]; [|done].
  simpl. apply IH.
Qed.

Lemma resume_n_S n c c1 :
  step c (Resume 0) = Some c1 -> resume_n (S n) c = resume_n n c1.
Proof. intros H. cbn [resume_n]. by rewrite H. Qed.

Lemma fold_executeOperation_with_engine queue b queue0 st :
  fold_left (fun s op => executeOperation_state op s) queue (with_engine b queue0 st) =
  with_engine b queue0 (fold_left (fun s op => executeOperation_state op s) queue st).
Proof.
  revert st. induction queue as [|op rest IH]; intros st; [done|].
  cbn [fold_left]. by rewrite executeOperation_state_with_engine, IH.
Qed.

(** The [for] loop, one resumption for each target and one to return. *)
Lemma resume_targets tag operation remaining stc tgs sub tr :
  ∃ tr',
    resume_n (S (length remaining))
      (mkConfig stc [InOperation tag operation remaining] tgs sub tr) =
    Some (mkConfig (syncTargets_state operation remaining stc) [AtHead] tgs sub tr').
Proof.
  revert stc tr. induction remaining as [|p rest IH]; intros stc tr.
  - eexists. reflexivity.
  - destruct (IH (syncTarget_state operation p stc)
                 (tr ++ (EvWrite tag <$> new_writes stc (syncTarget_state operation p stc))))
      as [tr' Hrun].
    exists tr'. cbn [length].
    rewrite (resume_n_S _ _
      (mkConfig (syncTarget_state operation p stc) [InOperation tag operation rest] tgs sub
                (tr ++ (EvWrite tag <$> new_writes stc (syncTarget_state operation p stc)))))
      by (simpl; by rewrite syncTarget_run).
    exact Hrun.
Qed.

Lemma resume_drains queue stc tgs sub tr :
  operationQueue stc = queue ->
  ∃ m tgs' tr',
    resume_n m (mkConfig stc [AtHead] tgs sub tr) =
    Some (mkConfig (with_engine false []
                      (fold_left (fun s op => executeOperation_state op s) queue stc))
                   [] tgs' sub tr').
Proof.
  revert stc tgs tr. induction queue as [|operation rest IH]; intros stc tgs tr Hq.
  - exists 1%nat, tgs, tr.
    rewrite (resume_n_S _ _ (retire 0 (mkConfig stc [AtHead] tgs sub tr)))
      by (simpl; by rewrite Hq).
    simpl. unfold retire. simpl. do 2 f_equal. destruct stc; simpl in *; by subst.
  - set (st1 := with_engine (processingOperations stc) rest stc).
    cbn [fold_left].
    unfold executeOperation_state at 2.
    destruct (list_find (fun group => sourceFile operation ∈ files group) (canvasGroups stc))
      as [[i g]|] eqn:Hfind.
    + (* the source is in a group *)
      destruct (resume_targets (hd 0%nat tgs) operation (files g)
                  (set_canvasGroups (<[i := mkGroup (files g) (clock st1)]>) st1)
                  (tl tgs) sub (tr ++ [EvBegin (hd 0%nat tgs)])) as [tr1 Hfor].
      destruct (IH (syncTargets_state operation (files g)
                      (set_canvasGroups (<[i := mkGroup (files g) (clock st1)]>) st1))
                   (tl tgs) tr1) as (m & tgs' & tr' & Hrest).
      { by destruct (syncTargets_state_frame operation (files g)
                       (set_canvasGroups (<[i := mkGroup (files g) (clock st1)]>) st1))
          as (_ & _ & _ & _ & _ & -> & _). }
      exists (S (S (length (files g)) + m))%nat, tgs', tr'.
      rewrite (resume_n_S _ _
        (mkConfig (set_canvasGroups (<[i := mkGroup (files g) (clock st1)]>) st1)
                  [InOperation (hd 0%nat tgs) operation (files g)]
                  (tl tgs) sub (tr ++ [EvBegin (hd 0%nat tgs)]))).
      2:{ simpl. rewrite Hq.
          unfold beginOperation, findGroupForFile, mbind, M_bind, Date_now, modify. simpl.
          by rewrite Hfind. }
      rewrite resume_n_add, Hfor. cbn [mbind option_bind]. rewrite Hrest. do 2 f_equal.
      change (set_canvasGroups (<[i := mkGroup (files g) (clock st1)]>) st1)
        with (with_engine (processingOperations stc) rest
                (set_canvasGroups (<[i := mkGroup (files g) (clock stc)]>) stc)).
      rewrite syncTargets_state_with_engine, fold_executeOperation_with_engine.
      done.
    + (* the source is in no group *)
      destruct (IH st1 (tl tgs) (tr ++ [EvBegin (hd 0%nat tgs); EvEnd (hd 0%nat tgs)]))
        as (m & tgs' & tr' & Hrest); [done|].
      exists (S m), tgs', tr'.
      rewrite (resume_n_S _ _
        (mkConfig st1 [AtHead] (tl tgs) sub
                  (tr ++ [EvBegin (hd 0%nat tgs); EvEnd (hd 0%nat tgs)]))).
      2:{ simpl. rewrite Hq.
          unfold beginOperation, findGroupForFile, mbind, M_bind. simpl.
          by rewrite Hfind. }
      rewrite Hrest. do 2 f_equal.
      unfold st1. by rewrite fold_executeOperation_with_engine.
Qed.

(** X20.  With no other caller in between, the engine does what
    [processOperation] does when it is run to its end: from a configuration
    with no activation, the submission followed by some number of
    resumptions reaches a configuration with no activation whose state is
    the state [processOperation] returns. *)
Lemma engine_runs_processOperation fuel operation c :
  loops c = [] -> processingOperations (st c) = false ->
  (length (operationQueue (st c)) < fuel)%nat ->
  ∃ m c1 c',
    step c (Submit operation) = Some c1 ∧ resume_n m c1 = Some c' ∧
    loops c' = [] ∧
    processOperation fuel operation (st c) = (Ok tt, st c').
Proof.
  intros Hl Hp Hfuel.
  destruct (resume_drains (operationQueue (st c) ++ [operation])
              (set_processingOperations true
                 (set_operationQueue (fun queue => queue ++ [operation]) (st c)))
              (tags c ++ [submitted c]) (S (submitted c)) (trace c) eq_refl)
    as (m & tgs' & tr' & Hrun).
  eexists m, _, _. split.
  { simpl. rewrite Hp, Hl. reflexivity. }
  split; [exact Hrun|]. split; [done|].
  rewrite processOperation_idle by done. simpl. f_equal.
  change (set_processingOperations true
            (set_operationQueue (fun queue => queue ++ [operation]) (st c)))
    with (with_engine true (operationQueue (st c) ++ [operation]) (st c)).
  by rewrite fold_executeOperation_with_engine.
Qed.

(** X21.  A submission that arrives while the body of the [for] loop is
    under way (between its two [await]s) appends to the queue, which the body
    does not read: it may as well come before the body or after it. *)
Lemma submit_commutes_with_target c submission tag operation filePath remaining :
  loops c = [InOperation tag operation (filePath :: remaining)] ->
  processingOperations (st c) = true ->
  (step c (Submit submission) ≫= fun c1 => step c1 (Resume 0)) =
  (step c (Resume 0) ≫= fun c1 => step c1 (Submit submission)).
Proof.
  intros Hl Hp.
  destruct (syncTarget_state_frame operation filePath (st c))
    as (_ & _ & _ & _ & Hp2 & Hq2 & _). cbv zeta in Hp2, Hq2.
  assert (syncTarget_state operation filePath
            (set_operationQueue (fun queue => queue ++ [submission]) (st c)) =
          set_operationQueue (fun queue => queue ++ [submission])
            (syncTarget_state operation filePath (st c))) as Hcomm.
  { change (set_operationQueue (fun queue => queue ++ [submission]) (st c))
      with (with_engine (processingOperations (st c))
              (operationQueue (st c) ++ [submission]) (st c)).
    rewrite syncTarget_state_with_engine.
    unfold set_operationQueue, with_engine. by rewrite Hp2, Hq2. }
  cbn [step]. cbn [processingOperations set_operationQueue]. rewrite Hp.
  cbn [mbind option_bind]. cbn [step loops]. rewrite Hl. cbn [lookup list_lookup mbind option_bind].
  rewrite !syncTarget_run. cbn [mbind option_bind step st].
  rewrite Hcomm. cbn [processingOperations set_operationQueue]. rewrite Hp2, Hp.
  reflexivity.
Qed.

Lemma run_reachable schedule c c' :
  reachable c -> run c schedule = Some c' -> reachable c'.
Proof.
  revert c. induction schedule as [|a l IH]; intros c Hc H.
  - by injection H as <-.
  - cbn [run] in H. destruct (step c a) as [c1|] eqn:Hstep; [|done].
    eapply IH; [|done]. by eapply reachable_step.
Qed.

(** What holds of every configuration the engine can reach: at most one
    activation, there exactly when the flag is set; a submission under the
    flag only queues; the trace is a succession of whole blocks numbered in
    order; writes of different operations do not interleave; and the
    activation runs to its end. *)
Lemma reachable_sequential c :
  reachable c ->
  (length (loops c) <= 1)%nat ∧
  (processingOperations (st c) = true <-> loops c ≠ []) ∧
  (∀ operation, processingOperations (st c) = true ->
     step c (Submit operation) =
     Some (mkConfig (set_operationQueue (fun queue => queue ++ [operation]) (st c))
                    (loops c) (tags c ++ [submitted c]) (S (submitted c)) (trace c))) ∧
  sequential (trace c) ∧
  (∃ n, begun (trace c) = seq 0 n ∧
        tags c = seq n (length (operationQueue (st c))) ∧
        submitted c = (n + length (operationQueue (st c)))%nat) ∧
  (∀ t1 j path t2, trace c = t1 ++ EvWrite j path :: t2 ->
     ∀ i, (i < j)%nat -> EvEnd i ∈ t1 ∧ ∀ q, EvWrite i q ∉ t2) ∧
  (∃ c', resume_n (measure c) c = Some c' ∧
         loops c' = [] ∧ processingOperations (st c') = false ∧
         operationQueue (st c') = [] ∧
         begun (trace c') = seq 0 (submitted c) ∧
         ∀ i, (i < submitted c)%nat -> EvEnd i ∈ trace c').
Proof.
  intros Hc. pose proof (reachable_inv c Hc) as ([n cur] & Hread & Htags & Hsub & Hloops).
  simpl in *.
  split.
  { destruct (loops c) as [|pc [|? ?]]; simpl; [lia|lia|by destruct pc]. }
  split.
  { destruct (loops c) as [|[|? ? ?] [|? ?]]; try done.
    - destruct Hloops as (-> & _). split; [done|]. by intros [].
    - destruct Hloops as (-> & _). done.
    - destruct Hloops as (-> & _). done. }
  split.
  { intros operation Hp. simpl. by rewrite Hp. }
  split.
  { unfold sequential. by rewrite Hread. }
  split.
  { exists n. split; [|done]. by rewrite (read_begun _ _ Hread). }
  split.
  { intros t1 j path t2 Htr i Hi. unfold read_trace in Hread. rewrite Htr in Hread.
    apply read_split in Hread as (s1 & s2 & H1 & He & H2).
    destruct (read_ended t1 s1 H1) as [Hwf1 Hend1].
    destruct s1 as [n1 [cur1|]]; simpl in He; [|done].
    case_bool_decide; [|done]. subst cur1. injection He as <-.
    unfold wf_reading in Hwf1. simpl in Hwf1.
    split.
    - apply Hend1; simpl; [lia|]. intros [= ->]. lia.
    - intros q Hq.
      pose proof (read_writes_above t2 (n1, Some j) _ i q Hwf1 H2 Hq) as Hfloor.
      unfold floor in Hfloor. simpl in Hfloor. lia. }
  destruct (drain_terminates c Hc) as (c' & Hrun & Hl & Hsub').
  exists c'. split; [done|]. split; [done|].
  assert (reachable c') as Hc' by (by eapply resume_n_reachable).
  destruct (reachable_inv c' Hc') as ([n' cur'] & Hread' & Htags' & Hsub'' & Hloops').
  rewrite Hl in Hloops'. simpl in *. destruct Hloops' as (Hp' & Hq' & ->).
  rewrite Hq' in Hsub''. simpl in Hsub''.
  assert (n' = submitted c) as -> by lia.
  split; [done|]. split; [done|].
  split; [by rewrite (read_begun _ _ Hread')|].
  intros i Hi. destruct (read_ended _ _ Hread') as [_ Hend]. by apply Hend.
Qed.

End EngineFacts.

(* ===================================================================== *)
(** * The handlers as an algebra of edits *)
(* ===================================================================== *)

Section Algebra.

Implicit Types (canvasData : CanvasData) (data : OperationData).

Lemma canvas_eq canvasData1 canvasData2 :
  nodes canvasData1 = nodes canvasData2 -> edges canvasData1 = edges canvasData2 ->
  canvasData1 = canvasData2.
Proof. destruct canvasData1, canvasData2. simpl. by intros -> ->. Qed.

Lemma handleCreateNode_nodes canvasData nodeData :
  nodes (handleCreateNode canvasData nodeData) =
  if bool_decide (node_id nodeData = "__proto__" ∧
                  nodes canvasData !! node_id nodeData = None)
  then nodes canvasData
  else <[node_id nodeData := nodeData]> (nodes canvasData).
Proof. unfold handleCreateNode. by case_bool_decide. Qed.

Lemma handleCreateNode_edges canvasData nodeData :
  edges (handleCreateNode canvasData nodeData) = edges canvasData.
Proof. unfold handleCreateNode. by case_bool_decide. Qed.

Lemma handleUpdateNodeText_edges canvasData nodeId newText :
  edges (handleUpdateNodeText canvasData nodeId newText) = edges canvasData.
Proof. unfold handleUpdateNodeText. by destruct (nodes canvasData !! nodeId). Qed.

Lemma handleUpdateNodeText_nodes canvasData nodeId newText :
  nodes (handleUpdateNodeText canvasData nodeId newText) =
  alter (with_text newText) nodeId (nodes canvasData).
Proof.
  unfold handleUpdateNodeText.
  destruct (nodes canvasData !! nodeId) as [node|] eqn:Hn; simpl.
  - apply map_eq. intros k. destruct (decide (k = nodeId)) as [->|Hne].
    + by rewrite lookup_insert_eq, lookup_alter_eq, Hn.
    + by rewrite lookup_insert_ne, lookup_alter_ne.
  - apply map_eq. intros k. destruct (decide (k = nodeId)) as [->|Hne].
    + by rewrite lookup_alter_eq, Hn.
    + by rewrite lookup_alter_ne.
Qed.

(** Applying an operation a second time changes nothing. *)
Lemma applyOperation_again canvasData data :
  applyOperation (applyOperation canvasData data) data = applyOperation canvasData data.
Proof.
  destruct data as [nodeData|nodeId|nodeId newText]; cbn [applyOperation].
  - apply canvas_eq; [|by rewrite !handleCreateNode_edges].
    rewrite (handleCreateNode_nodes (handleCreateNode _ _)), handleCreateNode_nodes.
    destruct (bool_decide (node_id nodeData = "__proto__" ∧
                           nodes canvasData !! node_id nodeData = None)) eqn:H1.
    + by rewrite H1.
    + rewrite bool_decide_false; [by rewrite insert_insert_eq|].
      intros [_ Hn]. by rewrite lookup_insert_eq in Hn.
  - apply canvas_eq.
    + simpl. apply delete_delete_eq.
    + rewrite !handleDeleteNode_edges. apply list_filter_filter_l. done.
  - apply canvas_eq; [|by rewrite !handleUpdateNodeText_edges].
    rewrite !handleUpdateNodeText_nodes. apply map_eq. intros k.
    destruct (decide (k = nodeId)) as [->|Hne].
    + rewrite !lookup_alter_eq. by destruct (nodes canvasData !! nodeId).
    + by rewrite !lookup_alter_ne.
Qed.

Lemma handleDeleteNode_nodes canvasData nodeId :
  nodes (handleDeleteNode canvasData nodeId) = delete nodeId (nodes canvasData).
Proof. done. Qed.

(** The nodes after an operation, looked up at a key other than the node
    the operation is about. *)
Lemma applyOperation_lookup_ne canvasData data k :
  k ≠ operation_nodeId data ->
  nodes (applyOperation canvasData data) !! k = nodes canvasData !! k.
Proof.
  intros Hk. destruct data as [nodeData|nodeId|nodeId newText];
    cbn [applyOperation operation_nodeId] in *.
  - rewrite handleCreateNode_nodes. case_bool_decide; [done|].
    by rewrite lookup_insert_ne.
  - rewrite handleDeleteNode_nodes. by rewrite lookup_delete_ne.
  - rewrite handleUpdateNodeText_nodes. by rewrite lookup_alter_ne.
Qed.

Lemma applyOperation_lookup_eq canvasData data :
  nodes (applyOperation canvasData data) !! operation_nodeId data =
  node_after data (nodes canvasData !! operation_nodeId data).
Proof.
  destruct data as [nodeData|nodeId|nodeId newText];
    cbn [applyOperation operation_nodeId node_after].
  - rewrite handleCreateNode_nodes.
    destruct (bool_decide _) eqn:H; [|by rewrite lookup_insert_eq].
    apply bool_decide_eq_true in H. by destruct H.
  - rewrite handleDeleteNode_nodes. apply lookup_delete_eq.
  - rewrite handleUpdateNodeText_nodes. apply lookup_alter_eq.
Qed.

Lemma applyOperation_edges canvasData data :
  edges (applyOperation canvasData data) = edges_after data (edges canvasData).
Proof.
  destruct data; cbn [applyOperation edges_after].
  - apply handleCreateNode_edges.
  - apply handleDeleteNode_edges.
  - apply handleUpdateNodeText_edges.
Qed.

Lemma edges_after_commute data1 data2 l :
  edges_after data2 (edges_after data1 l) = edges_after data1 (edges_after data2 l).
Proof.
  destruct data1, data2; cbn [edges_after]; try done.
  rewrite !list_filter_filter. apply list_filter_iff. tauto.
Qed.

(** X1.  The three handlers are idempotent: a document to which an
    operation has been applied is not changed by applying the same
    operation again. *)
Theorem applyOperation_idempotent canvasData data :
  applyOperation (applyOperation canvasData data) data = applyOperation canvasData data.
Proof. apply applyOperation_again. Qed.

(** X2.  Two operations about different nodes commute: applied in either
    order they give the same document. *)
Theorem applyOperation_commute canvasData data1 data2 :
  operation_nodeId data1 ≠ operation_nodeId data2 ->
  applyOperation (applyOperation canvasData data1) data2 =
  applyOperation (applyOperation canvasData data2) data1.
Proof.
  intros Hne. apply canvas_eq.
  - apply map_eq. intros k.
    destruct (decide (k = operation_nodeId data1)) as [->|H1].
    + rewrite (applyOperation_lookup_ne _ data2) by done.
      rewrite !applyOperation_lookup_eq.
      by rewrite (applyOperation_lookup_ne _ data2).
    + rewrite (applyOperation_lookup_ne _ data1 k) by done.
      destruct (decide (k = operation_nodeId data2)) as [->|H2].
      * rewrite !applyOperation_lookup_eq.
        by rewrite (applyOperation_lookup_ne _ data1).
      * rewrite !(applyOperation_lookup_ne _ data2 k) by done.
        by rewrite (applyOperation_lookup_ne _ data1 k).
  - rewrite !applyOperation_edges. apply edges_after_commute.
Qed.

(** X3.  On a document in which every edge ends on nodes of the document,
    an operation gives such a document again; and after [DeleteNode] no edge
    mentions the deleted node. *)
Theorem applyOperation_keeps_edges_closed canvasData data :
  edges_closed canvasData ->
  edges_closed (applyOperation canvasData data) ∧
  (∀ nodeId e, data = DeleteNode nodeId -> e ∈ edges (applyOperation canvasData data) ->
               ¬ references nodeId e).
Proof.
  intros Hclosed. split.
  - intros e He. rewrite applyOperation_edges in He.
    assert (e ∈ edges canvasData ∧
            (∀ nodeId, data = DeleteNode nodeId -> ¬ references nodeId e)) as [Hin Hdel].
    { destruct data; cbn [edges_after] in He; try (split; [done|congruence]).
      apply list_elem_of_filter in He as [Hr Hin]. split; [done|].
      by intros ? [= <-]. }
    destruct (Hclosed e Hin) as [Hf Ht].
    assert (∀ k, is_Some (nodes canvasData !! k) ->
                 (∀ nodeId, data = DeleteNode nodeId -> k ≠ nodeId) ->
                 is_Some (nodes (applyOperation canvasData data) !! k)) as Hkeep.
    { intros k Hk Hnot. destruct (decide (k = operation_nodeId data)) as [->|Hk'].
      - rewrite applyOperation_lookup_eq.
        destruct data as [nodeData|nodeId|nodeId newText];
          cbn [node_after operation_nodeId] in *.
        + case_bool_decide as Hb; [|done]. destruct Hb as [_ Hb].
          rewrite Hb in Hk. by destruct Hk.
        + by destruct (Hnot nodeId eq_refl).
        + destruct Hk as [x ->]. done.
      - by rewrite applyOperation_lookup_ne. }
    split; apply Hkeep; try done.
    + intros nodeId Hd Heq. apply (Hdel nodeId Hd). by left.
    + intros nodeId Hd Heq. apply (Hdel nodeId Hd). by right.
  - intros nodeId e -> He. rewrite applyOperation_edges in He. cbn [edges_after] in He.
    by apply list_elem_of_filter in He as [Hr _].
Qed.

(** X4.  Creating a node and then deleting it gives the document back,
    when the document had no node of that id and no edge that mentions it. *)
Theorem create_then_delete canvasData nodeData :
  nodes canvasData !! node_id nodeData = None ->
  (∀ e, e ∈ edges canvasData -> ¬ references (node_id nodeData) e) ->
  applyOperation (applyOperation canvasData (CreateNode nodeData))
                 (DeleteNode (node_id nodeData)) = canvasData.
Proof.
  intros Hnew Hedges. apply canvas_eq.
  - cbn [applyOperation]. rewrite handleDeleteNode_nodes, handleCreateNode_nodes.
    case_bool_decide.
    + by apply delete_id.
    + by apply delete_insert_id.
  - rewrite !applyOperation_edges. cbn [edges_after].
    induction (edges canvasData) as [|e l IH]; [done|].
    rewrite filter_cons. rewrite decide_True.
    + f_equal. apply IH. intros e' He'. apply Hedges. by apply list_elem_of_further.
    + apply Hedges. apply list_elem_of_here.
Qed.

End Algebra.

(* ===================================================================== *)
(** * What propagation writes and what it leaves *)
(* ===================================================================== *)

Section Footprint.

Implicit Types (st : State) (operation : Operation) (filePath : string).

Lemma syncTarget_state_vault operation filePath st :
  vault (syncTarget_state operation filePath st) !! filePath =
  propagated operation st filePath.
Proof.
  unfold syncTarget_state, propagated. case_bool_decide; [done|].
  destruct (loadable st filePath); [|done].
  destruct (io_fault st IoModify filePath); [done|].
  simpl. apply lookup_insert_eq.
Qed.

Lemma propagated_other operation filePath st q :
  q ≠ filePath ->
  propagated operation (syncTarget_state operation filePath st) q =
  propagated operation st q.
Proof.
  intros Hq. unfold propagated.
  destruct (syncTarget_state_other operation filePath st q Hq) as [-> ->].
  destruct (syncTarget_state_frame operation filePath st) as (_ & _ & _ & _ & _ & _ & Hv).
  cbv zeta in Hv. by rewrite (Hv q Hq).
Qed.

Lemma propagated_fixed operation st st1 q :
  io_fault st1 = io_fault st ->
  vault st1 !! q = propagated operation st q ->
  propagated operation st1 q = vault st1 !! q.
Proof.
  intros Hio Hv. unfold propagated at 1. case_bool_decide as Hsrc; [done|].
  unfold loadable. rewrite Hio, Hv. unfold propagated.
  rewrite bool_decide_false by done. unfold loadable.
  destruct (vault st !! q) as [[[d|raw|raw]|]|] eqn:Hq; try done.
  destruct (io_fault st IoRead q); [done|].
  destruct (io_fault st IoModify q); [done|].
  by rewrite applyOperation_again.
Qed.

(** Visiting a target a second time writes what the first visit wrote. *)
Lemma propagated_again operation filePath st :
  propagated operation (syncTarget_state operation filePath st) filePath =
  propagated operation st filePath.
Proof.
  rewrite (propagated_fixed operation st).
  - apply syncTarget_state_vault.
  - by destruct (syncTarget_state_frame operation filePath st) as (Hio & _).
  - apply syncTarget_state_vault.
Qed.

(** The vault after the loop, at a path the loop visits: duplicates in the
    list make no difference. *)
Lemma syncTargets_state_vault operation targets st q :
  q ∈ targets ->
  vault (syncTargets_state operation targets st) !! q = propagated operation st q.
Proof.
  revert st. induction targets as [|p l IH]; intros st Hq.
  { by apply elem_of_nil in Hq. }
  cbn [syncTargets_state fold_left].
  change (fold_left _ l ?s) with (syncTargets_state operation l s).
  destruct (decide (q ∈ l)) as [Hl|Hl].
  - rewrite (IH _ Hl). destruct (decide (q = p)) as [->|Hne].
    + apply propagated_again.
    + by apply propagated_other.
  - apply elem_of_cons in Hq as [->|Hq]; [|done].
    destruct (syncTargets_state_frame operation l (syncTarget_state operation p st))
      as (_ & _ & _ & _ & _ & _ & Hv).
    cbv zeta in Hv. rewrite (Hv p Hl). apply syncTarget_state_vault.
Qed.

Lemma executeOperation_state_vault operation st q :
  vault (executeOperation_state operation st) !! q =
  match list_find (fun group => sourceFile operation ∈ files group) (canvasGroups st) with
  | Some (_, g) => if bool_decide (q ∈ files g) then propagated operation st q
                   else vault st !! q
  | None => vault st !! q
  end.
Proof.
  unfold executeOperation_state.
  destruct (list_find _ (canvasGroups st)) as [[i g]|]; [|done].
  case_bool_decide as Hq.
  - by rewrite syncTargets_state_vault.
  - destruct (syncTargets_state_frame operation (files g)
                (set_canvasGroups (<[i := mkGroup (files g) (clock st)]>) st))
      as (_ & _ & _ & _ & _ & _ & Hv).
    cbv zeta in Hv. by rewrite (Hv q Hq).
Qed.

(** X5.  The vault after [executeOperation] of an operation whose source
    is in group [g], path by path, whether or not the group lists a path
    more than once: a member other than the source that loads and accepts
    the write holds its document with the operation applied; a member that
    fails, the source, and every path outside the group hold what they
    held. *)
Theorem executeOperation_vault operation st i g :
  list_find (fun group => sourceFile operation ∈ files group) (canvasGroups st)
    = Some (i, g) ->
  ∃ st', executeOperation operation st = (Ok tt, st') ∧
    (∀ q d, q ∈ files g -> q ≠ sourceFile operation ->
            loadable st q = Some d -> io_fault st IoModify q = false ->
            vault st' !! q = Some (TFile (Canvas (applyOperation d (op_data operation))))) ∧
    (∀ q, q ∈ files g -> target_fails st q -> vault st' !! q = vault st !! q) ∧
    (∀ q, q ∉ files g ∨ q = sourceFile operation -> vault st' !! q = vault st !! q).
Proof.
  intros Hfind. exists (executeOperation_state operation st).
  split; [apply executeOperation_run|].
  pose proof (executeOperation_state_vault operation st) as Hv. rewrite Hfind in Hv.
  split; [|split].
  - intros q d Hq Hsrc Hl Hm. rewrite Hv, bool_decide_true by done.
    unfold propagated. by rewrite bool_decide_false, Hl, Hm.
  - intros q Hq Hf. rewrite Hv, bool_decide_true by done.
    unfold propagated. case_bool_decide; [done|].
    destruct Hf as [Hf|Hf]; rewrite Hf; [done|]. by destruct (loadable st q).
  - intros q [Hq| ->]; rewrite Hv.
    + by rewrite bool_decide_false.
    + case_bool_decide; [|done]. unfold propagated. by rewrite bool_decide_true.
Qed.

Lemma executeOperation_state_groups operation st :
  canvasGroups (executeOperation_state operation st) =
  match list_find (fun group => sourceFile operation ∈ files group) (canvasGroups st) with
  | Some (i, g) => <[i := mkGroup (files g) (clock st)]> (canvasGroups st)
  | None => canvasGroups st
  end.
Proof.
  unfold executeOperation_state.
  destruct (list_find _ (canvasGroups st)) as [[i g]|]; [|done].
  by destruct (syncTargets_state_frame operation (files g)
                 (set_canvasGroups (<[i := mkGroup (files g) (clock st)]>) st))
    as (_ & _ & _ & -> & _).
Qed.

Lemma list_find_refreshed (P : list string -> Prop) `{!∀ fs, Decision (P fs)}
    (groups : list CanvasGroup) i g t :
  list_find (fun g => P (files g)) groups = Some (i, g) ->
  list_find (fun g => P (files g)) (<[i := mkGroup (files g) t]> groups)
    = Some (i, mkGroup (files g) t).
Proof.
  intros Hfind. apply list_find_Some in Hfind as (Hi & HP & Hbefore).
  apply list_find_Some. split; [|split].
  - apply list_lookup_insert_eq. by eapply lookup_lt_Some.
  - done.
  - intros j y Hj Hlt. rewrite list_lookup_insert_ne in Hj by lia.
    by apply (Hbefore j).
Qed.

Lemma executeOperation_state_files operation st :
  files <$> canvasGroups (executeOperation_state operation st) = files <$> canvasGroups st.
Proof.
  rewrite executeOperation_state_groups.
  destruct (list_find _ (canvasGroups st)) as [[i g]|] eqn:Hfind; [|done].
  apply list_find_Some in Hfind as (Hi & _ & _).
  rewrite list_fmap_insert. cbn [files]. apply list_insert_id.
  by rewrite list_lookup_fmap, Hi.
Qed.

(** X6.  Executing an operation a second time, at whatever time [t] and
    with the storage layer rejecting the calls it rejected the first time,
    changes no document: the vault after the second execution is the vault
    after the first, and the groups keep their members.  The registry does
    move: [lastSync] of the group of the source is stamped again (l.172),
    now with [t], so that the registry after the second execution is the
    one after the first only as far as the clock has not moved. *)
Theorem executeOperation_redelivery operation st t :
  ∃ st1 st2,
    executeOperation operation st = (Ok tt, st1) ∧
    executeOperation operation (set_clock t st1) = (Ok tt, st2) ∧
    vault st2 = vault st1 ∧
    files <$> canvasGroups st2 = files <$> canvasGroups st1 ∧
    canvasGroups st2 =
      match list_find (fun group => sourceFile operation ∈ files group)
                      (canvasGroups st) with
      | Some (i, g) => <[i := mkGroup (files g) t]> (canvasGroups st)
      | None => canvasGroups st
      end ∧
    (t = clock st -> canvasGroups st2 = canvasGroups st1) ∧
    (canvasGroups st2 = canvasGroups st1 ->
     t = clock st ∨
     list_find (fun group => sourceFile operation ∈ files group) (canvasGroups st) = None).
Proof.
  exists (executeOperation_state operation st),
         (executeOperation_state operation
            (set_clock t (executeOperation_state operation st))).
  split; [apply executeOperation_run|]. split; [apply executeOperation_run|].
  destruct (executeOperation_state_frame operation st) as (Hio & _).
  cbv zeta in Hio.
  pose proof (executeOperation_state_groups operation st) as Hg.
  pose proof (executeOperation_state_vault operation st) as Hv.
  pose proof (executeOperation_state_files operation
                (set_clock t (executeOperation_state operation st))) as Hfiles.
  pose proof (executeOperation_state_groups operation
                (set_clock t (executeOperation_state operation st))) as Hg2.
  change (canvasGroups (set_clock t ?s)) with (canvasGroups s) in Hfiles, Hg2.
  change (clock (set_clock t ?s)) with t in Hg2.
  destruct (list_find _ (canvasGroups st)) as [[i g]|] eqn:Hfind.
  - pose proof (list_find_refreshed (fun fs => sourceFile operation ∈ fs)
                  _ _ _ (clock st) Hfind) as Hfind1.
    rewrite <- Hg in Hfind1. rewrite Hfind1 in Hg2. cbn [files] in Hg2.
    rewrite Hg, list_insert_insert_eq in Hg2.
    split; [|split; [done|split; [done|split]]].
    + apply map_eq. intros q.
      rewrite (executeOperation_state_vault operation
                 (set_clock t (executeOperation_state operation st))).
      change (canvasGroups (set_clock t ?s)) with (canvasGroups s).
      change (vault (set_clock t ?s)) with (vault s).
      rewrite Hfind1. cbn [files].
      case_bool_decide as Hq; [|done].
      apply (propagated_fixed operation st (set_clock t (executeOperation_state operation st)));
        [done|].
      change (vault (set_clock t ?s)) with (vault s).
      rewrite Hv. by rewrite bool_decide_true.
    + intros ->. by rewrite Hg2, Hg.
    + intros Heq. left. rewrite Hg2, Hg in Heq.
      apply list_find_Some in Hfind as (Hi & _ & _).
      apply (f_equal (fun l => l !! i)) in Heq.
      rewrite !list_lookup_insert_eq in Heq by (by eapply lookup_lt_Some).
      by injection Heq.
  - assert (executeOperation_state operation st = st) as Hst.
    { unfold executeOperation_state. by rewrite Hfind. }
    rewrite Hst in *. rewrite Hfind in Hg2.
    assert (executeOperation_state operation (set_clock t st) = set_clock t st) as Hst2.
    { unfold executeOperation_state.
      change (canvasGroups (set_clock t st)) with (canvasGroups st). by rewrite Hfind. }
    rewrite Hst2. split; [done|]. split; [done|]. split; [done|]. split; [done|].
    intros _. by right.
Qed.

Lemma propagated_cases operation st q :
  propagated operation st q = vault st !! q ∨
  q ≠ sourceFile operation ∧
  ∃ d, vault st !! q = Some (TFile (Canvas d)) ∧
       propagated operation st q =
         Some (TFile (Canvas (applyOperation d (op_data operation)))).
Proof.
  unfold propagated. case_bool_decide as Hsrc; [by left|].
  unfold loadable.
  destruct (vault st !! q) as [[[d|raw|raw]|]|]; try by left.
  destruct (io_fault st IoRead q); [by left|].
  destruct (io_fault st IoModify q); [by left|].
  right. split; [done|]. by exists d.
Qed.

(** X7.  What [executeOperation] can change.  No file is created or
    removed; a path whose content changes is a member of the group of the
    source, is not the source, held a document that parses, and now holds
    that document with the operation applied; the groups keep their members
    and their number. *)
Theorem executeOperation_footprint operation st :
  ∃ st', executeOperation operation st = (Ok tt, st') ∧
    dom (vault st') = dom (vault st) ∧
    (∀ q, vault st' !! q ≠ vault st !! q ->
          q ≠ sourceFile operation ∧
          (∃ i g, list_find (fun group => sourceFile operation ∈ files group)
                            (canvasGroups st) = Some (i, g) ∧ q ∈ files g) ∧
          ∃ d, vault st !! q = Some (TFile (Canvas d)) ∧
               vault st' !! q =
                 Some (TFile (Canvas (applyOperation d (op_data operation))))) ∧
    files <$> canvasGroups st' = files <$> canvasGroups st ∧
    length (canvasGroups st') = length (canvasGroups st).
Proof.
  exists (executeOperation_state operation st).
  split; [apply executeOperation_run|].
  assert (∀ q, vault (executeOperation_state operation st) !! q ≠ vault st !! q ->
          q ≠ sourceFile operation ∧
          (∃ i g, list_find (fun group => sourceFile operation ∈ files group)
                            (canvasGroups st) = Some (i, g) ∧ q ∈ files g) ∧
          ∃ d, vault st !! q = Some (TFile (Canvas d)) ∧
               vault (executeOperation_state operation st) !! q =
                 Some (TFile (Canvas (applyOperation d (op_data operation))))) as Hchange.
  { intros q. rewrite executeOperation_state_vault.
    destruct (list_find _ (canvasGroups st)) as [[i g]|]; [|done].
    case_bool_decide as Hq; [|done].
    destruct (propagated_cases operation st q) as [->|(Hsrc & d & Hd & ->)]; [done|].
    intros _. split; [done|]. split; [by exists i, g|]. by exists d. }
  split; [|split; [exact Hchange|split]].
  - apply set_eq. intros q. rewrite !elem_of_dom.
    destruct (decide (vault (executeOperation_state operation st) !! q = vault st !! q))
      as [->|Hne]; [done|].
    destruct (Hchange q Hne) as (_ & _ & d & -> & ->). done.
  - apply executeOperation_state_files.
  - pose proof (f_equal length (executeOperation_state_files operation st)) as Hl.
    by rewrite !length_fmap in Hl.
Qed.

Lemma with_engine_id st :
  with_engine (processingOperations st) (operationQueue st) st = st.
Proof. by destruct st. Qed.

(** X8.  Operations handed one after the other to an idle engine with an
    empty queue: [processOperation] does for each what [executeOperation]
    does, and the engine is idle with an empty queue at the end. *)
Theorem submissions_run_in_turn fuel (operations : list Operation) st :
  processingOperations st = false -> operationQueue st = [] -> (0 < fuel)%nat ->
  for_of operations (processOperation fuel) st = for_of operations executeOperation st ∧
  ∃ st', for_of operations (processOperation fuel) st = (Ok tt, st') ∧
         processingOperations st' = false ∧ operationQueue st' = [].
Proof.
  revert st. induction operations as [|operation l IH]; intros st Hidle Hq Hfuel.
  { split; [done|]. by exists st. }
  cbn [for_of]. unfold mbind, M_bind.
  rewrite processOperation_idle by (rewrite ?Hq; done).
  rewrite executeOperation_run. rewrite Hq. cbn [app fold_left].
  destruct (executeOperation_state_frame operation st) as (_ & _ & _ & Hp & Hqueue).
  cbv zeta in Hp, Hqueue.
  assert (with_engine false [] (executeOperation_state operation st)
          = executeOperation_state operation st) as ->.
  { rewrite <- (with_engine_id (executeOperation_state operation st)) at 2.
    by rewrite Hp, Hqueue, Hidle, Hq. }
  apply IH; [congruence|congruence|done].
Qed.

End Footprint.

(* ===================================================================== *)
(** * Version numbers in file names *)
(* ===================================================================== *)

Module JsNumbers.
Import Js.

Lemma string_of_uint_digits (d : Decimal.uint) :
  forallb_string is_digit (NilEmpty.string_of_uint d) = true.
Proof. induction d; cbn [NilEmpty.string_of_uint forallb_string]; by rewrite ?IHd. Qed.

Lemma string_of_uint_nonnil (d : Decimal.uint) :
  d ≠ Decimal.Nil ->
  NilEmpty.string_of_uint d ≠ EmptyString ∧
  NilZero.string_of_uint d = NilEmpty.string_of_uint d.
Proof. by destruct d. Qed.

Lemma of_uint_acc_parse (d : Decimal.uint) (acc : positive) :
  Z.pos (Pos.of_uint_acc d acc) = parseInt_acc (Z.pos acc) (NilEmpty.string_of_uint d).
Proof.
  revert acc.
  induction d; intros acc;
    cbn [Pos.of_uint_acc NilEmpty.string_of_uint parseInt_acc]; [done|..];
    rewrite IHd; f_equal; unfold digit_value; cbn [nat_of_ascii]; vm_compute Z.of_nat; lia.
Qed.

Lemma of_uint_parse (d : Decimal.uint) :
  Z.of_N (Pos.of_uint d) = parseInt_acc 0 (NilEmpty.string_of_uint d).
Proof.
  induction d; cbn [Pos.of_uint NilEmpty.string_of_uint parseInt_acc]; [done|exact IHd|..];
    rewrite N2Z.inj_pos, of_uint_acc_parse; done.
Qed.

(** The decimal numeral of a natural number is a string of digits that is
    not empty and that spells the number. *)
Lemma decimal_digits (z : Z) :
  (0 <= z)%Z ->
  decimal z ≠ EmptyString ∧
  forallb_string is_digit (decimal z) = true ∧
  parseInt_acc 0 (decimal z) = z.
Proof.
  intros Hz. destruct z as [|p|p]; [done| |lia].
  unfold decimal. cbn [Z.to_int NilZero.string_of_int].
  destruct (string_of_uint_nonnil (Pos.to_uint p) (DecimalPos.Unsigned.to_uint_nonnil p))
    as [Hne ->].
  split; [done|]. split; [apply string_of_uint_digits|].
  by rewrite <- of_uint_parse, DecimalPos.Unsigned.of_to.
Qed.

(** [`${n}`] for a natural number [n] up to [Number.MAX_SAFE_INTEGER] is
    the decimal numeral of [n]. *)
Lemma toString_safe (z : Z) :
  (z <= MAX_SAFE_INTEGER)%Z -> toString (Num z) = decimal z.
Proof. intros Hz. cbn [toString]. by rewrite (proj2 (Z.leb_le _ _) Hz). Qed.

Lemma toString_digits (z : Z) :
  (0 <= z <= MAX_SAFE_INTEGER)%Z ->
  toString (Num z) ≠ EmptyString ∧
  forallb_string is_digit (toString (Num z)) = true ∧
  parseInt_acc 0 (toString (Num z)) = z.
Proof. intros [Hz Hs]. rewrite toString_safe by done. by apply decimal_digits. Qed.

(** An integer that rounds to a Number that is not negative is not
    negative. *)
Lemma round_double_nonneg (c z : Z) :
  round_double c = Num z -> (0 <= z)%Z -> (0 <= c)%Z.
Proof.
  unfold round_double. destruct (c <=? MAX_SAFE_INTEGER)%Z eqn:Hc.
  - by intros [= ->].
  - apply Z.leb_gt in Hc. unfold MAX_SAFE_INTEGER in Hc. lia.
Qed.

(** The numeral that [Number::toString] chooses reads back as the Number. *)
Lemma shortest_reads_back (fuel : nat) (k d z : Z) :
  round_double z = Num z -> round_double (shortest fuel k d z) = Num z.
Proof.
  intros Hz. revert k. induction fuel as [|fuel IH]; intros k; [done|].
  cbn [shortest]. cbv zeta.
  set (c0 := (z / 10 ^ (d - k) * 10 ^ (d - k))%Z).
  set (c1 := (c0 + 10 ^ (d - k))%Z).
  destruct (bool_decide (round_double c0 = Num z)) eqn:H0;
    destruct (bool_decide (round_double c1 = Num z)) eqn:H1; cbn [andb].
  - apply bool_decide_eq_true in H0. apply bool_decide_eq_true in H1.
    destruct (z - c0 <? c1 - z)%Z; [done|].
    destruct (c1 - z <? z - c0)%Z; [done|].
    by destruct (Z.even _).
  - by apply bool_decide_eq_true in H0.
  - by apply bool_decide_eq_true in H1.
  - apply IH.
Qed.

Lemma zeros_spell_zero (s : string) (acc : Z) :
  forallb_string (Ascii.eqb "0") s = true -> parseInt_acc acc s = (acc * 10 ^ Z.of_nat (String.length s))%Z.
Proof.
  revert acc. induction s as [|c s IH]; intros acc H.
  - cbn [parseInt_acc String.length]. change (Z.of_nat 0) with 0%Z.
    rewrite Z.pow_0_r. lia.
  - cbn [forallb_string] in H. apply andb_prop in H as [Hc Hs].
    apply Ascii.eqb_eq in Hc. subst c.
    cbn [parseInt_acc String.length]. rewrite (IH _ Hs).
    change (digit_value "0") with 0%Z.
    rewrite Nat2Z.inj_succ, Z.pow_succ_r by lia. lia.
Qed.

Lemma rev_nil_inv (s : string) : rev s = EmptyString -> s = EmptyString.
Proof.
  intros H. rewrite <- (JsFacts.rev_involutive s), H. done.
Qed.

(** The exponent form is not a string of digits. *)
Lemma exponent_form_not_digits (c : Z) :
  (0 < c)%Z -> forallb_string is_digit (exponent_form c) = false.
Proof.
  intros Hc. unfold exponent_form. cbv zeta.
  destruct (strip_zeros (decimal c)) as [|first [|second rest]] eqn:Hstrip.
  2:{ rewrite !JsFacts.append_cons. cbn [forallb_string].
      change (is_digit "e") with false. by rewrite andb_false_r. }
  2:{ rewrite !JsFacts.append_cons. cbn [forallb_string].
      change (is_digit ".") with false. by rewrite andb_false_r. }
  exfalso. unfold strip_zeros in Hstrip. apply rev_nil_inv in Hstrip.
  destruct (span (Ascii.eqb "0") (rev (decimal c))) as [zeros rest] eqn:Hspan.
  cbn in Hstrip. subst rest.
  apply JsFacts.span_spec in Hspan as [Hrev Hzeros].
  rewrite JsFacts.append_nil_r in Hrev. rewrite <- Hrev in Hzeros.
  rewrite JsFacts.forallb_rev in Hzeros.
  destruct (decimal_digits c) as (_ & _ & Hspell); [lia|].
  rewrite (zeros_spell_zero _ 0 Hzeros) in Hspell. lia.
Qed.

(** What [Number::toString] prints for a Number, when it is a plain
    numeral, is a numeral that spells an integer that rounds to the
    Number. *)
Lemma toString_reads_back (z : Z) :
  (0 <= z)%Z -> round_double z = Num z ->
  forallb_string is_digit (toString (Num z)) = true ->
  toString (Num z) ≠ EmptyString ∧
  round_double (parseInt_acc 0 (toString (Num z))) = Num z.
Proof.
  intros Hz Hdouble. cbn [toString].
  destruct (z <=? MAX_SAFE_INTEGER)%Z eqn:Hsafe.
  - intros _. destruct (decimal_digits z Hz) as (Hne & _ & ->). done.
  - cbv zeta.
    set (c := shortest _ 1 _ z).
    pose proof (shortest_reads_back (Z.to_nat (Z.of_nat (String.length (decimal z)))) 1
                  (Z.of_nat (String.length (decimal z))) z Hdouble) as Hc.
    fold c in Hc.
    pose proof (round_double_nonneg c z Hc Hz) as Hc0.
    destruct (c <? 10 ^ 21)%Z eqn:Hbig.
    + intros _. destruct (decimal_digits c Hc0) as (Hne & _ & ->). done.
    + intros Hd. apply Z.ltb_ge in Hbig.
      rewrite exponent_form_not_digits in Hd; [done|lia].
Qed.

Section Rounding.

Local Open Scope Z_scope.

(** Rounding does not go below a double: an integer from 10^21 on, which is
    a double, rounds to a Number from 10^21 on. *)
Lemma round_double_above (c v : Z) :
  10 ^ 21 <= c -> round_double c = Num v -> 10 ^ 21 <= v.
Proof.
  intros Hc. unfold round_double.
  destruct (c <=? MAX_SAFE_INTEGER) eqn:Hsafe.
  { apply Z.leb_le in Hsafe. unfold MAX_SAFE_INTEGER in Hsafe. lia. }
  cbv zeta.
  assert (69 <= Z.log2 c) as Hlog.
  { change 69 with (Z.log2 (10 ^ 21)). by apply Z.log2_le_mono. }
  destruct (Z.log2_spec c) as [Hlo Hhi]; [lia|].
  set (e := Z.log2 c - 52) in *.
  assert (0 <= e) as He by lia.
  rewrite Z.shiftr_div_pow2 by done.
  set (q := c / 2 ^ e).
  assert (0 < 2 ^ e) as Hpow by (by apply Z.pow_pos_nonneg).
  assert (10 ^ 21 <= q * 2 ^ e) as Hq.
  { destruct (decide (e = 17)) as [->|Hne].
    - assert (10 ^ 21 / 2 ^ 17 <= q) as Hdiv by (by apply Z.div_le_mono).
      change (10 ^ 21 / 2 ^ 17) with 7629394531250000 in Hdiv.
      change (10 ^ 21) with (7629394531250000 * 2 ^ 17). 
      apply Z.mul_le_mono_nonneg_r; lia.
    - assert (2 ^ 52 <= q) as Hq52.
      { unfold q. apply Z.div_le_lower_bound; [done|].
        rewrite Z.mul_comm, <- Z.pow_add_r by lia.
        replace (52 + e) with (Z.log2 c) by lia. done. }
      assert (2 ^ 18 <= 2 ^ e) as He18 by (apply Z.pow_le_mono_r; lia).
      assert (2 ^ 52 * 2 ^ 18 <= q * 2 ^ e) by (apply Z.mul_le_mono_nonneg; lia).
      change (2 ^ 52 * 2 ^ 18) with 1180591620717411303424 in *.
      change (10 ^ 21) with 1000000000000000000000. lia. }
  match goal with
  | |- context [if ?b then q + 1 else q] => set (q' := if b then q + 1 else q)
  end.
  assert (q <= q') as Hq'.
  { unfold q'. match goal with |- context [if ?b then _ else _] => destruct b end; lia. }
  rewrite Z.shiftl_mul_pow2 by done.
  destruct (q' * 2 ^ e <? 2 ^ 1024); [|done].
  intros [= <-].
  assert (q * 2 ^ e <= q' * 2 ^ e) by (apply Z.mul_le_mono_nonneg_r; lia).
  lia.
Qed.

End Rounding.

(** A Number below 10^21 prints as a plain numeral. *)
Lemma toString_plain (z : Z) :
  (0 <= z)%Z -> round_double z = Num z -> (z < 10 ^ 21)%Z ->
  forallb_string is_digit (toString (Num z)) = true.
Proof.
  intros Hz Hdouble Hsmall. cbn [toString].
  destruct (z <=? MAX_SAFE_INTEGER)%Z eqn:Hsafe.
  - by destruct (decimal_digits z Hz) as (_ & ? & _).
  - cbv zeta.
    set (c := shortest _ 1 _ z).
    pose proof (shortest_reads_back (Z.to_nat (Z.of_nat (String.length (decimal z)))) 1
                  (Z.of_nat (String.length (decimal z))) z Hdouble) as Hc.
    fold c in Hc.
    pose proof (round_double_nonneg c z Hc Hz) as Hc0.
    destruct (c <? 10 ^ 21)%Z eqn:Hbig.
    + by destruct (decimal_digits c Hc0) as (_ & ? & _).
    + apply Z.ltb_ge in Hbig. pose proof (round_double_above c z Hbig Hc). lia.
Qed.

(** The version pattern recognises the names the service gives. *)
Lemma own_name_recognised (p : string) (n : Z) :
  (0 <= n <= MAX_SAFE_INTEGER)%Z ->
  versionPattern_literal p (p +:+ "C" +:+ toString (Num n) +:+ ".canvas") = Some (Num n).
Proof.
  intros Hn. destruct (toString_digits n Hn) as (Hne & Hd & Hv).
  apply JsFacts.versionPattern_literal_spec. exists (toString (Num n)).
  rewrite Hv, JsFacts.round_double_safe by lia. done.
Qed.

(** X15.  A version number printed into a file name is read back.  For
    every Number [n] that is a natural number (a double, exact or not):
    when the text of [n] is a plain numeral, [parseInt] reads it back as [n]
    and the version pattern of a prefix without syntax characters finds [n]
    in the name [prefix C n .canvas]; the text is a plain numeral when [n]
    is below 10^21; and it is the decimal numeral of [n] when [n] is at most
    [Number.MAX_SAFE_INTEGER]. *)
Theorem version_number_round_trip (p : string) (n : Z) :
  (0 <= n)%Z -> round_double n = Num n ->
  (forallb_string is_digit (toString (Num n)) = true ->
   parseInt (toString (Num n)) = Num n ∧
   versionPattern_literal p (p +:+ "C" +:+ toString (Num n) +:+ ".canvas")
     = Some (Num n)) ∧
  ((n < 10 ^ 21)%Z -> forallb_string is_digit (toString (Num n)) = true) ∧
  ((n <= MAX_SAFE_INTEGER)%Z -> toString (Num n) = decimal n).
Proof.
  intros Hn Hdouble. split; [|split].
  - intros Hd. destruct (toString_reads_back n Hn Hdouble Hd) as (Hne & Hback).
    split.
    + by rewrite JsFacts.parseInt_digits.
    + apply JsFacts.versionPattern_literal_spec. by exists (toString (Num n)).
  - by apply toString_plain.
  - apply toString_safe.
Qed.

End JsNumbers.

(* ===================================================================== *)
(** * Derived views *)
(* ===================================================================== *)

Section Views.

Implicit Types (st : State) (sourceFilePath newFilePath : string).

Lemma updateCanvasGroup_state_frame sourceFilePath newFilePath st :
  let st' := updateCanvasGroup_state sourceFilePath newFilePath st in
  vault st' = vault st ∧ written st' = written st ∧ io_fault st' = io_fault st ∧
  js_RegExp st' = js_RegExp st ∧ clock st' = clock st ∧
  processingOperations st' = processingOperations st ∧
  operationQueue st' = operationQueue st.
Proof.
  unfold updateCanvasGroup_state.
  destruct (list_find _ _) as [[i g]|]; [case_bool_decide|]; done.
Qed.

Lemma readable_source_Some st sourceFilePath content :
  readable_source st sourceFilePath = Some content ->
  vault st !! sourceFilePath = Some (TFile content) ∧
  io_fault st IoRead sourceFilePath = false ∧ ∀ raw, content ≠ Malformed raw.
Proof.
  unfold readable_source.
  destruct (vault st !! sourceFilePath) as [[[d|raw|raw]|]|]; try done;
    (destruct (io_fault st IoRead sourceFilePath); [done|]);
    by intros [= <-].
Qed.

Lemma readable_source_intro st sourceFilePath content :
  vault st !! sourceFilePath = Some (TFile content) ->
  io_fault st IoRead sourceFilePath = false -> (∀ raw, content ≠ Malformed raw) ->
  readable_source st sourceFilePath = Some content.
Proof.
  intros Hv Hio Hparse. unfold readable_source. rewrite Hv, Hio.
  destruct content as [d|raw|raw]; [done|done|]. by destruct (Hparse raw).
Qed.

(** X10.  A derivation that succeeds creates exactly one file: the new
    path was free and is not the source, the vault is the former vault with
    the content of the source (a text that parses, a canvas document or not)
    at the new path, and one write is recorded. *)
Theorem derivation_copies_source sourceFilePath newFilePath st st' :
  createNewCanvasView sourceFilePath st = (Ok (Some newFilePath), st') ->
  ∃ content,
    vault st !! sourceFilePath = Some (TFile content) ∧
    (∀ raw, content ≠ Malformed raw) ∧
    vault st !! newFilePath = None ∧
    newFilePath ≠ sourceFilePath ∧
    vault st' = <[newFilePath := TFile content]> (vault st) ∧
    vault st' !! newFilePath = vault st' !! sourceFilePath ∧
    written st' = (newFilePath, content) :: written st.
Proof.
  intros Hrun.
  destruct (createNewCanvasView_success _ _ _ _ Hrun)
    as (content & Hread & _ & Hfree & _ & ->).
  apply readable_source_Some in Hread as (Hsrc & _ & Hparse).
  destruct (updateCanvasGroup_state_frame sourceFilePath newFilePath
              (store newFilePath content st)) as (Hv & Hw & _).
  cbv zeta in Hv, Hw. rewrite Hv, Hw. cbn [store set_written set_vault vault written].
  assert (newFilePath ≠ sourceFilePath) as Hne by congruence.
  exists content. split; [done|]. split; [done|]. split; [done|]. split; [done|].
  split; [done|]. split; [|done].
  rewrite lookup_insert_eq, lookup_insert_ne by done. done.
Qed.

Lemma registry_ok_intro st :
  (∀ i g, canvasGroups st !! i = Some g -> NoDup (files g)) ->
  (∀ i g p, canvasGroups st !! i = Some g -> p ∈ files g -> is_Some (vault st !! p)) ->
  (∀ i j g h p, canvasGroups st !! i = Some g -> canvasGroups st !! j = Some h ->
                p ∈ files g -> p ∈ files h -> i = j) ->
  registry_ok st.
Proof. intros H1 H2 H3. split; [|done]. intros i g Hi. split; [by eapply H1|]. intros p. by eapply H2. Qed.

(** A path in a group of a registry in order is in the vault. *)
Lemma registry_ok_listed st i g p :
  registry_ok st -> canvasGroups st !! i = Some g -> p ∈ files g ->
  is_Some (vault st !! p).
Proof. intros [H _] Hi Hp. by apply (H i g Hi). Qed.

(** X11.  [createNewCanvasView] keeps the registry in order: if no group
    lists a path twice, no path is in two groups and every listed path is in
    the vault, the same holds after the call, whatever it returns. *)
Theorem derivation_keeps_registry_ok sourceFilePath st :
  registry_ok st ->
  ∃ r st', createNewCanvasView sourceFilePath st = (Ok r, st') ∧ registry_ok st'.
Proof.
  intros Hok. rewrite createNewCanvasView_run.
  destruct (readable_source st sourceFilePath) as [content|] eqn:Hread;
    [|by exists None, st].
  destruct (newFilePathFor st sourceFilePath) as [new|]; [|by exists None, st].
  destruct (vault st !! new) eqn:Hfree; [by exists None, st|].
  destruct (io_fault st IoCreate new); [by exists None, st|].
  eexists _, _. split; [done|].
  apply readable_source_Some in Hread as (Hsrc & _).
  assert (new ≠ sourceFilePath) as Hne by congruence.
  assert (∀ i g, canvasGroups st !! i = Some g -> new ∉ files g) as Hnew.
  { intros i g Hi Hin. destruct (registry_ok_listed st i g new Hok Hi Hin) as [x Hx].
    congruence. }
  destruct Hok as [Hgroups Hdisj].
  unfold updateCanvasGroup_state.
  change (canvasGroups (store new content st)) with (canvasGroups st).
  change (clock (store new content st)) with (clock st).
  assert (∀ p, is_Some (vault st !! p) -> is_Some (vault (store new content st) !! p))
    as Hgrow.
  { intros p Hp. cbn [store set_written set_vault vault].
    destruct (decide (p = new)) as [->|Hp']; [by rewrite lookup_insert_eq|].
    by rewrite lookup_insert_ne. }
  destruct (list_find _ (canvasGroups st)) as [[i g]|] eqn:Hfind.
  - apply list_find_Some in Hfind as (Hi & Hin & _).
    rewrite bool_decide_false by (by apply (Hnew i g)).
    assert (i < length (canvasGroups st))%nat as Hlt by (by eapply lookup_lt_Some).
    assert (∀ j h, <[i := mkGroup (files g ++ [new]) (clock st)]> (canvasGroups st) !! j
                     = Some h ->
                   ∃ h0, canvasGroups st !! j = Some h0 ∧
                         ∀ p, p ∈ files h -> p ∈ files h0 ∨ (j = i ∧ p = new)) as Hback.
    { intros j h Hj. destruct (decide (j = i)) as [->|Hji].
      - rewrite list_lookup_insert_eq in Hj by done. injection Hj as <-.
        exists g. split; [done|]. intros p Hp. cbn [files] in Hp.
        apply elem_of_app in Hp as [Hp|Hp]; [by left|].
        apply list_elem_of_singleton in Hp. by right.
      - rewrite list_lookup_insert_ne in Hj by done.
        exists h. split; [done|]. by left. }
    apply registry_ok_intro; cbn [canvasGroups set_canvasGroups].
    + intros j h Hj. destruct (decide (j = i)) as [->|Hji].
      * rewrite list_lookup_insert_eq in Hj by done. injection Hj as <-. cbn [files].
        apply NoDup_app. split; [by apply (Hgroups i g Hi)|].
        split; [|apply NoDup_singleton].
        intros p Hp Hp'. apply list_elem_of_singleton in Hp' as ->. by apply (Hnew i g).
      * rewrite list_lookup_insert_ne in Hj by done. by apply (Hgroups j h Hj).
    + intros j h p Hj Hp. destruct (Hback j h Hj) as (h0 & Hj0 & Hsub).
      change (vault (set_canvasGroups _ ?s)) with (vault s).
      destruct (Hsub p Hp) as [Hp0|[_ ->]].
      * apply Hgrow. by apply (Hgroups j h0 Hj0).
      * cbn [store set_written set_vault vault]. by rewrite lookup_insert_eq.
    + intros j k h h' p Hj Hk Hp Hp'.
      destruct (Hback j h Hj) as (h0 & Hj0 & Hsub).
      destruct (Hback k h' Hk) as (h0' & Hk0 & Hsub').
      destruct (Hsub p Hp) as [Hp0|[Hj1 Hp1]], (Hsub' p Hp') as [Hp0'|[Hk1 Hp1']].
      * by apply (Hdisj j k h0 h0' p).
      * subst p. by destruct (Hnew j h0 Hj0).
      * subst p. by destruct (Hnew k h0' Hk0).
      * congruence.
  - assert (∀ j h, canvasGroups st !! j = Some h -> sourceFilePath ∉ files h) as Hfresh.
    { intros j h Hj Hin. apply list_find_None in Hfind.
      rewrite Forall_forall in Hfind. apply (Hfind h); [|done].
      by eapply list_elem_of_lookup_2. }
    assert (∀ j h, (canvasGroups st ++ [mkGroup [sourceFilePath; new] (clock st)]) !! j
                     = Some h ->
                   canvasGroups st !! j = Some h ∨
                   (j = length (canvasGroups st) ∧
                    h = mkGroup [sourceFilePath; new] (clock st))) as Hback.
    { intros j h Hj. apply lookup_app_Some in Hj as [Hj|[Hge Hj]]; [by left|].
      right. apply list_lookup_singleton_Some in Hj as [Hz <-]. split; [lia|done]. }
    assert (∀ j h, canvasGroups st !! j = Some h -> j ≠ length (canvasGroups st)) as Hlt.
    { intros j h Hj. apply lookup_lt_Some in Hj. lia. }
    apply registry_ok_intro; cbn [canvasGroups set_canvasGroups].
    + intros j h Hj. destruct (Hback j h Hj) as [Hj0|[-> ->]].
      * by apply (Hgroups j h Hj0).
      * cbn [files]. apply NoDup_cons. split; [|apply NoDup_singleton].
        intros Hin. apply list_elem_of_singleton in Hin. congruence.
    + intros j h p Hj Hp.
      change (vault (set_canvasGroups _ ?s)) with (vault s).
      destruct (Hback j h Hj) as [Hj0|[-> ->]].
      * apply Hgrow. by apply (Hgroups j h Hj0).
      * cbn [files] in Hp. apply elem_of_cons in Hp as [->|Hp].
        -- apply Hgrow. by rewrite Hsrc.
        -- apply list_elem_of_singleton in Hp as ->.
           cbn [store set_written set_vault vault]. by rewrite lookup_insert_eq.
    + assert (∀ p, p ∈ [sourceFilePath; new] ->
                   ∀ j h, canvasGroups st !! j = Some h -> p ∉ files h) as Hout.
      { intros p Hp j h Hj. apply elem_of_cons in Hp as [->|Hp]; [by apply (Hfresh j h)|].
        apply list_elem_of_singleton in Hp as ->. by apply (Hnew j h). }
      intros j k h h' p Hj Hk Hp Hp'.
      destruct (Hback j h Hj) as [Hj0|[-> ->]], (Hback k h' Hk) as [Hk0|[-> ->]].
      * by apply (Hdisj j k h h' p).
      * by destruct (Hout p Hp' j h Hj0).
      * by destruct (Hout p Hp k h' Hk0).
      * done.
Qed.

(** X12.  A source whose name bears no version number derives once: after
    a derivation that succeeded, the next derivation from the same source
    computes the same path, finds it taken, returns [null] and changes
    nothing. *)
Theorem unversioned_source_derives_once sourceFilePath newFilePath st st' :
  Js.match_versioned (Js.replace (Js.split_pop sourceFilePath) ".canvas" EmptyString) = None ->
  createNewCanvasView sourceFilePath st = (Ok (Some newFilePath), st') ->
  createNewCanvasView sourceFilePath st' = (Ok None, st').
Proof.
  intros Hname Hrun.
  destruct (createNewCanvasView_success _ _ _ _ Hrun)
    as (content & Hread & Hpath & Hfree & _ & ->).
  destruct (readable_source_Some _ _ _ Hread) as (Hsrc & Hio & Hparse).
  assert (newFilePath ≠ sourceFilePath) as Hne by congruence.
  destruct (updateCanvasGroup_state_frame sourceFilePath newFilePath
              (store newFilePath content st)) as (Hv & _ & Hf & _).
  cbv zeta in Hv, Hf.
  set (st1 := updateCanvasGroup_state sourceFilePath newFilePath
                (store newFilePath content st)) in *.
  rewrite createNewCanvasView_run.
  assert (readable_source st1 sourceFilePath = Some content) as ->.
  { apply readable_source_intro; [|by rewrite Hf|done].
    rewrite Hv. cbn [store set_written set_vault vault].
    by rewrite lookup_insert_ne. }
  assert (newFilePathFor st1 sourceFilePath = Some newFilePath) as ->.
  { rewrite <- Hpath. unfold newFilePathFor, newFileNameFor. by rewrite Hname. }
  rewrite Hv. cbn [store set_written set_vault vault]. by rewrite lookup_insert_eq.
Qed.

Lemma forallb_weaken (f g : ascii -> bool) (s : string) :
  (∀ c, f c = true -> g c = true) ->
  Js.forallb_string f s = true -> Js.forallb_string g s = true.
Proof.
  intros Hfg. induction s as [|c s IH]; [done|]. cbn [Js.forallb_string].
  intros H. apply andb_prop in H as [Hc Hs]. by rewrite (Hfg c Hc), IH.
Qed.

Lemma regex_plain_no_dollar (p : string) : Js.regex_plain p = true -> no_dollar p = true.
Proof.
  apply forallb_weaken. intros c Hc.
  destruct (Ascii.eqb_spec c "$") as [->|]; [|done]. by vm_compute in Hc.
Qed.

Lemma digits_no_dollar (ds : string) :
  Js.forallb_string Js.is_digit ds = true -> no_dollar ds = true.
Proof.
  apply forallb_weaken. intros c Hc.
  destruct (Ascii.eqb_spec c "$") as [->|]; [|done]. by vm_compute in Hc.
Qed.

Lemma forallb_take f (n : nat) (s : string) :
  Js.forallb_string f s = true -> Js.forallb_string f (Js.take n s) = true.
Proof.
  revert s. induction n as [|n IH]; intros s H; [done|].
  destruct s as [|c s]; [done|]. cbn [Js.take Js.forallb_string] in *.
  apply andb_prop in H as [-> H]. by rewrite IH.
Qed.

Lemma forallb_drop f (n : nat) (s : string) :
  Js.forallb_string f s = true -> Js.forallb_string f (Js.drop n s) = true.
Proof.
  revert s. induction n as [|n IH]; intros s H; [done|].
  destruct s as [|c s]; [done|]. cbn [Js.drop Js.forallb_string] in *.
  apply andb_prop in H as [_ H]. by apply IH.
Qed.

Lemma no_dollar_app (a b : string) : no_dollar (a +:+ b) = no_dollar a && no_dollar b.
Proof. apply JsFacts.forallb_app. Qed.

(** Removing [.canvas] from a name brings no dollar sign. *)
Lemma base_name_no_dollar (name : string) :
  no_dollar name = true -> no_dollar (Js.replace name ".canvas" EmptyString) = true.
Proof.
  intros H. unfold Js.replace. destruct (Js.indexOf ".canvas" name) as [i|]; [|done].
  cbv zeta. cbn [Js.getSubstitution]. unfold no_dollar in *.
  rewrite JsFacts.forallb_app, JsFacts.append_nil_l.
  by rewrite forallb_take, forallb_drop.
Qed.

(** X13.  The view derived from a member of a group whose name is
    [prefix C digits], for a prefix without syntax characters, when the
    number of the source and the numbers of the members named
    [prefix C n .canvas] are below [Number.MAX_SAFE_INTEGER] (so that the
    arithmetic of the service, which is that of doubles, is exact): its name
    is [prefix C (m+1) .canvas], where [m] is the largest of these numbers;
    no member of the group bears that name; and when the name of the source
    occurs in its path only as the last component, the new path is its
    sibling. *)
Theorem derivation_next_version sourceFilePath newFilePath st st' prefix digits i g :
  createNewCanvasView sourceFilePath st = (Ok (Some newFilePath), st') ->
  Js.match_versioned (Js.replace (Js.split_pop sourceFilePath) ".canvas" EmptyString)
    = Some (prefix, digits) ->
  Js.regex_plain prefix = true ->
  list_find (fun group => sourceFilePath ∈ files group) (canvasGroups st) = Some (i, g) ->
  (Js.parseInt_acc 0 digits < Js.MAX_SAFE_INTEGER)%Z ->
  safe_versions prefix (files g) ->
  ∃ m newFileName,
    newFileName = prefix +:+ "C" +:+ Js.toString (Js.Num (m + 1)) +:+ ".canvas" ∧
    newFilePath = Js.replace sourceFilePath (Js.split_pop sourceFilePath) newFileName ∧
    (m = Js.parseInt_acc 0 digits ∨
     ∃ p, p ∈ files g ∧
          Js.versionPattern_literal prefix (Js.split_pop p) = Some (Js.Num m)) ∧
    (Js.parseInt_acc 0 digits <= m)%Z ∧
    (∀ p z, p ∈ files g ->
            Js.versionPattern_literal prefix (Js.split_pop p) = Some (Js.Num z) ->
            (z <= m)%Z) ∧
    (∀ p, p ∈ files g -> Js.split_pop p ≠ newFileName) ∧
    (∀ dir, sourceFilePath = dir +:+ Js.split_pop sourceFilePath ->
            Js.indexOf (Js.split_pop sourceFilePath) sourceFilePath
              = Some (String.length dir) ->
            newFilePath = dir +:+ newFileName) ∧
    Js.toString (Js.Num (m + 1)) = Js.decimal (m + 1).
Proof.
  intros Hrun Hmatch Hplain Hfind Hown Hsafe.
  destruct (createNewCanvasView_success _ _ _ _ Hrun) as (_ & _ & Hpath & _).
  destruct (derived_version_is_maximum_plus_one st sourceFilePath prefix digits i g
              Hmatch Hplain Hfind Hown Hsafe) as (m & Hname & Hatt & Hge & Hle & Hub).
  assert (0 <= m + 1 <= Js.MAX_SAFE_INTEGER)%Z as Hpos' by lia.
  unfold newFilePathFor in Hpath. rewrite Hname in Hpath. injection Hpath as <-.
  exists m, (prefix +:+ "C" +:+ Js.toString (Js.Num (m + 1)) +:+ ".canvas").
  split; [done|]. split; [done|]. split; [done|]. split; [lia|]. split; [done|].
  split; [|split].
  - intros p Hp Hp'.
    pose proof (JsNumbers.own_name_recognised prefix (m + 1) Hpos') as Hrec.
    rewrite <- Hp' in Hrec. pose proof (Hub p (m + 1)%Z Hp Hrec). lia.
  - intros dir Hdir Hindex. rewrite Hdir at 1. rewrite Hdir in Hindex at 2.
    apply JsFacts.replace_last_component; [done|].
    destruct (JsNumbers.toString_digits (m + 1) Hpos') as (_ & Hds & _).
    rewrite !no_dollar_app.
    by rewrite (regex_plain_no_dollar prefix Hplain), (digits_no_dollar _ Hds).
  - apply JsNumbers.toString_safe. lia.
Qed.

(** X14.  The first view of a document whose name bears no version number
    and no dollar sign, and occurs in its path only as the last component:
    the new path is the path of the source with [C1] before [.canvas]
    (more exactly, with the first [.canvas] removed and [C1.canvas]
    appended). *)
Theorem unversioned_derivation_path (dir name : string) newFilePath st st' :
  createNewCanvasView (dir +:+ name) st = (Ok (Some newFilePath), st') ->
  Js.split_pop (dir +:+ name) = name ->
  Js.indexOf name (dir +:+ name) = Some (String.length dir) ->
  Js.match_versioned (Js.replace name ".canvas" EmptyString) = None ->
  no_dollar name = true ->
  newFilePath = dir +:+ Js.replace name ".canvas" EmptyString +:+ "C1.canvas".
Proof.
  intros Hrun Hpop Hindex Hmatch Hdollar.
  destruct (createNewCanvasView_success _ _ _ _ Hrun) as (_ & _ & Hpath & _).
  unfold newFilePathFor, newFileNameFor in Hpath. rewrite Hpop, Hmatch in Hpath.
  injection Hpath as <-.
  rewrite JsFacts.replace_last_component; [|done|].
  - done.
  - rewrite no_dollar_app. by rewrite base_name_no_dollar.
Qed.

End Views.

(* ===================================================================== *)
(** * The registry *)
(* ===================================================================== *)

Section Registry.

Implicit Types (st : State) (operation : Operation).

Lemma registry_ok_same_files st st' :
  files <$> canvasGroups st' = files <$> canvasGroups st ->
  dom (vault st') = dom (vault st) ->
  registry_ok st -> registry_ok st'.
Proof.
  intros Hfiles Hdom [Hgroups Hdisj].
  assert (∀ i g', canvasGroups st' !! i = Some g' ->
                  ∃ g, canvasGroups st !! i = Some g ∧ files g = files g') as Hback.
  { intros i g' Hi.
    assert ((files <$> canvasGroups st) !! i = Some (files g')) as H.
    { by rewrite <- Hfiles, list_lookup_fmap, Hi. }
    rewrite list_lookup_fmap in H.
    destruct (canvasGroups st !! i) as [g|]; [|done].
    exists g. split; [done|]. by injection H. }
  split.
  - intros i g' Hi. destruct (Hback i g' Hi) as (g & Hg & <-).
    destruct (Hgroups i g Hg) as [Hnd Hin]. split; [done|].
    intros p Hp. apply elem_of_dom. rewrite Hdom. apply elem_of_dom. by apply Hin.
  - intros i j g' h' p Hi Hj Hp Hp'.
    destruct (Hback i g' Hi) as (g & Hg & Heq), (Hback j h' Hj) as (h & Hh & Heq').
    rewrite <- Heq in Hp. rewrite <- Heq' in Hp'. by apply (Hdisj i j g h p).
Qed.

Lemma executeOperation_state_dom operation st :
  dom (vault (executeOperation_state operation st)) = dom (vault st).
Proof.
  apply set_eq. intros q. rewrite !elem_of_dom, executeOperation_state_vault.
  destruct (list_find _ (canvasGroups st)) as [[i g]|]; [|done].
  case_bool_decide; [|done].
  by destruct (propagated_cases operation st q) as [->|(_ & d & -> & ->)].
Qed.

Lemma executeOperation_state_registry_ok operation st :
  registry_ok st -> registry_ok (executeOperation_state operation st).
Proof.
  apply registry_ok_same_files.
  - apply executeOperation_state_files.
  - apply executeOperation_state_dom.
Qed.

Lemma fold_executeOperation_registry_ok (queue : list Operation) st :
  registry_ok st ->
  registry_ok (fold_left (fun s op => executeOperation_state op s) queue st).
Proof.
  revert st. induction queue as [|op rest IH]; intros st Hok; [done|].
  cbn [fold_left]. apply IH. by apply executeOperation_state_registry_ok.
Qed.

(** X9.  [executeOperation] and [processOperation] keep the registry in
    order. *)
Theorem propagation_keeps_registry_ok fuel operation st :
  registry_ok st ->
  processingOperations st = false ->
  (length (operationQueue st) < fuel)%nat ->
  (∃ st', executeOperation operation st = (Ok tt, st') ∧ registry_ok st') ∧
  (∃ st', processOperation fuel operation st = (Ok tt, st') ∧ registry_ok st').
Proof.
  intros Hok Hidle Hfuel. split.
  - eexists. split; [apply executeOperation_run|].
    by apply executeOperation_state_registry_ok.
  - eexists. split; [by apply processOperation_idle|].
    pose proof (fold_executeOperation_registry_ok (operationQueue st ++ [operation]) st Hok)
      as [H1 H2].
    split; done.
Qed.

Lemma list_find_delete_gone {A} (P : A -> Prop) `{!∀ x, Decision (P x)} (l : list A) index :
  (∀ j x, l !! j = Some x -> P x -> j = index) ->
  list_find P (delete index l) = None.
Proof.
  intros Honly. apply list_find_None, Forall_forall. intros x Hx HP.
  apply list_elem_of_lookup in Hx as [j Hj].
  destruct (decide (j < index)%nat) as [Hlt|Hge].
  - rewrite list_lookup_delete_lt in Hj by done. pose proof (Honly j x Hj HP). lia.
  - rewrite list_lookup_delete_ge in Hj by lia. pose proof (Honly (S j) x Hj HP). lia.
Qed.

Lemma list_find_delete_kept {A} (P : A -> Prop) `{!∀ x, Decision (P x)} (l : list A)
    index j x :
  list_find P l = Some (j, x) -> j ≠ index ->
  list_find P (delete index l) = Some (index_after_delete index j, x).
Proof.
  intros Hfind Hne. apply list_find_Some in Hfind as (Hj & HP & Hbefore).
  apply list_find_Some. unfold index_after_delete.
  destruct (decide (j < index)%nat) as [Hlt|Hge].
  - split; [by rewrite list_lookup_delete_lt|]. split; [done|].
    intros k y Hk Hkj. rewrite list_lookup_delete_lt in Hk by lia. by apply (Hbefore k).
  - destruct j as [|j]; [lia|]. cbn [pred].
    split; [by rewrite list_lookup_delete_ge by lia|]. split; [done|].
    intros k y Hk Hkj. destruct (decide (k < index)%nat) as [Hlt|Hge'].
    + rewrite list_lookup_delete_lt in Hk by done. apply (Hbefore k); [done|lia].
    + rewrite list_lookup_delete_ge in Hk by lia. apply (Hbefore (S k)); [done|lia].
Qed.

(** X16.  Deleting a group in the settings tab, on a registry in order:
    no file is touched, the registry stays in order and has one group fewer,
    the members of the deleted group are in no group (so that an operation
    from one of them changes nothing), and every other path keeps its group,
    one position lower if it came after the deleted one. *)
Theorem deleting_a_group_unlinks_its_files index g st :
  registry_ok st ->
  canvasGroups st !! index = Some g ->
  ∃ st', deleteGroup_onClick true index st = (Ok tt, st') ∧
    vault st' = vault st ∧
    registry_ok st' ∧
    length (canvasGroups st') = (length (canvasGroups st) - 1)%nat ∧
    (∀ p, p ∈ files g -> findGroupForFile p st' = (Ok None, st')) ∧
    (∀ operation, sourceFile operation ∈ files g ->
                  executeOperation operation st' = (Ok tt, st')) ∧
    (∀ p j h, p ∉ files g ->
              findGroupForFile p st = (Ok (Some (j, h)), st) ->
              findGroupForFile p st' = (Ok (Some (index_after_delete index j, h)), st')).
Proof.
  intros [Hgroups Hdisj] Hindex.
  exists (set_canvasGroups (fun _ => delete index (canvasGroups st)) st).
  split; [done|]. split; [done|].
  assert (∀ p, p ∈ files g ->
            list_find (fun group => p ∈ files group) (delete index (canvasGroups st)) = None)
    as Hgone.
  { intros p Hp. apply list_find_delete_gone. intros j h Hj Hin.
    by apply (Hdisj j index h g p). }
  assert (∀ j h, delete index (canvasGroups st) !! j = Some h ->
                 ∃ j', canvasGroups st !! j' = Some h ∧
                       j' = if decide (j < index)%nat then j else S j) as Hback.
  { intros j h Hj. destruct (decide (j < index)%nat).
    - rewrite list_lookup_delete_lt in Hj by done. by exists j.
    - rewrite list_lookup_delete_ge in Hj by lia. by exists (S j). }
  split; [|split; [|split; [|split]]].
  - split.
    + intros j h Hj. cbn [canvasGroups set_canvasGroups] in Hj.
      destruct (Hback j h Hj) as (j' & Hj' & _). by apply (Hgroups j').
    + intros j k h h' p Hj Hk Hp Hp'. cbn [canvasGroups set_canvasGroups] in Hj, Hk.
      destruct (Hback j h Hj) as (j' & Hj' & Hjj), (Hback k h' Hk) as (k' & Hk' & Hkk).
      pose proof (Hdisj j' k' h h' p Hj' Hk' Hp Hp') as Heq.
      repeat case_decide; lia.
  - cbn [canvasGroups set_canvasGroups]. rewrite length_delete; [done|by eexists].
  - intros p Hp. unfold findGroupForFile. cbn [canvasGroups set_canvasGroups].
    by rewrite (Hgone p Hp).
  - intros operation Hsrc. rewrite executeOperation_run. f_equal.
    unfold executeOperation_state. cbn [canvasGroups set_canvasGroups].
    by rewrite (Hgone _ Hsrc).
  - intros p j h Hp Hfind. unfold findGroupForFile in *.
    cbn [canvasGroups set_canvasGroups]. injection Hfind as Hfind.
    rewrite (list_find_delete_kept _ _ index j h Hfind); [done|].
    intros ->. apply list_find_Some in Hfind as (Hj & Hin & _). congruence.
Qed.

(** After [updateCanvasGroup] the group of the source lists the new path. *)
Lemma updateCanvasGroup_state_joined sourceFilePath newFilePath st :
  ∃ i g,
    list_find (fun group => sourceFilePath ∈ files group)
              (canvasGroups (updateCanvasGroup_state sourceFilePath newFilePath st))
      = Some (i, g) ∧
    sourceFilePath ∈ files g ∧ newFilePath ∈ files g.
Proof.
  unfold updateCanvasGroup_state.
  destruct (list_find _ (canvasGroups st)) as [[i g]|] eqn:Hfind.
  - pose proof Hfind as Hfind'.
    apply list_find_Some in Hfind' as (Hi & Hsrc & Hbefore).
    case_bool_decide as Hnew.
    + exists i, g. by rewrite Hfind.
    + exists i, (mkGroup (files g ++ [newFilePath]) (clock st)).
      assert (i < length (canvasGroups st))%nat as Hlt by (by eapply lookup_lt_Some).
      cbn [canvasGroups set_canvasGroups files].
      split; [|split].
      * apply list_find_Some. split; [by apply list_lookup_insert_eq|].
        split; [cbn [files]; apply elem_of_app; by left|].
        intros j y Hj Hji. rewrite list_lookup_insert_ne in Hj by lia.
        by apply (Hbefore j).
      * apply elem_of_app. by left.
      * apply elem_of_app. right. apply list_elem_of_here.
  - exists (length (canvasGroups st)), (mkGroup [sourceFilePath; newFilePath] (clock st)).
    cbn [canvasGroups set_canvasGroups files].
    split; [|split].
    + apply list_find_Some.
      split; [by rewrite lookup_app_r, Nat.sub_diag by lia|].
      split; [apply list_elem_of_here|].
      intros j y Hj Hlt. rewrite lookup_app_l in Hj by done.
      apply list_find_None in Hfind. rewrite Forall_forall in Hfind.
      apply (Hfind y). by eapply list_elem_of_lookup_2.
    + apply list_elem_of_here.
    + apply list_elem_of_further, list_elem_of_here.
Qed.

(** The derivation copies whatever the source parses to.  When that is a
    value without a [nodes] member, the new view joins the group all the
    same, and no operation from the source is ever written to it: every
    handler throws on it (l.217, 223, 236) and the [catch] of l.208 drops
    the target. *)
Lemma derived_view_without_nodes sourceFilePath newFilePath st st' raw data :
  vault st !! sourceFilePath = Some (TFile (NoNodes raw)) ->
  createNewCanvasView sourceFilePath st = (Ok (Some newFilePath), st') ->
  (∃ i g, list_find (fun group => sourceFilePath ∈ files group) (canvasGroups st')
          = Some (i, g) ∧ newFilePath ∈ files g) ∧
  ∃ st'', executeOperation (mkOperation data sourceFilePath) st' = (Ok tt, st'') ∧
          vault st'' !! newFilePath = Some (TFile (NoNodes raw)).
Proof.
  intros Hd Hrun.
  destruct (createNewCanvasView_success _ _ _ _ Hrun)
    as (content & Hread & _ & Hfree & _ & Hst').
  destruct (readable_source_Some _ _ _ Hread) as (Hsrc & Hio & _).
  assert (content = NoNodes raw) as -> by congruence.
  assert (newFilePath ≠ sourceFilePath) as Hne by congruence.
  destruct (updateCanvasGroup_state_frame sourceFilePath newFilePath
              (store newFilePath (NoNodes raw) st)) as (Hv & _ & Hf & _).
  cbv zeta in Hv, Hf. rewrite <- Hst' in Hv, Hf.
  cbn [store set_written set_vault vault io_fault] in Hv, Hf.
  destruct (updateCanvasGroup_state_joined sourceFilePath newFilePath
              (store newFilePath (NoNodes raw) st)) as (i & g & Hfind & Hin & Hin').
  rewrite <- Hst' in Hfind.
  split; [by exists i, g|].
  eexists. split; [apply executeOperation_run|].
  rewrite executeOperation_state_vault. cbn [sourceFile]. rewrite Hfind.
  rewrite bool_decide_true by done. unfold propagated. cbn [sourceFile op_data].
  rewrite bool_decide_false by done.
  unfold loadable. rewrite Hv, lookup_insert_eq. done.
Qed.

(** X22.  A view derived from a canvas document is kept in sync from then
    on: when the source holds a canvas document and the derivation succeeds,
    an operation from the source reaches the new view, which then holds the
    document of the source at the time of the derivation with the operation
    applied; and, on a registry in order, an operation from the new view
    reaches the source likewise.  The reads and writes concerned are taken
    not to be rejected.  (The derivation itself never looks at what the
    source parses to: [derived_view_without_nodes] is the other case.) *)
Theorem derived_view_is_kept_in_sync sourceFilePath newFilePath st st' d data :
  vault st !! sourceFilePath = Some (TFile (Canvas d)) ->
  createNewCanvasView sourceFilePath st = (Ok (Some newFilePath), st') ->
  (io_fault st IoRead newFilePath = false ->
   io_fault st IoModify newFilePath = false ->
   ∃ st'', executeOperation (mkOperation data sourceFilePath) st' = (Ok tt, st'') ∧
           vault st'' !! newFilePath = Some (TFile (Canvas (applyOperation d data)))) ∧
  (registry_ok st ->
   io_fault st IoModify sourceFilePath = false ->
   ∃ st'', executeOperation (mkOperation data newFilePath) st' = (Ok tt, st'') ∧
           vault st'' !! sourceFilePath = Some (TFile (Canvas (applyOperation d data)))).
Proof.
  intros Hd Hrun.
  destruct (createNewCanvasView_success _ _ _ _ Hrun)
    as (content & Hread & _ & Hfree & _ & Hst').
  destruct (readable_source_Some _ _ _ Hread) as (Hsrc & Hio & _).
  assert (content = Canvas d) as -> by congruence.
  assert (newFilePath ≠ sourceFilePath) as Hne by congruence.
  destruct (updateCanvasGroup_state_frame sourceFilePath newFilePath
              (store newFilePath (Canvas d) st)) as (Hv & _ & Hf & _).
  cbv zeta in Hv, Hf. rewrite <- Hst' in Hv, Hf.
  cbn [store set_written set_vault vault io_fault] in Hv, Hf.
  destruct (updateCanvasGroup_state_joined sourceFilePath newFilePath
              (store newFilePath (Canvas d) st)) as (i & g & Hfind & Hin & Hin').
  rewrite <- Hst' in Hfind.
  split.
  - intros Hr Hm. eexists. split; [apply executeOperation_run|].
    rewrite executeOperation_state_vault. cbn [sourceFile]. rewrite Hfind.
    rewrite bool_decide_true by done. unfold propagated. cbn [sourceFile op_data].
    rewrite bool_decide_false by done.
    unfold loadable. rewrite Hv, Hf, lookup_insert_eq, Hr, Hm. done.
  - intros Hok Hm.
    (* the new path was in no group, so its group is the group of the source *)
    assert (∀ j h, canvasGroups st !! j = Some h -> newFilePath ∉ files h) as Hout.
    { intros j h Hj Hp. destruct (registry_ok_listed st j h newFilePath Hok Hj Hp) as [x Hx].
      congruence. }
    assert (list_find (fun group => newFilePath ∈ files group) (canvasGroups st')
            = Some (i, g)) as Hfind'.
    { apply list_find_Some in Hfind as (Hi & _ & _).
      apply list_find_Some. split; [done|]. split; [done|].
      intros j y Hj Hji Hy. rewrite Hst' in Hi, Hj. revert Hi Hj.
      unfold updateCanvasGroup_state.
      change (canvasGroups (store newFilePath (Canvas d) st)) with (canvasGroups st).
      destruct (list_find _ (canvasGroups st)) as [[i0 g0]|] eqn:Hfind0.
      - apply list_find_Some in Hfind0 as (Hi0 & _ & _).
        case_bool_decide as Hnew; [by destruct (Hout i0 g0 Hi0)|].
        cbn [canvasGroups set_canvasGroups].
        assert (i0 < length (canvasGroups st))%nat as Hlt by (by eapply lookup_lt_Some).
        intros Hi Hj. destruct (decide (i = i0)) as [->|Hii].
        + rewrite list_lookup_insert_ne in Hj by lia. by destruct (Hout j y Hj).
        + destruct (decide (j = i0)) as [->|Hji0].
          * rewrite list_lookup_insert_ne in Hi by done.
            rewrite list_lookup_insert_eq in Hj by done.
            by destruct (Hout i g Hi).
          * rewrite list_lookup_insert_ne in Hj by done. by destruct (Hout j y Hj).
      - cbn [canvasGroups set_canvasGroups]. intros Hi Hj.
        apply lookup_app_Some in Hj as [Hj|[Hge Hj]]; [by destruct (Hout j y Hj)|].
        apply lookup_app_Some in Hi as [Hi|[_ Hi]]; [by destruct (Hout i g Hi)|].
        apply list_lookup_singleton_Some in Hi as [Hi _].
        apply list_lookup_singleton_Some in Hj as [Hj _]. lia. }
    eexists. split; [apply executeOperation_run|].
    rewrite executeOperation_state_vault. cbn [sourceFile]. rewrite Hfind'.
    rewrite bool_decide_true by done. unfold propagated. cbn [sourceFile op_data].
    rewrite bool_decide_false by done.
    unfold loadable. rewrite Hv, Hf, lookup_insert_ne, Hsrc, Hio, Hm by done. done.
Qed.

End Registry.

(* ===================================================================== *)
(** * The listener *)
(* ===================================================================== *)

Section ListenerFacts.

Implicit Types (st : State) (l : Listener) (leaf : WorkspaceLeaf) (filePath : string).

Local Ltac skipped_leaf :=
  split; [done|]; split; [done|]; intros ?; split; [by left|];
  intros [?|[(? & ? & ? & ? & ?) ?]]; [done|];
  try congruence;
  match goal with
  | _ : is_Some (_ !! ?p) |- is_Some (_ !! ?q) => by replace q with p by congruence
  end.

Lemma registerCanvasView_spec leaf st l :
  listener_ok l ->
  let l' := registerCanvasView leaf st l in
  listener_ok l' ∧
  registeredCanvasViews l ⊆ registeredCanvasViews l' ∧
  (∀ filePath, is_Some (registeredCanvasViews l' !! filePath) <->
     is_Some (registeredCanvasViews l !! filePath) ∨
     (shows leaf filePath ∧
      is_Some (list_find (fun group => filePath ∈ files group) (canvasGroups st)))).
Proof.
  intros Hok. cbv zeta.
  unfold registerCanvasView, shows.
  destruct (leaf_view leaf) as [view|]; [|skipped_leaf].
  destruct (view_file view) as [p|] eqn:Hfile; [|skipped_leaf].
  destruct (view_canvas view) as [canvas|] eqn:Hcanvas; [|skipped_leaf].
  case_bool_decide as Hreg; [skipped_leaf|].
  unfold findGroupForFile.
  destruct (list_find _ (canvasGroups st)) as [[i g]|] eqn:Hfind.
  2:{ split; [done|]. split; [done|]. intros q. split; [by left|].
      intros [H|[(v & c & Hv & Hf & Hc) Hg]]; [done|].
      assert (q = p) as -> by congruence. rewrite Hfind in Hg. by destruct Hg. }
  destruct Hok as [Hnd Hsub].
  split; [|split].
  - split; cbn [subscriptions registeredCanvasViews].
    + rewrite fmap_app. apply NoDup_app. split; [done|].
      split; [|apply NoDup_singleton].
      intros q Hq Hq'. apply list_elem_of_singleton in Hq'. cbn in Hq'. subst q.
      by apply Hsub in Hq.
    + intros q. rewrite fmap_app, elem_of_app, <- Hsub.
      rewrite lookup_insert_is_Some. cbn. rewrite list_elem_of_singleton.
      split.
      * intros [->|[_ H]]; [by right|by left].
      * intros [H| ->]; [|by left].
        destruct (decide (p = q)); [by left|by right].
  - cbn [registeredCanvasViews]. apply insert_subseteq. by apply eq_None_not_Some.
  - intros q. cbn [registeredCanvasViews]. rewrite lookup_insert_is_Some.
    split.
    + intros [<-|[_ H]]; [|by left]. right. split; [by exists view, canvas|].
      by rewrite Hfind.
    + intros [H|[(v & c & Hv & Hf & Hc) _]].
      * destruct (decide (p = q)); [by left|by right].
      * left. congruence.
Qed.

(** X17.  [checkForNewCanvasViews] on a listener whose subscriptions are
    those of its registered views, one for each: the same holds afterwards;
    the views registered before stay registered; and a path is registered
    afterwards exactly when it was before or some leaf shows it on a canvas
    and it is in a group. *)
Theorem checkForNewCanvasViews_registers_once (leaves : list WorkspaceLeaf) st l :
  listener_ok l ->
  let l' := checkForNewCanvasViews leaves st l in
  listener_ok l' ∧
  registeredCanvasViews l ⊆ registeredCanvasViews l' ∧
  (∀ filePath, is_Some (registeredCanvasViews l' !! filePath) <->
     is_Some (registeredCanvasViews l !! filePath) ∨
     ((∃ leaf, leaf ∈ leaves ∧ shows leaf filePath) ∧
      is_Some (list_find (fun group => filePath ∈ files group) (canvasGroups st)))).
Proof.
  cbv zeta. revert l. induction leaves as [|leaf rest IH]; intros l Hok.
  { split; [done|]. split; [done|]. intros p. split; [by left|].
    intros [H|[(leaf & Hin & _) _]]; [done|]. by apply elem_of_nil in Hin. }
  unfold checkForNewCanvasViews. cbn [fold_left].
  change (fold_left _ rest ?x) with (checkForNewCanvasViews rest st x).
  destruct (registerCanvasView_spec leaf st l Hok) as (Hok1 & Hsub1 & Hreg1).
  cbv zeta in Hok1, Hsub1, Hreg1.
  destruct (IH _ Hok1) as (Hok2 & Hsub2 & Hreg2).
  split; [done|]. split; [by etrans|].
  intros p. rewrite Hreg2, Hreg1. split.
  - intros [[H|[Hshow Hg]]|[(lf & Hin & Hshow) Hg]].
    + by left.
    + right. split; [|done]. exists leaf. split; [apply list_elem_of_here|done].
    + right. split; [|done]. exists lf. split; [by apply list_elem_of_further|done].
  - intros [H|[(lf & Hin & Hshow) Hg]]; [by left; left|].
    apply elem_of_cons in Hin as [->|Hin].
    + left. by right.
    + right. split; [by exists lf|done].
Qed.

Lemma processOperation_alone fuel operation st :
  processingOperations st = false -> operationQueue st = [] -> (0 < fuel)%nat ->
  processOperation fuel operation st = (Ok tt, executeOperation_state operation st).
Proof.
  intros Hidle Hq Hfuel.
  rewrite processOperation_idle by (rewrite ?Hq; done).
  rewrite Hq. cbn [app fold_left].
  destruct (executeOperation_state_frame operation st) as (_ & _ & _ & Hp & Hqueue).
  cbv zeta in Hp, Hqueue.
  rewrite <- (with_engine_id (executeOperation_state operation st)) at 2.
  by rewrite Hp, Hqueue, Hidle, Hq.
Qed.

(** An operation from a member of a group, handed to an idle engine,
    reaches a member that loads and accepts the write. *)
Lemma processOperation_reaches fuel operation st i g q d :
  processingOperations st = false -> operationQueue st = [] -> (0 < fuel)%nat ->
  list_find (fun group => sourceFile operation ∈ files group) (canvasGroups st)
    = Some (i, g) ->
  q ∈ files g -> q ≠ sourceFile operation ->
  loadable st q = Some d -> io_fault st IoModify q = false ->
  ∃ st', processOperation fuel operation st = (Ok tt, st') ∧
         vault st' !! q = Some (TFile (Canvas (applyOperation d (op_data operation)))).
Proof.
  intros Hidle Hq Hfuel Hfind Hin Hsrc Hl Hm.
  eexists. split; [by apply processOperation_alone|].
  rewrite executeOperation_state_vault, Hfind, bool_decide_true by done.
  unfold propagated. by rewrite bool_decide_false, Hl, Hm.
Qed.

(** X18.  An event of a canvas whose document is in group [g], on an idle
    engine with an empty queue, reaches a member [q] of the group that loads
    and accepts the write.  After [handleNodeCreated], [q] holds its
    document with the node added under its id (but for the id [__proto__])
    and nothing else changed; after [handleNodeDeleted], without the node and
    without the edges that mention it; after [handleNodeTextChanged], with
    the text of the node replaced if the node is there. *)
Theorem listener_events_reach_targets fuel st i g filePath q d :
  processingOperations st = false -> operationQueue st = [] -> (0 < fuel)%nat ->
  list_find (fun group => filePath ∈ files group) (canvasGroups st) = Some (i, g) ->
  q ∈ files g -> q ≠ filePath ->
  loadable st q = Some d -> io_fault st IoModify q = false ->
  (∀ node, ∃ st' d',
     handleNodeCreated fuel node filePath st = (Ok tt, st') ∧
     vault st' !! q = Some (TFile (Canvas d')) ∧
     edges d' = edges d ∧
     (∀ k, k ≠ rn_id node -> nodes d' !! k = nodes d !! k) ∧
     (rn_id node ≠ "__proto__" -> nodes d' !! rn_id node = Some (nodeData_of node))) ∧
  (∀ nodeId, ∃ st' d',
     handleNodeDeleted fuel nodeId filePath st = (Ok tt, st') ∧
     vault st' !! q = Some (TFile (Canvas d')) ∧
     nodes d' = delete nodeId (nodes d) ∧
     (∀ e, e ∈ edges d' <-> e ∈ edges d ∧ ¬ references nodeId e)) ∧
  (∀ nodeId newText, ∃ st' d',
     handleNodeTextChanged fuel nodeId newText filePath st = (Ok tt, st') ∧
     vault st' !! q = Some (TFile (Canvas d')) ∧
     edges d' = edges d ∧
     (∀ k, k ≠ nodeId -> nodes d' !! k = nodes d !! k) ∧
     nodes d' !! nodeId = with_text newText <$> nodes d !! nodeId).
Proof.
  intros Hidle Hq Hfuel Hfind Hin Hsrc Hl Hm.
  assert (∀ data, ∃ st',
            processOperation fuel (mkOperation data filePath) st = (Ok tt, st') ∧
            vault st' !! q = Some (TFile (Canvas (applyOperation d data)))) as Hreach.
  { intros data.
    by apply (processOperation_reaches fuel (mkOperation data filePath) st i g q d). }
  split; [|split].
  - intros node. destruct (Hreach (CreateNode (nodeData_of node))) as (st' & Hrun & Hv).
    exists st', (applyOperation d (CreateNode (nodeData_of node))).
    split; [exact Hrun|]. split; [exact Hv|].
    split; [apply (applyOperation_edges d (CreateNode (nodeData_of node)))|].
    split.
    + intros k Hk. by apply (applyOperation_lookup_ne d (CreateNode (nodeData_of node))).
    + intros Hproto.
      pose proof (applyOperation_lookup_eq d (CreateNode (nodeData_of node))) as Heq.
      cbn [operation_nodeId node_after nodeData_of node_id] in Heq.
      rewrite bool_decide_false in Heq by (by intros [? _]). exact Heq.
  - intros nodeId. destruct (Hreach (DeleteNode nodeId)) as (st' & Hrun & Hv).
    exists st', (applyOperation d (DeleteNode nodeId)).
    split; [exact Hrun|]. split; [exact Hv|]. split; [done|].
    intros e. rewrite (applyOperation_edges d (DeleteNode nodeId)). cbn [edges_after].
    rewrite list_elem_of_filter. tauto.
  - intros nodeId newText.
    destruct (Hreach (UpdateNodeText nodeId newText)) as (st' & Hrun & Hv).
    exists st', (applyOperation d (UpdateNodeText nodeId newText)).
    split; [exact Hrun|]. split; [exact Hv|].
    split; [apply (applyOperation_edges d (UpdateNodeText nodeId newText))|].
    split.
    + intros k Hk. by apply (applyOperation_lookup_ne d (UpdateNodeText nodeId newText)).
    + apply (applyOperation_lookup_eq d (UpdateNodeText nodeId newText)).
Qed.

End ListenerFacts.

(* ===================================================================== *)
(** * The result of the engine *)
(* ===================================================================== *)

Module EngineResult.
Import Engine.

Lemma same_documents_refl s : same_documents s s.
Proof. done. Qed.

Lemma same_documents_trans s1 s2 s3 :
  same_documents s1 s2 -> same_documents s2 s3 -> same_documents s1 s3.
Proof. intros (? & ? & ?) (? & ? & ?). repeat split; congruence. Qed.

Lemma syncTarget_state_same operation filePath s1 s2 :
  same_documents s1 s2 ->
  same_documents (syncTarget_state operation filePath s1)
                 (syncTarget_state operation filePath s2).
Proof.
  intros (Hv & Hio & Hf). unfold syncTarget_state, loadable.
  case_bool_decide; [done|]. rewrite Hv, Hio.
  destruct (vault s2 !! filePath) as [[[d|raw|raw]|]|]; try done.
  destruct (io_fault s2 IoRead filePath); [done|].
  destruct (io_fault s2 IoModify filePath); [done|].
  split; [|done]. cbn [store set_written set_vault vault]. by rewrite Hv.
Qed.

Lemma syncTargets_state_same operation targets s1 s2 :
  same_documents s1 s2 ->
  same_documents (syncTargets_state operation targets s1)
                 (syncTargets_state operation targets s2).
Proof.
  revert s1 s2. induction targets as [|p l IH]; intros s1 s2 Hs; [done|].
  cbn [syncTargets_state fold_left]. apply IH. by apply syncTarget_state_same.
Qed.

Lemma executeOperation_state_same operation s1 s2 :
  same_documents s1 s2 ->
  same_documents (executeOperation_state operation s1)
                 (executeOperation_state operation s2).
Proof.
  intros (Hv & Hio & Hf). unfold executeOperation_state.
  pose proof (EngineFacts.list_find_files (fun fs => sourceFile operation ∈ fs)
                (canvasGroups s1) (canvasGroups s2) Hf) as Hfind.
  cbv beta in Hfind.
  destruct (list_find _ (canvasGroups s1)) as [[i1 g1]|],
           (list_find _ (canvasGroups s2)) as [[i2 g2]|]; try done.
  cbn in Hfind. injection Hfind as -> Hg. rewrite Hg.
  apply syncTargets_state_same. split; [done|]. split; [done|].
  cbn [canvasGroups set_canvasGroups]. rewrite !list_fmap_insert. cbn [files].
  by rewrite Hf.
Qed.

Lemma fold_executeOperation_same (queue : list Operation) s1 s2 :
  same_documents s1 s2 ->
  same_documents (fold_left (fun s op => executeOperation_state op s) queue s1)
                 (fold_left (fun s op => executeOperation_state op s) queue s2).
Proof.
  revert s1 s2. induction queue as [|op rest IH]; intros s1 s2 Hs; [done|].
  cbn [fold_left]. apply IH. by apply executeOperation_state_same.
Qed.

Lemma beginOperation_eq operation s :
  beginOperation operation s =
  match list_find (fun group => sourceFile operation ∈ files group) (canvasGroups s) with
  | None => (Ok None, s)
  | Some (i, g) =>
      (Ok (Some (files g)), set_canvasGroups (<[i := mkGroup (files g) (clock s)]>) s)
  end.
Proof.
  unfold beginOperation, findGroupForFile. unfold mbind at 1. unfold M_bind at 1.
  by destruct (list_find _ (canvasGroups s)) as [[i g]|].
Qed.

(** A step of the engine keeps the state it is heading for, but for a
    submission, which adds its operation at the end. *)
Lemma step_outstanding c a c1 :
  inv c -> step c a = Some c1 ->
  same_documents (outstanding c1)
    match a with
    | Submit operation => executeOperation_state operation (outstanding c)
    | _ => outstanding c
    end.
Proof.
  intros (s & _ & _ & _ & Hloops) Hstep.
  destruct c as [stc lps tgs sub tr]. cbn [st loops tags submitted trace] in *.
  destruct a as [operation|k|t].
  - (* a submission *)
    unfold step in Hstep. cbn [st loops tags submitted trace] in Hstep.
    change (processingOperations (set_operationQueue _ stc))
      with (processingOperations stc) in Hstep.
    destruct (processingOperations stc) eqn:Hflag.
    + injection Hstep as <-. unfold outstanding.
      cbn [st loops operationQueue set_operationQueue].
      rewrite fold_left_app. cbn [fold_left].
      apply executeOperation_state_same, fold_executeOperation_same.
      destruct lps as [|[|tag op rem] ?]; try done.
      by apply syncTargets_state_same.
    + destruct lps as [|[|tag op rem] [|? ?]]; try done;
        try (destruct Hloops; congruence).
      destruct Hloops as (_ & Hq & _).
      injection Hstep as <-. unfold outstanding.
      cbn [st loops operationQueue set_operationQueue set_processingOperations].
      rewrite Hq. cbn [app fold_left].
      by apply executeOperation_state_same.
  - (* the activation runs to its next suspension *)
    destruct lps as [|pc [|? ?]]; [done| |by destruct pc].
    destruct k as [|k]; [|done].
    unfold step in Hstep. cbn [st loops tags submitted trace] in Hstep.
    change ([pc] !! 0%nat) with (Some pc) in Hstep. cbn [mbind option_bind] in Hstep.
    destruct pc as [|tag op [|p rem]].
    + destruct (operationQueue stc) as [|op rest] eqn:Hq.
      * injection Hstep as <-. unfold outstanding, retire.
        cbn [st loops operationQueue set_processingOperations]. rewrite Hq. done.
      * rewrite beginOperation_eq in Hstep.
        change (canvasGroups (set_operationQueue _ stc)) with (canvasGroups stc) in Hstep.
        unfold outstanding at 2. cbn [st loops]. rewrite Hq. cbn [fold_left].
        unfold executeOperation_state at 2.
        destruct (list_find _ (canvasGroups stc)) as [[i g]|].
        -- injection Hstep as <-. unfold outstanding.
           cbn [st loops operationQueue set_operationQueue set_canvasGroups].
           apply fold_executeOperation_same, syncTargets_state_same. done.
        -- injection Hstep as <-. unfold outstanding.
           cbn [st loops operationQueue set_operationQueue].
           by apply fold_executeOperation_same.
    + injection Hstep as <-. done.
    + rewrite syncTarget_run in Hstep. injection Hstep as <-.
      unfold outstanding. cbn [st loops].
      destruct (syncTarget_state_frame op p stc) as (_ & _ & _ & _ & _ & Hqueue & _).
      cbv zeta in Hqueue. rewrite Hqueue. done.
  - (* the clock *)
    injection Hstep as <-. unfold outstanding.
    cbn [st loops operationQueue set_clock].
    apply fold_executeOperation_same.
    destruct lps as [|[|tag op rem] ?]; try done.
    by apply syncTargets_state_same.
Qed.

Lemma submissions_cons a schedule :
  submissions (a :: schedule) =
  match a with
  | Submit operation => operation :: submissions schedule
  | _ => submissions schedule
  end.
Proof. by destruct a. Qed.

Lemma run_outstanding schedule c c' :
  inv c -> run c schedule = Some c' ->
  same_documents (outstanding c')
    (fold_left (fun s op => executeOperation_state op s) (submissions schedule)
               (outstanding c)).
Proof.
  revert c. induction schedule as [|a schedule IH]; intros c Hinv Hrun.
  { injection Hrun as <-. done. }
  cbn [run] in Hrun. destruct (step c a) as [c1|] eqn:Hstep; [|done].
  cbn [mbind option_bind] in Hrun.
  pose proof (EngineFacts.inv_step c a c1 Hinv Hstep) as Hinv1.
  pose proof (step_outstanding c a c1 Hinv Hstep) as H1.
  eapply same_documents_trans; [by apply (IH c1)|].
  rewrite submissions_cons.
  destruct a as [operation|k|t]; cbn [fold_left];
    by apply fold_executeOperation_same.
Qed.

Lemma resume_n_run n c : resume_n n c = run c (replicate n (Resume 0)).
Proof.
  revert c. induction n as [|n IH]; intros c; [done|].
  cbn [resume_n replicate run]. destruct (step c (Resume 0)) as [c1|]; [|done].
  cbn [mbind option_bind]. apply IH.
Qed.

Lemma submissions_resumes n : submissions (replicate n (Resume 0)) = [].
Proof. induction n as [|n IH]; [done|]. exact IH. Qed.

Lemma for_of_executeOperation (operations : list Operation) s :
  for_of operations executeOperation s =
  (Ok tt, fold_left (fun s op => executeOperation_state op s) operations s).
Proof.
  revert s. induction operations as [|op rest IH]; intros s; [done|].
  cbn [for_of fold_left]. unfold mbind, M_bind. rewrite executeOperation_run. apply IH.
Qed.

(** X19.  Whatever the interleaving of submissions, resumptions and clock
    ticks, the engine comes to the documents that executing the submitted
    operations one after the other, in the order of submission, gives: a
    configuration with no activation has them, and from any configuration
    the resumptions of the activation lead to one. *)
Theorem engine_result_is_sequential c0 schedule c :
  initial c0 -> run c0 schedule = Some c ->
  ∃ sequential_result,
    for_of (submissions schedule) executeOperation (st c0) = (Ok tt, sequential_result) ∧
    (loops c = [] -> same_documents (st c) sequential_result) ∧
    ∃ c', resume_n (measure c) c = Some c' ∧ loops c' = [] ∧
          same_documents (st c') sequential_result.
Proof.
  intros Hinit Hrun.
  pose proof (EngineFacts.inv_initial c0 Hinit) as Hinv0.
  assert (reachable c) as Hreach.
  { apply (EngineFacts.run_reachable schedule c0); [by apply reachable_initial|done]. }
  pose proof (EngineFacts.reachable_inv c Hreach) as Hinv.
  assert (∀ x, inv x -> loops x = [] -> outstanding x = st x) as Hrest.
  { intros x (s & _ & _ & _ & Hl) Hx. rewrite Hx in Hl. destruct Hl as (_ & Hq & _).
    unfold outstanding. by rewrite Hx, Hq. }
  assert (outstanding c0 = st c0) as H0.
  { apply Hrest; [done|]. by destruct Hinit as (_ & _ & ? & _). }
  pose proof (run_outstanding schedule c0 c Hinv0 Hrun) as Hc. rewrite H0 in Hc.
  eexists. split; [apply for_of_executeOperation|].
  split.
  - intros Hl. by rewrite <- (Hrest c Hinv Hl).
  - destruct (EngineFacts.drain_terminates c Hreach) as (c' & Hdrain & Hl & _).
    exists c'. split; [done|]. split; [done|].
    pose proof (EngineFacts.resume_n_reachable _ _ _ Hreach Hdrain) as Hreach'.
    rewrite <- (Hrest c' (EngineFacts.reachable_inv c' Hreach') Hl).
    rewrite resume_n_run in Hdrain.
    pose proof (run_outstanding _ c c' Hinv Hdrain) as Hc'.
    rewrite submissions_resumes in Hc'. cbn [fold_left] in Hc'.
    by eapply same_documents_trans.
Qed.

End EngineResult.

(* ===================================================================== *)
(** * The order of the operations *)
(* ===================================================================== *)

Module EngineOrder.
Import Engine.

Lemma begun_app tr1 tr2 : begun (tr1 ++ tr2) = begun tr1 ++ begun tr2.
Proof. apply omap_app. Qed.

Lemma begun_writes tag (paths : list string) : begun (EvWrite tag <$> paths) = [].
Proof. by induction paths. Qed.

Lemma new_writes_same s : new_writes s s = [].
Proof. unfold new_writes. by rewrite Nat.sub_diag. Qed.

Lemma new_writes_syncTarget operation filePath s path :
  path ∈ new_writes s (syncTarget_state operation filePath s) ->
  path = filePath ∧ filePath ≠ sourceFile operation.
Proof.
  unfold syncTarget_state. case_bool_decide as Hsrc.
  { rewrite new_writes_same. by intros ?%elem_of_nil. }
  destruct (loadable s filePath) as [d|];
    [|rewrite new_writes_same; by intros ?%elem_of_nil].
  destruct (io_fault s IoModify filePath);
    [rewrite new_writes_same; by intros ?%elem_of_nil|].
  unfold new_writes, store. cbn [written set_written set_vault length].
  replace (S (length (written s)) - length (written s))%nat with 1%nat by lia.
  cbn. intros ->%list_elem_of_singleton. done.
Qed.

Lemma same_documents_sym s1 s2 : same_documents s1 s2 -> same_documents s2 s1.
Proof. intros (? & ? & ?). by repeat split. Qed.

Lemma find_same operation s1 s2 i g :
  same_documents s1 s2 ->
  list_find (fun group => sourceFile operation ∈ files group) (canvasGroups s1) = Some (i, g) ->
  ∃ g', list_find (fun group => sourceFile operation ∈ files group) (canvasGroups s2)
          = Some (i, g') ∧ files g' = files g.
Proof.
  intros (_ & _ & Hf) Hfind.
  pose proof (EngineFacts.list_find_files (fun fs => sourceFile operation ∈ fs)
                (canvasGroups s1) (canvasGroups s2) Hf) as H.
  cbv beta in H. rewrite Hfind in H.
  destruct (list_find _ (canvasGroups s2)) as [[i' g']|]; [|done].
  cbn in H. injection H as -> Hg. by exists g'.
Qed.

Lemma find_same_None operation s1 s2 :
  same_documents s1 s2 ->
  list_find (fun group => sourceFile operation ∈ files group) (canvasGroups s1) = None ->
  list_find (fun group => sourceFile operation ∈ files group) (canvasGroups s2) = None.
Proof.
  intros (_ & _ & Hf) Hfind.
  pose proof (EngineFacts.list_find_files (fun fs => sourceFile operation ∈ fs)
                (canvasGroups s1) (canvasGroups s2) Hf) as H.
  cbv beta in H. rewrite Hfind in H.
  by destruct (list_find _ (canvasGroups s2)) as [[i' g']|].
Qed.

Lemma in_step_initial c0 : initial c0 -> in_step (st c0) [] c0.
Proof.
  intros (_ & Hq & Hl & _ & Hs & Ht). unfold in_step. rewrite Hq, Hl, Hs, Ht.
  split; [done|]. split; [done|]. split; [|done].
  by intros j path ?%elem_of_nil.
Qed.

Local Ltac grown_writes Hw Hle :=
  let j := fresh "j" in let path := fresh "path" in let Hin := fresh "Hin" in
  intros j path Hin;
  destruct (Hw j path Hin) as (o & i & g & Ho & Hfind & Hp);
  exists o, i, g;
  pose proof (lookup_lt_Some _ _ _ Ho);
  rewrite lookup_app_l by done; rewrite take_app_le by lia; done.

Lemma step_in_step start subs c a c1 :
  inv c -> in_step start subs c -> step c a = Some c1 ->
  in_step start
    (subs ++ match a with Submit operation => [operation] | _ => [] end) c1.
Proof.
  intros (s & Hread & Htags & Hsub & Hloops) (Hlen & Hqueue & Hwrites & Hprog) Hstep.
  pose proof (EngineFacts.read_begun _ _ Hread) as Hbegun.
  assert (length (begun (trace c)) = s.1) as Hn by (by rewrite Hbegun, length_seq).
  rewrite Hn in *.
  assert (s.1 <= length subs)%nat as Hle by lia.
  destruct c as [stc lps tgs sub tr]. cbn [st loops tags submitted trace] in *.
  destruct a as [operation|k|t].
  - (* a submission *)
    assert (∃ b, c1 = mkConfig (with_engine b (operationQueue stc ++ [operation]) stc)
                   (if processingOperations stc then lps else AtHead :: lps)
                   (tgs ++ [sub]) (S sub) tr ∧
                 (processingOperations stc = false -> lps = [])) as (b & -> & Hidle).
    { unfold step in Hstep. cbn [st loops tags submitted trace] in Hstep.
      change (processingOperations (set_operationQueue _ stc))
        with (processingOperations stc) in Hstep.
      destruct (processingOperations stc) eqn:Hflag; injection Hstep as <-.
      - exists true. split; [by destruct stc; cbn in *; subst|done].
      - exists true. split; [by destruct stc|]. intros _.
        destruct lps as [|[|? ? ?] [|? ?]]; try done; destruct Hloops; congruence. }
    unfold in_step. cbn [st loops tags submitted trace with_engine operationQueue].
    rewrite Hn. rewrite length_app. cbn [length].
    split; [lia|]. split; [by rewrite drop_app_le, Hqueue by lia|].
    split; [grown_writes Hwrites Hle|].
    destruct (processingOperations stc) eqn:Hflag.
    + destruct lps as [|[|tag op rem] ?].
      * by rewrite take_app_le by lia.
      * by rewrite take_app_le by lia.
      * destruct Hprog as (Htag & Hop & i & g & visited & Hfind & Hfiles & Hsame).
        pose proof (lookup_lt_Some _ _ _ Hop).
        split; [done|]. rewrite lookup_app_l by done. split; [done|].
        exists i, g, visited. by rewrite take_app_le by lia.
    + rewrite (Hidle eq_refl) in *. by rewrite take_app_le by lia.
  - (* the activation runs to its next suspension *)
    rewrite app_nil_r.
    destruct lps as [|pc [|? ?]]; [done| |by destruct pc].
    destruct k as [|k]; [|done].
    unfold step in Hstep. cbn [st loops tags submitted trace] in Hstep.
    change ([pc] !! 0%nat) with (Some pc) in Hstep. cbn [mbind option_bind] in Hstep.
    destruct pc as [|tag op [|p rem]].
    + destruct (operationQueue stc) as [|op rest] eqn:Hq.
      * injection Hstep as <-. unfold in_step, retire.
        cbn [st loops tags submitted trace delete]. rewrite Hn.
        cbn [operationQueue set_processingOperations]. rewrite Hq. done.
      * assert (subs !! s.1 = Some op ∧ rest = drop (S s.1) subs) as [Hop Hrest].
        { pose proof (f_equal (fun l => l !! 0%nat) Hqueue) as H0.
          rewrite lookup_drop, Nat.add_0_r in H0. cbn in H0. split; [done|].
          rewrite <- (Nat.add_1_r s.1), <- drop_drop, <- Hqueue. done. }
        assert (hd 0%nat tgs = s.1) as Htag by (by rewrite Htags).
        rewrite Htag in Hstep.
        rewrite EngineResult.beginOperation_eq in Hstep.
        change (canvasGroups (set_operationQueue _ stc)) with (canvasGroups stc) in Hstep.
        assert (take (S s.1) subs = take s.1 subs ++ [op]) as Htake
          by (by apply take_S_r).
        destruct (list_find _ (canvasGroups stc)) as [[i g]|] eqn:Hfind.
        -- injection Hstep as <-. unfold in_step.
           cbn [st loops tags submitted trace]. rewrite begun_app, length_app, Hn.
           change (begun [EvBegin s.1]) with [s.1]. cbn [length list_insert].
           replace (s.1 + 1)%nat with (S s.1) by lia.
           split; [done|]. split; [done|].
           split.
           { intros j path [Hin|Hin]%elem_of_app; [by apply Hwrites|].
             by apply list_elem_of_singleton in Hin. }
           split; [done|]. split; [done|].
           destruct (find_same op stc _ i g Hprog Hfind) as (g' & Hfind' & Hg').
           exists i, g', []. split; [done|]. split; [by rewrite Hg'|].
           cbn [syncTargets_state fold_left].
           eapply EngineResult.same_documents_trans; [|exact Hprog].
           split; [done|]. split; [done|].
           cbn [canvasGroups set_canvasGroups set_operationQueue].
           rewrite list_fmap_insert. cbn [files]. apply list_insert_id.
           apply list_find_Some in Hfind as (Hi & _). by rewrite list_lookup_fmap, Hi.
        -- injection Hstep as <-. unfold in_step.
           cbn [st loops tags submitted trace]. rewrite begun_app, length_app, Hn.
           change (begun [EvBegin s.1; EvEnd s.1]) with [s.1]. cbn [length].
           replace (s.1 + 1)%nat with (S s.1) by lia.
           split; [done|]. split; [done|].
           split.
           { intros j path [Hin|Hin]%elem_of_app; [by apply Hwrites|].
             apply elem_of_cons in Hin as [Hin|Hin]; [done|].
             by apply list_elem_of_singleton in Hin. }
           rewrite Htake, fold_left_app. cbn [fold_left].
           unfold executeOperation_state at 1.
           rewrite (find_same_None op stc _ Hprog Hfind).
           eapply EngineResult.same_documents_trans; [|exact Hprog]. done.
    + (* the operation returns *)
      injection Hstep as <-. unfold in_step.
      cbn [st loops tags submitted trace list_insert].
      rewrite begun_app, length_app, Hn.
      change (begun [EvEnd tag]) with (@nil nat). cbn [length]. rewrite Nat.add_0_r.
      split; [done|]. split; [done|].
      split.
      { intros j path [Hin|Hin]%elem_of_app; [by apply Hwrites|].
        by apply list_elem_of_singleton in Hin. }
      destruct Hprog as (Htag & Hop & i & g & visited & Hfind & Hfiles & Hsame).
      rewrite app_nil_r in Hfiles.
      rewrite Htag, (take_S_r _ _ _ Hop), fold_left_app. cbn [fold_left].
      unfold executeOperation_state at 1. rewrite Hfind.
      eapply EngineResult.same_documents_trans; [exact Hsame|].
      rewrite Hfiles. apply EngineResult.syncTargets_state_same.
      split; [done|]. split; [done|].
      cbn [canvasGroups set_canvasGroups].
      rewrite list_fmap_insert. cbn [files]. symmetry. apply list_insert_id.
      apply list_find_Some in Hfind as (Hi & _).
      rewrite list_lookup_fmap, Hi. cbn. by rewrite Hfiles.
    + (* a target *)
      rewrite syncTarget_run in Hstep. injection Hstep as <-. unfold in_step.
      cbn [st loops tags submitted trace list_insert].
      rewrite begun_app, begun_writes, app_nil_r, Hn.
      destruct (syncTarget_state_frame op p stc) as (_ & _ & _ & _ & _ & Hq' & _).
      cbv zeta in Hq'. rewrite Hq'.
      split; [done|]. split; [done|].
      destruct Hprog as (Htag & Hop & i & g & visited & Hfind & Hfiles & Hsame).
      split.
      { intros j path [Hin|Hin]%elem_of_app; [by apply Hwrites|].
        apply list_elem_of_fmap in Hin as (q & [= -> ->] & Hq).
        apply new_writes_syncTarget in Hq as [-> Hsrc].
        exists op, i, g. split; [done|]. split; [done|]. split; [|done].
        rewrite Hfiles. apply elem_of_app. right. apply list_elem_of_here. }
      split; [done|]. split; [done|].
      exists i, g, (visited ++ [p]). split; [done|].
      split; [by rewrite <- app_assoc|].
      unfold syncTargets_state. rewrite fold_left_app. cbn [fold_left].
      by apply EngineResult.syncTarget_state_same.
  - (* the clock *)
    rewrite app_nil_r. injection Hstep as <-. unfold in_step.
    cbn [st loops tags submitted trace]. rewrite Hn.
    split; [done|]. split; [done|]. split; [done|].
    destruct lps as [|[|tag op rem] ?]; try done.
Qed.

Lemma run_in_step start schedule subs c c' :
  inv c -> in_step start subs c -> run c schedule = Some c' ->
  in_step start (subs ++ submissions schedule) c'.
Proof.
  revert subs c. induction schedule as [|a schedule IH]; intros subs c Hinv Hin Hrun.
  { injection Hrun as <-. by rewrite app_nil_r. }
  cbn [run] in Hrun. destruct (step c a) as [c1|] eqn:Hstep; [|done].
  cbn [mbind option_bind] in Hrun.
  pose proof (EngineFacts.inv_step c a c1 Hinv Hstep) as Hinv1.
  pose proof (step_in_step start subs c a c1 Hinv Hin Hstep) as Hin1.
  pose proof (IH _ c1 Hinv1 Hin1 Hrun) as Hin'.
  rewrite EngineResult.submissions_cons.
  destruct a as [operation|k|t]; by rewrite <- ?app_assoc, ?app_nil_r in Hin'.
Qed.

Lemma run_snoc schedule a c :
  run c (schedule ++ [a]) = run c schedule ≫= fun c1 => step c1 a.
Proof.
  revert c. induction schedule as [|b schedule IH]; intros c.
  { cbn. by destruct (step c a). }
  cbn [app run]. destruct (step c b) as [c1|]; [|done]. apply IH.
Qed.

(** The configurations the engine can reach are those a schedule leads to
    from a service as constructed. *)
Lemma reachable_by_run c :
  reachable c <-> ∃ c0 schedule, initial c0 ∧ run c0 schedule = Some c.
Proof.
  split.
  - induction 1 as [c Hinit|c a c' _ (c0 & schedule & Hinit & Hrun) Hstep].
    + by exists c, [].
    + exists c0, (schedule ++ [a]). split; [done|]. by rewrite run_snoc, Hrun.
  - intros (c0 & schedule & Hinit & Hrun).
    apply (EngineFacts.run_reachable schedule c0); [by apply reachable_initial|done].
Qed.

(** C2.  A service is constructed, and a schedule of submissions,
    resumptions of the drain loop and clock ticks leads to the
    configuration [c].  Then:
    - at most one activation of the drain loop exists, and one exists
      exactly when [processingOperations] is set;
    - under the flag, [processOperation] appends the operation to the queue
      and returns, which is the step of the engine: the activations, the
      documents, the groups and the trace are as before;
    - with the flag down, [processOperation] returns the state the engine
      comes to when the submission is followed by the resumptions of the
      activation it starts;
    - the trace is sequential, the operations are taken off the queue under
      the numbers 0, 1, 2, ..., and the queue is the submissions not yet
      taken, in the order they were made;
    - the operation in progress under the number [tag] is the submission of
      that number; the documents are those that [executeOperation] on the
      submissions before it, one after the other, and then [syncTarget] on
      the targets already visited give; when no operation is in progress
      they are those that [executeOperation] on the submissions taken so
      far gives;
    - a write under the number [j] went to a target of the submission of
      that number; before it every operation [i < j] has returned from
      [executeOperation], and no write on behalf of [i] comes after;
    - resuming the activation [measure c] times leaves the engine idle with
      an empty queue, every submission taken and returned, and the
      documents that [executeOperation] on the submissions, in the order
      they were made, gives. *)
Theorem operations_applied_in_submission_order c0 schedule c :
  initial c0 -> run c0 schedule = Some c ->
  (length (loops c) <= 1)%nat ∧
  (processingOperations (st c) = true <-> loops c ≠ []) ∧
  (∀ fuel operation, processingOperations (st c) = true ->
     processOperation fuel operation (st c) =
       (Ok tt, set_operationQueue (fun queue => queue ++ [operation]) (st c)) ∧
     step c (Submit operation) =
       Some (mkConfig (set_operationQueue (fun queue => queue ++ [operation]) (st c))
                      (loops c) (tags c ++ [submitted c]) (S (submitted c)) (trace c))) ∧
  (∀ fuel operation, processingOperations (st c) = false -> (0 < fuel)%nat ->
     ∃ m c1 c',
       step c (Submit operation) = Some c1 ∧ resume_n m c1 = Some c' ∧ loops c' = [] ∧
       processOperation fuel operation (st c) = (Ok tt, st c')) ∧
  sequential (trace c) ∧
  (∃ n, begun (trace c) = seq 0 n ∧
        tags c = seq n (length (operationQueue (st c))) ∧
        submitted c = (n + length (operationQueue (st c)))%nat ∧
        submitted c = length (submissions schedule) ∧
        operationQueue (st c) = drop n (submissions schedule) ∧
        match loops c with
        | InOperation tag operation remaining :: _ =>
            n = S tag ∧ submissions schedule !! tag = Some operation ∧
            ∃ before i g visited now,
              for_of (take tag (submissions schedule)) executeOperation (st c0)
                = (Ok tt, before) ∧
              list_find (fun group => sourceFile operation ∈ files group)
                        (canvasGroups before) = Some (i, g) ∧
              files g = visited ++ remaining ∧
              for_of visited (syncTarget operation) before = (Ok tt, now) ∧
              same_documents (st c) now
        | _ =>
            ∃ now,
              for_of (take n (submissions schedule)) executeOperation (st c0)
                = (Ok tt, now) ∧
              same_documents (st c) now
        end) ∧
  (∀ t1 j path t2, trace c = t1 ++ EvWrite j path :: t2 ->
     (∀ i, (i < j)%nat -> EvEnd i ∈ t1 ∧ ∀ q, EvWrite i q ∉ t2) ∧
     ∃ operation before i g,
       submissions schedule !! j = Some operation ∧
       for_of (take j (submissions schedule)) executeOperation (st c0) = (Ok tt, before) ∧
       list_find (fun group => sourceFile operation ∈ files group)
                 (canvasGroups before) = Some (i, g) ∧
       path ∈ files g ∧ path ≠ sourceFile operation) ∧
  (∃ c' result,
     resume_n (measure c) c = Some c' ∧
     loops c' = [] ∧ processingOperations (st c') = false ∧
     operationQueue (st c') = [] ∧
     begun (trace c') = seq 0 (submitted c) ∧
     (∀ i, (i < submitted c)%nat -> EvEnd i ∈ trace c') ∧
     for_of (submissions schedule) executeOperation (st c0) = (Ok tt, result) ∧
     same_documents (st c') result).
Proof.
  intros Hinit Hrun.
  pose proof (EngineFacts.inv_initial c0 Hinit) as Hinv0.
  assert (reachable c) as Hreach.
  { apply (EngineFacts.run_reachable schedule c0); [by apply reachable_initial|done]. }
  pose proof (EngineFacts.reachable_inv c Hreach) as Hinv.
  pose proof (run_in_step (st c0) schedule [] c0 c Hinv0 (in_step_initial c0 Hinit) Hrun)
    as Hin.
  rewrite app_nil_l in Hin.
  destruct (EngineFacts.reachable_sequential c Hreach)
    as (Hone & Hflag & Hsubmit & Hseq & (n & Hbegun & Htags & Hsub) & Hwrites
        & (c' & Hdrain & Hl' & Hflag' & Hq' & Hbegun' & Hended')).
  pose proof Hin as (Hlen & Hqueue & Hwr & Hprog).
  assert (length (begun (trace c)) = n) as Hn by (by rewrite Hbegun, length_seq).
  rewrite Hn in Hqueue, Hprog.
  split; [done|]. split; [done|]. split; [|split; [|split; [done|split; [|split]]]].
  - intros fuel operation Hp. split; [by apply processOperation_draining|by apply Hsubmit].
  - intros fuel operation Hp Hfuel.
    assert (loops c = []) as Hl.
    { destruct (loops c) eqn:E; [done|].
      assert (processingOperations (st c) = true) by (by apply Hflag). congruence. }
    assert (operationQueue (st c) = []) as Hq.
    { destruct Hinv as (s & _ & _ & _ & Hshape). rewrite Hl in Hshape.
      by destruct Hshape as (_ & ? & _). }
    destruct (EngineFacts.resume_drains (operationQueue (st c) ++ [operation])
                (set_processingOperations true
                   (set_operationQueue (fun queue => queue ++ [operation]) (st c)))
                (tags c ++ [submitted c]) (S (submitted c)) (trace c) eq_refl)
      as (m & tgs' & tr' & Hresume).
    eexists m, _, _. split.
    { cbn [step]. cbv zeta.
      change (processingOperations (set_operationQueue _ (st c)))
        with (processingOperations (st c)).
      rewrite Hp, Hl. reflexivity. }
    split; [exact Hresume|]. split; [done|].
    rewrite processOperation_idle by (rewrite ?Hq; done). cbn [st]. f_equal.
    change (set_processingOperations true
              (set_operationQueue (fun queue => queue ++ [operation]) (st c)))
      with (with_engine true (operationQueue (st c) ++ [operation]) (st c)).
    by rewrite EngineFacts.fold_executeOperation_with_engine.
  - exists n. split; [done|]. split; [done|]. split; [done|]. split; [done|].
    split; [done|].
    destruct (loops c) as [|[|tag operation remaining] ?].
    + eexists. split; [apply EngineResult.for_of_executeOperation|done].
    + eexists. split; [apply EngineResult.for_of_executeOperation|done].
    + destruct Hprog as (Htag & Hop & i & g & visited & Hfind & Hfiles & Hsame).
      split; [done|]. split; [done|].
      eexists _, i, g, visited, _.
      split; [apply EngineResult.for_of_executeOperation|].
      split; [done|]. split; [done|]. split; [apply for_of_syncTarget|done].
  - intros t1 j path t2 Htrace. split; [by eapply Hwrites|].
    destruct (Hwr j path) as (operation & i & g & Hop & Hfind & Hp).
    { rewrite Htrace. apply elem_of_app. right. apply list_elem_of_here. }
    eexists operation, _, i, g. split; [done|].
    split; [apply EngineResult.for_of_executeOperation|]. done.
  - exists c'. eexists.
    split; [done|]. split; [done|]. split; [done|]. split; [done|].
    split; [done|]. split; [done|].
    split; [apply EngineResult.for_of_executeOperation|].
    pose proof Hdrain as Hrun'. rewrite EngineResult.resume_n_run in Hrun'.
    pose proof (run_in_step (st c0) _ (submissions schedule) c c' Hinv Hin Hrun')
      as (_ & _ & _ & Hprog').
    rewrite EngineResult.submissions_resumes, app_nil_r in Hprog'.
    rewrite Hl', Hbegun', length_seq, Hlen, firstn_all in Hprog'. done.
Qed.

End EngineOrder.

(* ===================================================================== *)
(** * When [lastSync] is set *)
(* ===================================================================== *)

Section LastSync.
Import Engine.

Implicit Types (operation : Operation) (c : Config).

(** C8, as the service has it.  [executeOperation] sets [lastSync] of the
    first group that lists the source, the one [findGroupForFile] returns,
    to the clock, and then runs the loop over the targets, which leaves the
    registry alone whatever becomes of the targets.  Every other group
    keeps its [lastSync], also one that lists the source as well, and so
    does every group when the source is in none.  In the engine: the
    resumption that takes the operation off the queue sets [lastSync] and
    suspends with every target still to visit, the vault and the record of
    the writes as they were; the resumptions of the loop that follow leave
    the registry as it is. *)
Theorem lastSync_set_when_propagation_starts operation (s : State) :
  executeOperation operation s =
    match list_find (fun group => sourceFile operation ∈ files group) (canvasGroups s) with
    | Some (i, g) =>
        for_of (files g) (syncTarget operation)
               (set_canvasGroups (<[i := mkGroup (files g) (clock s)]>) s)
    | None => (Ok tt, s)
    end ∧
  (∀ filePath s0, ∃ s1, syncTarget operation filePath s0 = (Ok tt, s1) ∧
                        canvasGroups s1 = canvasGroups s0) ∧
  canvasGroups (executeOperation_state operation s) =
    match list_find (fun group => sourceFile operation ∈ files group) (canvasGroups s) with
    | Some (i, g) => <[i := mkGroup (files g) (clock s)]> (canvasGroups s)
    | None => canvasGroups s
    end ∧
  (∀ j h, canvasGroups s !! j = Some h ->
          (∀ g, list_find (fun group => sourceFile operation ∈ files group) (canvasGroups s)
                ≠ Some (j, g)) ->
          canvasGroups (executeOperation_state operation s) !! j = Some h) ∧
  (∀ c k rest,
     st c = s -> loops c !! k = Some AtHead -> operationQueue s = operation :: rest ->
     ∃ c1, step c (Resume k) = Some c1 ∧
           vault (st c1) = vault s ∧ written (st c1) = written s ∧
           match list_find (fun group => sourceFile operation ∈ files group)
                           (canvasGroups s) with
           | Some (i, g) =>
               loops c1 !! k = Some (InOperation (hd 0%nat (tags c)) operation (files g)) ∧
               canvasGroups (st c1) = <[i := mkGroup (files g) (clock s)]> (canvasGroups s)
           | None =>
               loops c1 !! k = Some AtHead ∧ canvasGroups (st c1) = canvasGroups s
           end) ∧
  (∀ c k tag remaining,
     st c = s -> loops c !! k = Some (InOperation tag operation remaining) ->
     ∃ c1, step c (Resume k) = Some c1 ∧ canvasGroups (st c1) = canvasGroups s).
Proof.
  split; [|split; [|split; [|split; [|split]]]].
  - unfold executeOperation, findGroupForFile.
    unfold mbind at 1. unfold M_bind at 1.
    by destruct (list_find _ (canvasGroups s)) as [[i g]|].
  - intros filePath s0. exists (syncTarget_state operation filePath s0).
    split; [apply syncTarget_run|].
    by destruct (syncTarget_state_frame operation filePath s0) as (_ & _ & _ & ? & _).
  - apply executeOperation_state_groups.
  - intros j h Hj Hother. rewrite executeOperation_state_groups.
    destruct (list_find _ (canvasGroups s)) as [[i g]|]; [|done].
    rewrite list_lookup_insert_ne; [done|]. intros ->. by destruct (Hother g).
  - intros c k rest <- Hk Hq. unfold step. rewrite Hk. cbn [mbind option_bind].
    rewrite Hq, EngineResult.beginOperation_eq.
    change (canvasGroups (set_operationQueue _ (st c))) with (canvasGroups (st c)).
    destruct (list_find _ (canvasGroups (st c))) as [[i g]|].
    + eexists. split; [done|]. cbn [st loops]. split; [done|]. split; [done|].
      split; [|done]. apply list_lookup_insert_eq. by eapply lookup_lt_Some.
    + eexists. split; [done|]. cbn [st loops]. done.
  - intros c k tag remaining <- Hk. unfold step. rewrite Hk. cbn [mbind option_bind].
    destruct remaining as [|filePath remaining].
    + eexists. split; [done|]. done.
    + rewrite syncTarget_run. eexists. split; [done|]. cbn [st].
      by destruct (syncTarget_state_frame operation filePath (st c)) as (_ & _ & _ & ? & _).
Qed.
End LastSync.

(* ===================================================================== *)
(** * The properties on the scenarios *)
(* ===================================================================== *)

(** The scenario of the design document: deriving from [AC1.canvas] yields
    [AC4.canvas], which joins the group. *)
Example scenario_derive_AC1 :
  let '(r, st') := createNewCanvasView "AC1.canvas" st_scenario in
  r = Ok (Some "AC4.canvas") ∧
  files <$> canvasGroups st' = [["A.canvas"; "AC1.canvas"; "AC3.canvas"; "AC4.canvas"]] ∧
  vault st' !! "AC4.canvas" = Some (TFile board).
Proof. vm_compute. done. Qed.

(** Deriving from [A.canvas] computes [AC1.canvas], which exists: the call
    returns [null] and changes nothing. *)
Example scenario_derive_A_collides :
  newFilePathFor st_scenario "A.canvas" = Some "AC1.canvas" ∧
  createNewCanvasView "A.canvas" st_scenario = (Ok None, st_scenario).
Proof. vm_compute. done. Qed.

(** [UpdateNodeText] from [A.canvas] reaches the other members and leaves
    [A.canvas] as it was. *)
Example scenario_update_text :
  let st' := executeOperation_state op_hi st_scenario in
  (written st').*1 = ["AC3.canvas"; "AC1.canvas"] ∧
  vault st' !! "A.canvas" = Some (TFile board) ∧
  vault st' !! "AC1.canvas" =
    Some (TFile (Canvas (mkCanvas {[ "n1" := note "n1" "hi" ]}
                                  [mkEdge "e1" "n1" "n2" None]))) ∧
  vault st' !! "AC3.canvas" = vault st' !! "AC1.canvas".
Proof. vm_compute. done. Qed.

Example delete_node_example :
  edges (applyOperation canvas_triangle (DeleteNode "n1")) = [mkEdge "e2" "n2" "n3" None].
Proof. vm_compute. done. Qed.

(** C5, on a canvas of three nodes and three edges. *)
Lemma handleDeleteNode_cleans_edges_witness :
  nodes (applyOperation canvas_triangle (DeleteNode "n1")) !! "n1" = None ∧
  edges (applyOperation canvas_triangle (DeleteNode "n1")) `sublist_of` edges canvas_triangle.
Proof.
  pose proof (handleDeleteNode_cleans_edges canvas_triangle "n1") as H.
  split; [exact (proj1 H)|].
  exact (proj1 (proj2 (proj2 (proj2 H)))).
Defined.

(** C9, on the same canvas, for a node that does not exist. *)
Lemma handleUpdateNodeText_spec_witness :
  nodes canvas_triangle !! "n9" = None ∧
  applyOperation canvas_triangle (UpdateNodeText "n9" "hi") = canvas_triangle.
Proof.
  assert (nodes canvas_triangle !! "n9" = None) as Hn by (vm_compute; reflexivity).
  split; [exact Hn|].
  pose proof (handleUpdateNodeText_spec canvas_triangle "n9" "hi") as H.
  cbv zeta in H. rewrite Hn in H. exact H.
Defined.

(** C4, on the scenario of the design document: the computed path
    [AC1.canvas] is taken. *)
Lemma derivation_failure_is_atomic_witness :
  is_Some (vault st_scenario !! "AC1.canvas") ∧
  ∃ st', createNewCanvasView "A.canvas" st_scenario = (Ok None, st') ∧ st' = st_scenario.
Proof.
  assert (newFilePathFor st_scenario "A.canvas" = Some "AC1.canvas") as Hpath
    by (vm_compute; reflexivity).
  assert (is_Some (vault st_scenario !! "AC1.canvas")) as Htaken
    by (vm_compute; eexists; reflexivity).
  split; [exact Htaken|].
  destruct (derivation_failure_is_atomic "A.canvas" st_scenario)
    as (r & st' & Hrun & Hnull & _ & _ & _ & _ & Hcollide & _).
  pose proof (Hcollide "AC1.canvas" Hpath (or_introl Htaken)) as Hr.
  exists st'. rewrite Hrun, Hr. split; [reflexivity|]. exact (Hnull Hr).
Defined.

(** C7, on [st_malformed]: [AC1.canvas] does not parse, and keeps its
    text. *)
Lemma propagation_failure_is_local_witness :
  list_find (fun group => sourceFile op_hi ∈ files group) (canvasGroups st_malformed)
    = Some (0%nat, mkGroup ["A.canvas"; "AC1.canvas"; "AC3.canvas"] 100) ∧
  target_fails st_malformed "AC1.canvas" ∧
  processingOperations st_malformed = false ∧
  (length (operationQueue st_malformed) < 1)%nat ∧
  vault (executeOperation_state op_hi st_malformed) !! "AC1.canvas"
    = vault st_malformed !! "AC1.canvas".
Proof.
  assert (list_find (fun group => sourceFile op_hi ∈ files group) (canvasGroups st_malformed)
          = Some (0%nat, mkGroup ["A.canvas"; "AC1.canvas"; "AC3.canvas"] 100)) as H1
    by (vm_compute; reflexivity).
  assert (target_fails st_malformed "AC1.canvas") as H3 by (left; vm_compute; reflexivity).
  split; [exact H1|]. split; [exact H3|]. split; [reflexivity|]. split; [apply le_n|].
  exact (proj1 (proj2 (proj2
    (propagation_failure_is_local 1 op_hi st_malformed 0 _
       ["A.canvas"] "AC1.canvas" ["AC3.canvas"] H1 eq_refl H3 eq_refl (le_n 1))))).
Defined.

(** C10, on [st_loose]. *)
Lemma ungrouped_source_writes_nothing_witness :
  list_find (fun group => sourceFile op_loose ∈ files group) (canvasGroups st_loose) = None ∧
  executeOperation op_loose st_loose = (Ok tt, st_loose).
Proof.
  assert (list_find (fun group => sourceFile op_loose ∈ files group) (canvasGroups st_loose)
          = None) as H by (vm_compute; reflexivity).
  split; [exact H|].
  exact (proj1 (ungrouped_source_writes_nothing 1 op_loose st_loose H)).
Defined.

(** C3, on the scenario of the design document. *)
Lemma derivation_group_closure_witness :
  createNewCanvasView "AC1.canvas" st_scenario
    = (Ok (Some "AC4.canvas"), (createNewCanvasView "AC1.canvas" st_scenario).2) ∧
  canvasGroups (createNewCanvasView "AC1.canvas" st_scenario).2
    = [mkGroup ["A.canvas"; "AC1.canvas"; "AC3.canvas"; "AC4.canvas"] 200].
Proof.
  assert (createNewCanvasView "AC1.canvas" st_scenario
          = (Ok (Some "AC4.canvas"), (createNewCanvasView "AC1.canvas" st_scenario).2)) as H
    by (vm_compute; reflexivity).
  split; [exact H|].
  pose proof (derivation_group_closure "AC1.canvas" "AC4.canvas" st_scenario _ H) as Hc.
  assert (list_find (fun group => "AC1.canvas" ∈ files group) (canvasGroups st_scenario)
          = Some (0%nat, mkGroup ["A.canvas"; "AC1.canvas"; "AC3.canvas"] 100)) as Hfind
    by (vm_compute; reflexivity).
  rewrite Hfind in Hc. cbv zeta in Hc.
  rewrite (proj1 Hc). vm_compute. reflexivity.
Defined.

(** C2, on a configuration reached by three submissions: one activation,
    a sequential trace, the queue is what is left of the submissions, and
    the drain loop comes to the documents of the three operations executed
    in order. *)
Lemma operations_applied_in_submission_order_witness :
  Engine.initial c_start ∧ Engine.run c_start schedule_three = Some c_three ∧
  (length (Engine.loops c_three) <= 1)%nat ∧
  Engine.sequential (Engine.trace c_three) ∧
  (∃ n, Engine.begun (Engine.trace c_three) = seq 0 n ∧
        operationQueue (Engine.st c_three) = drop n (submissions schedule_three)) ∧
  ∃ c' result,
    Engine.resume_n (Engine.measure c_three) c_three = Some c' ∧
    for_of (submissions schedule_three) executeOperation (Engine.st c_start)
      = (Ok tt, result) ∧
    same_documents (Engine.st c') result.
Proof.
  assert (Engine.initial c_start) as Hi by (repeat split).
  assert (Engine.run c_start schedule_three = Some c_three) as Hr
    by (vm_compute; reflexivity).
  split; [exact Hi|]. split; [exact Hr|].
  destruct (EngineOrder.operations_applied_in_submission_order
              c_start schedule_three c_three Hi Hr)
    as (Hone & _ & _ & _ & Hseq & (n & Hbegun & _ & _ & _ & Hqueue & _) & _
        & (c' & result & Hdrain & _ & _ & _ & _ & _ & Hresult & Hsame)).
  split; [exact Hone|]. split; [exact Hseq|].
  split; [exists n; split; [exact Hbegun|exact Hqueue]|].
  exists c', result. split; [exact Hdrain|]. split; [exact Hresult|exact Hsame].
Defined.

(** C8 as the data model words it does not hold: on [st_lagging] the only
    other member of the group is missing, nothing is written, and
    [lastSync] moves from 100 to 200. *)
Lemma lastSync_refreshed_without_success :
  ¬ lastSync_only_on_success op_hi st_lagging.
Proof.
  intros H.
  apply (H 0%nat (mkGroup ["A.canvas"; "AC1.canvas"] 100)
           (mkGroup ["A.canvas"; "AC1.canvas"] 200)).
  - vm_compute. reflexivity.
  - vm_compute. reflexivity.
  - simpl. lia.
  - vm_compute. reflexivity.
Qed.

(** How two groups come to list the same path: [AC2.canvas] is derived
    from [AC1.canvas], the file [AC1.canvas] is removed in the vault, and a
    view is derived from [A.canvas], which takes the free name
    [AC1.canvas]. *)
Lemma overlapping_groups_arise :
  ∃ st1 st2,
    createNewCanvasView "AC1.canvas"
      (mkState {[ "A.canvas" := TFile board; "AC1.canvas" := TFile board ]}
               quiet no_RegExp 100 [] [] false [])
      = (Ok (Some "AC2.canvas"), st1) ∧
    createNewCanvasView "A.canvas" (set_vault (delete "AC1.canvas") st1)
      = (Ok (Some "AC1.canvas"), st2) ∧
    vault st2 = vault st_overlap ∧ canvasGroups st2 = canvasGroups st_overlap.
Proof.
  eexists _, _. split; [vm_compute; reflexivity|].
  split; [vm_compute; reflexivity|]. split; vm_compute; reflexivity.
Qed.

(** C8 on [st_overlap]: an operation from [AC1.canvas], which both groups
    list, sets [lastSync] of the first group and leaves the second at 100;
    the targets are those of the first group. *)
Lemma lastSync_of_the_second_group_is_kept :
  ∃ st', executeOperation (mkOperation (DeleteNode "n1") "AC1.canvas") st_overlap
           = (Ok tt, st') ∧
         canvasGroups st' = [mkGroup ["AC1.canvas"; "AC2.canvas"] 200;
                             mkGroup ["A.canvas"; "AC1.canvas"] 100] ∧
         (written st').*1 = ["AC2.canvas"].
Proof. eexists. split; [vm_compute; reflexivity|]. split; vm_compute; reflexivity. Qed.

(** C8 in the engine: the operation is taken off the queue at 200 and the
    clock moves to 300 before its targets are visited; [lastSync] is 200
    when the operation has returned. *)
Lemma lastSync_is_the_time_of_the_start :
  ∃ c, Engine.run (Engine.mkConfig st_scenario [] [] 0 [])
         [Engine.Submit op_hi; Engine.Resume 0; Engine.Tick 300;
          Engine.Resume 0; Engine.Resume 0; Engine.Resume 0; Engine.Resume 0] = Some c ∧
       Engine.loops c = [Engine.AtHead] ∧
       clock (Engine.st c) = 300%Z ∧
       lastSync <$> canvasGroups (Engine.st c) = [200%Z] ∧
       (written (Engine.st c)).*1 = ["AC3.canvas"; "AC1.canvas"].
Proof.
  eexists. split; [vm_compute; reflexivity|]. repeat split; vm_compute; reflexivity.
Qed.

(** C1 on [st_plan].  The members are [Plan(v2)C1] and [Plan(v2)C5], so the
    new version should be 6; the version pattern built from the prefix
    [Plan(v2)] matches neither name, and the new view is [Plan(v2)C2]. *)
Theorem unescaped_prefix_misses_versions :
  let '(r, st') := createNewCanvasView "Plan(v2)C1.canvas" st_plan in
  r = Ok (Some "Plan(v2)C2.canvas") ∧
  files <$> canvasGroups st' =
    [["Plan(v2)C1.canvas"; "Plan(v2)C5.canvas"; "Plan(v2)C2.canvas"]] ∧
  Js.match_versioned "Plan(v2)C5" = Some ("Plan(v2)", "5") ∧
  Js.regex_plain "Plan(v2)" = false.
Proof. vm_compute. done. Qed.

(** C6 on [st_folder] and [st_dollar].  The new path is computed by
    replacing the first occurrence of the name in the path: for
    [Notes.canvas/Notes.canvas] that occurrence is the folder, and the new
    view is [NotesC1.canvas/Notes.canvas], in another folder and under the
    name of the source; for [Budget$$.canvas] the replacement text
    [Budget$$C1.canvas] is expanded and the new view is [Budget$C1.canvas]. *)
Theorem new_path_by_first_occurrence :
  (createNewCanvasView "Notes.canvas/Notes.canvas" st_folder).1
    = Ok (Some "NotesC1.canvas/Notes.canvas") ∧
  newFileNameFor st_folder "Notes.canvas/Notes.canvas" = Some "NotesC1.canvas" ∧
  (createNewCanvasView "Budget$$.canvas" st_dollar).1 = Ok (Some "Budget$C1.canvas") ∧
  newFileNameFor st_dollar "Budget$$.canvas" = Some "Budget$$C1.canvas".
Proof. vm_compute. done. Qed.

(* ===================================================================== *)
(** * The further properties on the scenarios *)
(* ===================================================================== *)

(** X2, on the canvas of three nodes: deleting [n1] and retitling [n2]. *)
Lemma applyOperation_commute_witness :
  applyOperation (applyOperation canvas_triangle (DeleteNode "n1")) (UpdateNodeText "n2" "hi") =
  applyOperation (applyOperation canvas_triangle (UpdateNodeText "n2" "hi")) (DeleteNode "n1").
Proof.
  apply (applyOperation_commute canvas_triangle (DeleteNode "n1") (UpdateNodeText "n2" "hi")).
  vm_compute. discriminate.
Defined.

(** X3, on the canvas of three nodes. *)
Lemma applyOperation_keeps_edges_closed_witness :
  edges_closed canvas_triangle ∧
  edges_closed (applyOperation canvas_triangle (DeleteNode "n1")).
Proof.
  assert (edges_closed canvas_triangle) as H.
  { intros e He. unfold canvas_triangle in He. cbn [edges] in He.
    repeat (apply elem_of_cons in He as [->|He]);
      [split; vm_compute; eexists; reflexivity ..|by apply elem_of_nil in He]. }
  split; [exact H|].
  exact (proj1 (applyOperation_keeps_edges_closed canvas_triangle (DeleteNode "n1") H)).
Defined.

(** X4, on the canvas of three nodes and a fourth node. *)
Lemma create_then_delete_witness :
  nodes canvas_triangle !! "n4" = None ∧
  applyOperation (applyOperation canvas_triangle (CreateNode (note "n4" "d")))
                 (DeleteNode "n4") = canvas_triangle.
Proof.
  assert (nodes canvas_triangle !! node_id (note "n4" "d") = None) as H1
    by (vm_compute; reflexivity).
  assert (∀ e, e ∈ edges canvas_triangle -> ¬ references (node_id (note "n4" "d")) e) as H2.
  { intros e He. unfold canvas_triangle in He. cbn [edges] in He.
    repeat (apply elem_of_cons in He as [->|He]);
      [vm_compute; intros [H|H]; discriminate H ..|by apply elem_of_nil in He]. }
  split; [exact H1|].
  exact (create_then_delete canvas_triangle (note "n4" "d") H1 H2).
Defined.

(** X5, on the scenario of the design document: the source keeps its
    content. *)
Lemma executeOperation_vault_witness :
  list_find (fun group => sourceFile op_hi ∈ files group) (canvasGroups st_scenario)
    = Some (0%nat, mkGroup ["A.canvas"; "AC1.canvas"; "AC3.canvas"] 100) ∧
  ∃ st', executeOperation op_hi st_scenario = (Ok tt, st') ∧
         vault st' !! "A.canvas" = vault st_scenario !! "A.canvas".
Proof.
  assert (list_find (fun group => sourceFile op_hi ∈ files group) (canvasGroups st_scenario)
          = Some (0%nat, mkGroup ["A.canvas"; "AC1.canvas"; "AC3.canvas"] 100)) as H
    by (vm_compute; reflexivity).
  split; [exact H|].
  destruct (executeOperation_vault op_hi st_scenario _ _ H) as (st' & Hrun & _ & _ & Hkeep).
  exists st'. split; [exact Hrun|]. apply Hkeep. right. reflexivity.
Defined.

(** X6 on [st_scenario], with the clock at 250 for the second execution. *)
Lemma executeOperation_redelivery_later :
  let st1 := executeOperation_state op_hi st_scenario in
  let st2 := executeOperation_state op_hi (set_clock 250 st1) in
  vault st2 = vault st1 ∧
  lastSync <$> canvasGroups st1 = [200%Z] ∧ lastSync <$> canvasGroups st2 = [250%Z].
Proof. vm_compute. done. Qed.

(** X8, on the scenario of the design document. *)
Lemma submissions_run_in_turn_witness :
  processingOperations st_scenario = false ∧ operationQueue st_scenario = [] ∧
  for_of [op_hi; op_loose] (processOperation 1) st_scenario =
  for_of [op_hi; op_loose] executeOperation st_scenario.
Proof.
  split; [reflexivity|]. split; [reflexivity|].
  exact (proj1 (submissions_run_in_turn 1 [op_hi; op_loose] st_scenario
                  eq_refl eq_refl (le_n 1))).
Defined.

(** The registry of the scenario of the design document is in order. *)
Lemma registry_ok_scenario : registry_ok st_scenario.
Proof.
  split.
  - intros i g Hi. destruct i as [|i]; [|by destruct i]. apply (inj Some) in Hi. subst g.
    split.
    + apply (bool_decide_unpack _). vm_compute. exact I.
    + intros p Hp. cbn [files] in Hp.
      repeat (apply elem_of_cons in Hp as [->|Hp]);
        [vm_compute; eexists; reflexivity ..|by apply elem_of_nil in Hp].
  - intros i j g h p Hi Hj _ _.
    destruct i as [|i]; [|by destruct i]. destruct j as [|j]; [done|by destruct j].
Defined.

(** X9, on the scenario of the design document. *)
Lemma propagation_keeps_registry_ok_witness :
  registry_ok st_scenario ∧
  ∃ st', processOperation 1 op_hi st_scenario = (Ok tt, st') ∧ registry_ok st'.
Proof.
  split; [exact registry_ok_scenario|].
  exact (proj2 (propagation_keeps_registry_ok 1 op_hi st_scenario
                  registry_ok_scenario eq_refl (le_n 1))).
Defined.

(** X10, on the scenario of the design document: [AC4.canvas] starts as a
    copy of [AC1.canvas]. *)
Lemma derivation_copies_source_witness :
  createNewCanvasView "AC1.canvas" st_scenario
    = (Ok (Some "AC4.canvas"), (createNewCanvasView "AC1.canvas" st_scenario).2) ∧
  vault (createNewCanvasView "AC1.canvas" st_scenario).2 !! "AC4.canvas" =
  vault (createNewCanvasView "AC1.canvas" st_scenario).2 !! "AC1.canvas".
Proof.
  assert (createNewCanvasView "AC1.canvas" st_scenario
          = (Ok (Some "AC4.canvas"), (createNewCanvasView "AC1.canvas" st_scenario).2)) as H
    by (vm_compute; reflexivity).
  split; [exact H|].
  destruct (derivation_copies_source "AC1.canvas" "AC4.canvas" st_scenario _ H)
    as (content & _ & _ & _ & _ & _ & Hcopy & _).
  exact Hcopy.
Defined.

(** X11, on the scenario of the design document. *)
Lemma derivation_keeps_registry_ok_witness :
  registry_ok st_scenario ∧
  ∃ r st', createNewCanvasView "AC1.canvas" st_scenario = (Ok r, st') ∧ registry_ok st'.
Proof.
  split; [exact registry_ok_scenario|].
  exact (derivation_keeps_registry_ok "AC1.canvas" st_scenario registry_ok_scenario).
Defined.

(** X12, on [st_loose]: [Loose.canvas] gets the view [LooseC1.canvas], once. *)
Lemma unversioned_source_derives_once_witness :
  createNewCanvasView "Loose.canvas" st_loose
    = (Ok (Some "LooseC1.canvas"), (createNewCanvasView "Loose.canvas" st_loose).2) ∧
  createNewCanvasView "Loose.canvas" (createNewCanvasView "Loose.canvas" st_loose).2
    = (Ok None, (createNewCanvasView "Loose.canvas" st_loose).2).
Proof.
  assert (createNewCanvasView "Loose.canvas" st_loose
          = (Ok (Some "LooseC1.canvas"), (createNewCanvasView "Loose.canvas" st_loose).2)) as H
    by (vm_compute; reflexivity).
  split; [exact H|].
  apply (unversioned_source_derives_once "Loose.canvas" "LooseC1.canvas" st_loose).
  - vm_compute. reflexivity.
  - exact H.
Defined.

(** X13, on the scenario of the design document: the members bear the
    numbers 1 and 3, and the new view is [AC4.canvas]. *)
Lemma derivation_next_version_witness :
  createNewCanvasView "AC1.canvas" st_scenario
    = (Ok (Some "AC4.canvas"), (createNewCanvasView "AC1.canvas" st_scenario).2) ∧
  ∃ m, "AC4.canvas" = "A" +:+ "C" +:+ Js.toString (Js.Num (m + 1)) +:+ ".canvas" ∧
       (1 <= m)%Z.
Proof.
  assert (createNewCanvasView "AC1.canvas" st_scenario
          = (Ok (Some "AC4.canvas"), (createNewCanvasView "AC1.canvas" st_scenario).2)) as H
    by (vm_compute; reflexivity).
  split; [exact H|].
  assert (Js.match_versioned (Js.replace (Js.split_pop "AC1.canvas") ".canvas" EmptyString)
          = Some ("A", "1")) as Hm by (vm_compute; reflexivity).
  assert (Js.regex_plain "A" = true) as Hp by (vm_compute; reflexivity).
  assert (list_find (fun group => "AC1.canvas" ∈ files group) (canvasGroups st_scenario)
          = Some (0%nat, mkGroup ["A.canvas"; "AC1.canvas"; "AC3.canvas"] 100)) as Hf
    by (vm_compute; reflexivity).
  assert (Js.parseInt_acc 0 "1" < Js.MAX_SAFE_INTEGER)%Z as Hown
    by (vm_compute; reflexivity).
  assert (safe_versions "A" (files (mkGroup ["A.canvas"; "AC1.canvas"; "AC3.canvas"] 100)))
    as Hsafe.
  { assert (∀ z : Z, (0 <= z < 100)%Z -> safe_version (Js.Num z)) as Hsmall.
    { intros z Hz. exists z. split; [done|]. unfold Js.MAX_SAFE_INTEGER. lia. }
    intros p v Hin. cbn [files] in Hin.
    repeat (apply elem_of_cons in Hin as [->|Hin]); [| | |by apply elem_of_nil in Hin].
    - change (Js.versionPattern_literal "A" (Js.split_pop "A.canvas"))
        with (@None Js.number).
      discriminate.
    - change (Js.versionPattern_literal "A" (Js.split_pop "AC1.canvas"))
        with (Some (Js.Num 1)).
      intros [= <-]. apply Hsmall. lia.
    - change (Js.versionPattern_literal "A" (Js.split_pop "AC3.canvas"))
        with (Some (Js.Num 3)).
      intros [= <-]. apply Hsmall. lia. }
  destruct (derivation_next_version "AC1.canvas" "AC4.canvas" st_scenario _ "A" "1" _ _
              H Hm Hp Hf Hown Hsafe) as (m & name & Hname & _ & _ & Hge & _ & _ & Hdir & _).
  exists m. split; [|exact Hge].
  rewrite <- Hname. apply (Hdir EmptyString); vm_compute; reflexivity.
Defined.

(** Past [Number.MAX_SAFE_INTEGER] the arithmetic of the service is not
    that of the integers.  With a member numbered 2^53 the next number is
    2^53 again, the name is taken, and the derivation fails. *)
Lemma version_past_safe_integers_collides :
  let st := mkState {[ "AC1.canvas" := TFile board;
                       "AC9007199254740992.canvas" := TFile board ]}
                    quiet no_RegExp 200 []
                    [mkGroup ["AC1.canvas"; "AC9007199254740992.canvas"] 100] false [] in
  newFileNameFor st "AC1.canvas" = Some "AC9007199254740992.canvas" ∧
  createNewCanvasView "AC1.canvas" st = (Ok None, st).
Proof. vm_compute. done. Qed.

(** With a member numbered 999999999999999999999, which [parseInt] reads
    as the double 10^21, the new view is [AC1e+21.canvas]. *)
Lemma version_in_exponent_form :
  let st := mkState {[ "AC1.canvas" := TFile board;
                       "AC999999999999999999999.canvas" := TFile board ]}
                    quiet no_RegExp 200 []
                    [mkGroup ["AC1.canvas"; "AC999999999999999999999.canvas"] 100]
                    false [] in
  ∃ st', createNewCanvasView "AC1.canvas" st = (Ok (Some "AC1e+21.canvas"), st').
Proof. eexists. vm_compute. reflexivity. Qed.

(** X14, on [st_nested]. *)
Lemma unversioned_derivation_path_witness :
  createNewCanvasView ("folder/" +:+ "Notes.canvas") st_nested
    = (Ok (Some "folder/NotesC1.canvas"),
       (createNewCanvasView ("folder/" +:+ "Notes.canvas") st_nested).2) ∧
  "folder/NotesC1.canvas" =
    "folder/" +:+ Js.replace "Notes.canvas" ".canvas" EmptyString +:+ "C1.canvas".
Proof.
  assert (createNewCanvasView ("folder/" +:+ "Notes.canvas") st_nested
          = (Ok (Some "folder/NotesC1.canvas"),
             (createNewCanvasView ("folder/" +:+ "Notes.canvas") st_nested).2)) as H
    by (vm_compute; reflexivity).
  split; [exact H|].
  apply (unversioned_derivation_path "folder/" "Notes.canvas" _ st_nested _ H);
    vm_compute; reflexivity.
Defined.

(** X15, for the prefix [A] and two Numbers: 12, and 2^60, which prints as
    [1152921504606847000]. *)
Lemma version_number_round_trip_witness :
  (Js.parseInt (Js.toString (Js.Num 12)) = Js.Num 12 ∧
   Js.versionPattern_literal "A" ("A" +:+ "C" +:+ Js.toString (Js.Num 12) +:+ ".canvas")
     = Some (Js.Num 12)) ∧
  (Js.toString (Js.Num (2 ^ 60)) = "1152921504606847000" ∧
   Js.parseInt (Js.toString (Js.Num (2 ^ 60))) = Js.Num (2 ^ 60)).
Proof.
  split.
  - apply (JsNumbers.version_number_round_trip "A" 12); [lia|reflexivity|].
    vm_compute. reflexivity.
  - split; [vm_compute; reflexivity|].
    apply (JsNumbers.version_number_round_trip "A" (2 ^ 60)); [lia|vm_compute; reflexivity|].
    vm_compute. reflexivity.
Defined.

(** The registry of [st_two_groups] is in order. *)
Lemma registry_ok_two_groups : registry_ok st_two_groups.
Proof.
  split.
  - intros i g Hi. destruct i as [|[|i]]; [| |by destruct i];
      apply (inj Some) in Hi; subst g.
    + split; [apply (bool_decide_unpack _); vm_compute; exact I|].
      intros p Hp. cbn [files] in Hp.
      repeat (apply elem_of_cons in Hp as [->|Hp]);
        [vm_compute; eexists; reflexivity ..|by apply elem_of_nil in Hp].
    + split; [apply (bool_decide_unpack _); vm_compute; exact I|].
      intros p Hp. cbn [files] in Hp.
      repeat (apply elem_of_cons in Hp as [->|Hp]);
        [vm_compute; eexists; reflexivity ..|by apply elem_of_nil in Hp].
  - intros i j g h p Hi Hj Hp Hp'.
    destruct i as [|[|i]]; [| |by destruct i];
      (destruct j as [|[|j]]; [| |by destruct j]);
      apply (inj Some) in Hi; apply (inj Some) in Hj; subst g h; try done;
      cbn [files] in Hp, Hp'; exfalso;
      repeat (apply elem_of_cons in Hp as [->|Hp]);
      try (by apply elem_of_nil in Hp);
      repeat (apply elem_of_cons in Hp' as [Hp'|Hp']);
      try (by apply elem_of_nil in Hp'); discriminate Hp'.
Defined.

(** X16, on [st_two_groups]: the first group is deleted, and [B.canvas]
    is then in the group at position 0. *)
Lemma deleting_a_group_unlinks_its_files_witness :
  registry_ok st_two_groups ∧
  ∃ st', deleteGroup_onClick true 0 st_two_groups = (Ok tt, st') ∧
         findGroupForFile "A.canvas" st' = (Ok None, st') ∧
         findGroupForFile "B.canvas" st'
           = (Ok (Some (0%nat, mkGroup ["B.canvas"; "BC1.canvas"] 100)), st').
Proof.
  split; [exact registry_ok_two_groups|].
  destruct (deleting_a_group_unlinks_its_files 0 (mkGroup ["A.canvas"; "AC1.canvas"] 100)
              st_two_groups registry_ok_two_groups eq_refl)
    as (st' & Hrun & _ & _ & _ & Hgone & _ & Hkept).
  exists st'. split; [exact Hrun|]. split.
  - apply Hgone. apply list_elem_of_here.
  - apply (Hkept "B.canvas" 1%nat (mkGroup ["B.canvas"; "BC1.canvas"] 100)).
    + cbn [files]. intros Hin.
      repeat (apply elem_of_cons in Hin as [Hin|Hin]); try discriminate Hin.
      by apply elem_of_nil in Hin.
    + vm_compute. reflexivity.
Defined.

(** X17, on [st_loose]: of the four leaves, the first is registered. *)
Lemma checkForNewCanvasViews_registers_once_witness :
  listener_ok listener_start ∧
  listener_ok (checkForNewCanvasViews leaves_scenario st_loose listener_start).
Proof.
  assert (listener_ok listener_start) as H.
  { split; [apply NoDup_nil_2|]. intros p. cbn [listener_start registeredCanvasViews subscriptions].
    rewrite lookup_empty. split; [by intros [? ?]|by intros ?%elem_of_nil]. }
  split; [exact H|].
  exact (proj1 (checkForNewCanvasViews_registers_once leaves_scenario st_loose
                  listener_start H)).
Defined.

(** X18, on the scenario of the design document: a text node created on
    [A.canvas] reaches [AC1.canvas]. *)
Lemma listener_events_reach_targets_witness :
  ∃ st' d',
    handleNodeCreated 1 node_scenario "A.canvas" st_scenario = (Ok tt, st') ∧
    vault st' !! "AC1.canvas" = Some (TFile (Canvas d')) ∧
    nodes d' !! "n7" = Some (nodeData_of node_scenario).
Proof.
  assert (list_find (fun group => "A.canvas" ∈ files group) (canvasGroups st_scenario)
          = Some (0%nat, mkGroup ["A.canvas"; "AC1.canvas"; "AC3.canvas"] 100)) as Hf
    by (vm_compute; reflexivity).
  assert ("AC1.canvas" ∈ files (mkGroup ["A.canvas"; "AC1.canvas"; "AC3.canvas"] 100)) as Hin.
  { cbn [files]. apply list_elem_of_further, list_elem_of_here. }
  assert (loadable st_scenario "AC1.canvas"
          = Some (mkCanvas {[ "n1" := note "n1" "old" ]} [mkEdge "e1" "n1" "n2" None])) as Hl
    by (vm_compute; reflexivity).
  destruct (listener_events_reach_targets 1 st_scenario _ _ "A.canvas" "AC1.canvas" _
              eq_refl eq_refl (le_n 1) Hf Hin ltac:(discriminate) Hl eq_refl)
    as (Hcreated & _).
  destruct (Hcreated node_scenario) as (st' & d' & Hrun & Hv & _ & _ & Hnode).
  exists st', d'. split; [exact Hrun|]. split; [exact Hv|].
  apply Hnode. discriminate.
Defined.

(** X19, on the schedule of three submissions. *)
Lemma engine_result_is_sequential_witness :
  Engine.initial c_start ∧ Engine.run c_start schedule_three = Some c_three ∧
  ∃ sequential_result,
    for_of (submissions schedule_three) executeOperation (Engine.st c_start)
      = (Ok tt, sequential_result) ∧
    ∃ c', Engine.resume_n (Engine.measure c_three) c_three = Some c' ∧
          Engine.loops c' = [] ∧ same_documents (Engine.st c') sequential_result.
Proof.
  assert (Engine.initial c_start) as Hi by (repeat split).
  assert (Engine.run c_start schedule_three = Some c_three) as Hr
    by (vm_compute; reflexivity).
  split; [exact Hi|]. split; [exact Hr|].
  destruct (EngineResult.engine_result_is_sequential c_start schedule_three c_three Hi Hr)
    as (s & Hs & _ & Hc).
  exists s. split; [exact Hs|exact Hc].
Defined.

(** X20, on the engine before any submission. *)
Lemma engine_runs_processOperation_witness :
  ∃ m c1 c',
    Engine.step c_start (Engine.Submit op_hi) = Some c1 ∧
    Engine.resume_n m c1 = Some c' ∧ Engine.loops c' = [] ∧
    processOperation 1 op_hi (Engine.st c_start) = (Ok tt, Engine.st c').
Proof.
  exact (EngineFacts.engine_runs_processOperation 1 op_hi c_start eq_refl eq_refl (le_n 1)).
Defined.

(** X21, on an engine in the middle of [op_hi], for a submission of
    [op_loose]. *)
Lemma submit_commutes_with_target_witness :
  Engine.loops c_busy
    = [Engine.InOperation 0 op_hi ["A.canvas"; "AC1.canvas"; "AC3.canvas"]] ∧
  (Engine.step c_busy (Engine.Submit op_loose) ≫= fun c1 => Engine.step c1 (Engine.Resume 0)) =
  (Engine.step c_busy (Engine.Resume 0) ≫= fun c1 => Engine.step c1 (Engine.Submit op_loose)).
Proof.
  assert (Engine.loops c_busy
          = [Engine.InOperation 0 op_hi ["A.canvas"; "AC1.canvas"; "AC3.canvas"]]) as H
    by (vm_compute; reflexivity).
  split; [exact H|].
  exact (EngineFacts.submit_commutes_with_target c_busy op_loose 0 op_hi "A.canvas"
           ["AC1.canvas"; "AC3.canvas"] H eq_refl).
Defined.

(** X22, on the scenario of the design document: a deletion on
    [AC1.canvas] reaches the view [AC4.canvas] derived from it. *)
Lemma derived_view_is_kept_in_sync_witness :
  createNewCanvasView "AC1.canvas" st_scenario
    = (Ok (Some "AC4.canvas"), (createNewCanvasView "AC1.canvas" st_scenario).2) ∧
  ∃ d st'',
    executeOperation (mkOperation (DeleteNode "n1") "AC1.canvas")
                     (createNewCanvasView "AC1.canvas" st_scenario).2 = (Ok tt, st'') ∧
    vault st'' !! "AC4.canvas" = Some (TFile (Canvas (applyOperation d (DeleteNode "n1")))).
Proof.
  assert (createNewCanvasView "AC1.canvas" st_scenario
          = (Ok (Some "AC4.canvas"), (createNewCanvasView "AC1.canvas" st_scenario).2)) as H
    by (vm_compute; reflexivity).
  split; [exact H|].
  assert (∃ d, vault st_scenario !! "AC1.canvas" = Some (TFile (Canvas d))) as [d Hd]
    by (eexists; vm_compute; reflexivity).
  destruct (derived_view_is_kept_in_sync "AC1.canvas" "AC4.canvas" st_scenario _ d
              (DeleteNode "n1") Hd H) as (Hto & _).
  destruct (Hto eq_refl eq_refl) as (st'' & Hrun & Hv).
  exists d, st''. split; [exact Hrun|exact Hv].
Defined.

(** X22, the other case: on a source that holds [{}] the derivation
    succeeds, and an operation from the source leaves the new view as it
    is. *)
Lemma derived_view_of_an_empty_object :
  let st := mkState {[ "A.canvas" := TFile (NoNodes "{}") ]} quiet no_RegExp 200 [] []
                    false [] in
  ∃ st' st'',
    createNewCanvasView "A.canvas" st = (Ok (Some "AC1.canvas"), st') ∧
    files <$> canvasGroups st' = [["A.canvas"; "AC1.canvas"]] ∧
    executeOperation (mkOperation (CreateNode (note "n9" "new")) "A.canvas") st'
      = (Ok tt, st'') ∧
    vault st'' !! "AC1.canvas" = Some (TFile (NoNodes "{}")) ∧
    written st'' = written st'.
Proof.
  eexists _, _. split; [vm_compute; reflexivity|]. split; [vm_compute; reflexivity|].
  split; [vm_compute; reflexivity|]. split; vm_compute; reflexivity.
Qed.
